(** * Chess rule engine and search core: a shallow embedding

    The development follows the JavaScript sources file by file:
    [utils.js] (pieces, colours, board helpers, the attack oracle),
    [pieces.js] (pseudo-legal move generators, castling and en-passant
    candidates), [rules.js] (legal-move filter, game-state classifier,
    state mutators), [board.js] (the [Board] accessor) and [ai.js] (the
    search engine); then the rest of these modules and [game.js] (the game
    controller).

    Numbers used as coordinates are integers ([Z]).  Scores are JavaScript
    numbers: a finite double is a rational, and [<], [>], [<=], [Math.max]
    and [Math.min] on finite doubles and the two infinities agree with the
    order of the rationals extended by [-Infinity] and [+Infinity]; that is
    the type [num] below.  The static evaluator itself (floating-point
    arithmetic) is a parameter of the search section. *)

From Stdlib Require Import ZArith List Bool Lia QArith Qcanon Orders OrdersTac.
Import ListNotations.
Local Open Scope Z_scope.

(** ** Exceptions

    The only exception the modelled code can raise is the [TypeError] of
    indexing [undefined], when a board is indexed with a row that is not
    one of its eight rows. *)

Inductive exn (A : Type) : Type :=
| Ret (a : A)
| Throw.

Arguments Ret {A} a.
Arguments Throw {A}.

Definition bind {A B : Type} (m : exn A) (k : A -> exn B) : exn B :=
  match m with
  | Ret a => k a
  | Throw => Throw
  end.

Notation "x <- m ;; k" := (bind m (fun x => k))
  (at level 61, m at next level, right associativity).
Notation "' pat <- m ;; k" := (bind m (fun x => match x with pat => k end))
  (at level 61, pat pattern, m at next level, right associativity).

(** ** utils.js: pieces and colours *)

Inductive color : Type := White | Black.

Inductive ptype : Type := Pawn | Knight | Bishop | Rook | Queen | King.

(** A piece code is one letter; its case is the colour and its upper-case
    form the type. *)
Record piece : Type := mkPiece { kind : ptype; side : color }.

(** A board cell: [null] (and [undefined], which the code never tells apart
    from [null] in the functions modelled here) is [None]. *)
Definition cell : Type := option piece.

Definition square : Type := (Z * Z)%type.

Definition color_eqb (a b : color) : bool :=
  match a, b with
  | White, White | Black, Black => true
  | _, _ => false
  end.

Definition ptype_eqb (a b : ptype) : bool :=
  match a, b with
  | Pawn, Pawn | Knight, Knight | Bishop, Bishop
  | Rook, Rook | Queen, Queen | King, King => true
  | _, _ => false
  end.

Definition piece_eqb (p q : piece) : bool :=
  ptype_eqb (kind p) (kind q) && color_eqb (side p) (side q).

Definition cell_eqb (x y : cell) : bool :=
  match x, y with
  | None, None => true
  | Some p, Some q => piece_eqb p q
  | _, _ => false
  end.

Definition square_eqb (s t : square) : bool :=
  (fst s =? fst t) && (snd s =? snd t).

(** [getPieceColor]: [null] for an empty cell. *)
Definition getPieceColor (x : cell) : option color :=
  match x with
  | None => None
  | Some p => Some (side p)
  end.

(** [getPieceType]: [null] for an empty cell. *)
Definition getPieceType (x : cell) : option ptype :=
  match x with
  | None => None
  | Some p => Some (kind p)
  end.

Definition opponentOf (c : color) : color :=
  match c with White => Black | Black => White end.

(** [x === COLOR.WHITE] for a colour that may be [null]. *)
Definition isWhite (c : option color) : bool :=
  match c with Some White => true | _ => false end.

Definition isType (t : ptype) (x : cell) : bool :=
  match x with
  | Some p => ptype_eqb (kind p) t
  | None => false
  end.

(** ** utils.js: the board

    A board is the 8x8 array of cells.  It is kept as the map from the 64
    squares to their cells; no definition below looks at it outside rows and
    columns 0..7. *)

Definition board : Type := Z -> Z -> cell.

Definition onBoard (i : Z) : bool := (0 <=? i) && (i <? 8).

(** [isValidCoord] *)
Definition isValidCoord (row col : Z) : bool :=
  (0 <=? row) && (row <? 8) && (0 <=? col) && (col <? 8).

(** [board[row][col]] where the row is known to be on the board (a loop
    index, a literal, or a coordinate that passed [isValidCoord]); a column
    off the board reads [undefined]. *)
Definition cellAt (b : board) (row col : Z) : cell :=
  if isValidCoord row col then b row col else None.

(** [board[row][col]] at an unchecked position: [board[row]] is [undefined]
    for a row off the board and indexing it raises. *)
Definition readCell (b : board) (row col : Z) : exn cell :=
  if onBoard row then Ret (cellAt b row col) else Throw.

(** [board[row][col] = v] with the row on the board.  A write at a column
    off the board lands outside the eight columns of the row (the array
    grows, or gets a named property for a negative index); every read
    modelled here is at a column 0..7 or guarded, and [copyBoard] drops
    named properties, so such a write is never read back. *)
Definition setCell (b : board) (row col : Z) (v : cell) : board :=
  fun r c => if (r =? row) && (c =? col) then v else b r c.

(** [board[row][col] = v] at an unchecked position: raises when the row is
    off the board. *)
Definition writeCell (b : board) (row col : Z) (v : cell) : exn board :=
  if onBoard row then Ret (setCell b row col v) else Throw.

(** [copyBoard]: a fresh array with the same cells. *)
Definition copyBoard (b : board) : board := fun r c => b r c.

(** A board given row by row, for concrete positions. *)
Definition boardOf (rows : list (list cell)) : board :=
  fun r c => nth (Z.to_nat c) (nth (Z.to_nat r) rows []) None.

Definition indices : list Z := [0; 1; 2; 3; 4; 5; 6; 7].

(** The squares in the order of the two nested loops
    [for row = 0..7, for col = 0..7]. *)
Definition allSquares : list square :=
  flat_map (fun r => map (fun c => (r, c)) indices) indices.

Record placed : Type := mkPlaced { pc : piece; prow : Z; pcol : Z }.

(** [getPiecesOfColor] *)
Definition getPiecesOfColor (b : board) (c : color) : list placed :=
  flat_map (fun s : square =>
              match cellAt b (fst s) (snd s) with
              | Some p => if color_eqb (side p) c
                          then [mkPlaced p (fst s) (snd s)] else []
              | None => []
              end) allSquares.

(** [findKing]: the first square, in loop order, holding the king of the
    colour; [null] if there is none. *)
Definition findKing (b : board) (c : color) : option square :=
  find (fun s : square => cell_eqb (cellAt b (fst s) (snd s)) (Some (mkPiece King c)))
       allSquares.

Definition occupied (x : cell) : bool :=
  match x with Some _ => true | None => false end.

(** The loop [for (dist = 1; dist < 8; dist++)] of [generatePieceMoves] for
    one direction: the square is pushed, then the ray stops if it is
    occupied.  [n] counts the iterations left. *)
Fixpoint rawRay (b : board) (row col dr dc dist : Z) (n : nat) : list square :=
  match n with
  | O => []
  | S n' =>
      let r := row + dr * dist in
      let c := col + dc * dist in
      if isValidCoord r c
      then (r, c) :: (if occupied (cellAt b r c) then []
                      else rawRay b row col dr dc (dist + 1) n')
      else []
  end.

Definition rookDirections : list (Z * Z) := [(0, 1); (0, -1); (1, 0); (-1, 0)].
Definition bishopDirections : list (Z * Z) := [(1, 1); (1, -1); (-1, 1); (-1, -1)].
Definition knightOffsets : list (Z * Z) :=
  [(-2, -1); (-2, 1); (-1, -2); (-1, 2); (1, -2); (1, 2); (2, -1); (2, 1)].
Definition kingOffsets : list (Z * Z) :=
  [(-1, -1); (-1, 0); (-1, 1); (0, -1); (0, 1); (1, -1); (1, 0); (1, 1)].

(** The offsets that stay on the board, in table order. *)
Definition rawSteps (row col : Z) (offsets : list (Z * Z)) : list square :=
  flat_map (fun d : Z * Z =>
              let r := row + fst d in
              let c := col + snd d in
              if isValidCoord r c then [(r, c)] else []) offsets.

Definition rawPawn (b : board) (row col : Z) (c : option color) : list square :=
  let direction := if isWhite c then -1 else 1 in
  let startRow := if isWhite c then 6 else 1 in
  let forward :=
    if isValidCoord (row + direction) col
       && negb (occupied (cellAt b (row + direction) col))
    then (row + direction, col)
         :: (if row =? startRow
             then if negb (occupied (cellAt b (row + 2 * direction) col))
                  then [(row + 2 * direction, col)] else []
             else [])
    else [] in
  let captures :=
    flat_map (fun dCol : Z =>
                if isValidCoord (row + direction) (col + dCol)
                then if occupied (cellAt b (row + direction) (col + dCol))
                     then [(row + direction, col + dCol)] else []
                else []) [-1; 1] in
  forward ++ captures.

(** The [switch] of [generatePieceMoves] on the piece type, for a piece of
    colour [c] ([null] when the square read was empty). *)
Definition rawMoves (b : board) (row col : Z) (type : option ptype) (c : option color)
  : list square :=
  match type with
  | Some Pawn => rawPawn b row col c
  | Some Knight => rawSteps row col knightOffsets
  | Some Bishop =>
      flat_map (fun d => rawRay b row col (fst d) (snd d) 1 7) bishopDirections
  | Some Rook =>
      flat_map (fun d => rawRay b row col (fst d) (snd d) 1 7) rookDirections
  | Some Queen =>
      flat_map (fun d => rawRay b row col (fst d) (snd d) 1 7)
               (rookDirections ++ bishopDirections)
  | Some King => rawSteps row col kingOffsets
  | None => []
  end.

(** [generatePieceMoves]: the raw moves used for attack detection.  The
    piece is read at the given square without a check. *)
Definition generatePieceMoves (b : board) (row col : Z) (type : option ptype)
  : exn (list square) :=
  x <- readCell b row col ;;
  Ret (rawMoves b row col type (getPieceColor x)).

(** The loop of [isSquareAttacked] over the opponent's pieces. *)
Fixpoint attackedBy (b : board) (pieces : list placed) (row col : Z) : exn bool :=
  match pieces with
  | [] => Ret false
  | p :: rest =>
      moves <- generatePieceMoves b (prow p) (pcol p) (getPieceType (Some (pc p))) ;;
      if existsb (fun m => square_eqb m (row, col)) moves
      then Ret true
      else attackedBy b rest row col
  end.

(** [isSquareAttacked] *)
Definition isSquareAttacked (b : board) (row col : Z) (c : color) : exn bool :=
  attackedBy b (getPiecesOfColor b (opponentOf c)) row col.

(** ** pieces.js: pseudo-legal move generation *)

Definition friendly (x : cell) (c : color) : bool :=
  match x with
  | Some t => color_eqb (side t) c
  | None => false
  end.

(** [getPawnMoves] *)
Definition getPawnMoves (b : board) (row col : Z) (c : color) : list square :=
  let direction := if color_eqb c White then -1 else 1 in
  let startRow := if color_eqb c White then 6 else 1 in
  let oneForward := row + direction in
  let forward :=
    if isValidCoord oneForward col && negb (occupied (cellAt b oneForward col))
    then (oneForward, col)
         :: (if row =? startRow
             then if negb (occupied (cellAt b (row + 2 * direction) col))
                  then [(row + 2 * direction, col)] else []
             else [])
    else [] in
  let captures :=
    flat_map (fun dCol : Z =>
                let captureRow := row + direction in
                let captureCol := col + dCol in
                if isValidCoord captureRow captureCol
                then if occupied (cellAt b captureRow captureCol)
                        && negb (friendly (cellAt b captureRow captureCol) c)
                     then [(captureRow, captureCol)] else []
                else []) [-1; 1] in
  forward ++ captures.

(** The loop shared by [getKnightMoves] and [getKingMoves]: an offset is
    kept when it lands on the board and not on a piece of the same colour. *)
Definition stepMoves (b : board) (row col : Z) (c : color) (offsets : list (Z * Z))
  : list square :=
  flat_map (fun d : Z * Z =>
              let newRow := row + fst d in
              let newCol := col + snd d in
              if isValidCoord newRow newCol
              then if friendly (cellAt b newRow newCol) c then [] else [(newRow, newCol)]
              else []) offsets.

(** [getKnightMoves] *)
Definition getKnightMoves (b : board) (row col : Z) (c : color) : list square :=
  stepMoves b row col c knightOffsets.

(** [getKingMoves] *)
Definition getKingMoves (b : board) (row col : Z) (c : color) : list square :=
  stepMoves b row col c kingOffsets.

(** The loop [for (dist = 1; dist < 8; dist++)] of the sliding generators
    for one direction: an empty square is pushed and the ray goes on; an
    occupied one ends the ray and is pushed when it holds the other colour. *)
Fixpoint ray (b : board) (c : color) (row col dr dc dist : Z) (n : nat) : list square :=
  match n with
  | O => []
  | S n' =>
      let newRow := row + dr * dist in
      let newCol := col + dc * dist in
      if isValidCoord newRow newCol
      then match cellAt b newRow newCol with
           | None => (newRow, newCol) :: ray b c row col dr dc (dist + 1) n'
           | Some t => if color_eqb (side t) c then [] else [(newRow, newCol)]
           end
      else []
  end.

Definition slide (b : board) (row col : Z) (c : color) (directions : list (Z * Z))
  : list square :=
  flat_map (fun d => ray b c row col (fst d) (snd d) 1 7) directions.

(** [getBishopMoves] *)
Definition getBishopMoves (b : board) (row col : Z) (c : color) : list square :=
  slide b row col c bishopDirections.

(** [getRookMoves] *)
Definition getRookMoves (b : board) (row col : Z) (c : color) : list square :=
  slide b row col c rookDirections.

(** [getQueenMoves] *)
Definition getQueenMoves (b : board) (row col : Z) (c : color) : list square :=
  slide b row col c (rookDirections ++ bishopDirections).

Definition movesOfPiece (b : board) (row col : Z) (p : piece) : list square :=
  match kind p with
  | Pawn => getPawnMoves b row col (side p)
  | Knight => getKnightMoves b row col (side p)
  | Bishop => getBishopMoves b row col (side p)
  | Rook => getRookMoves b row col (side p)
  | Queen => getQueenMoves b row col (side p)
  | King => getKingMoves b row col (side p)
  end.

(** [getPseudoLegalMoves]: the piece is read at the given square without a
    coordinate check. *)
Definition getPseudoLegalMoves (b : board) (row col : Z) : exn (list square) :=
  x <- readCell b row col ;;
  match x with
  | None => Ret []
  | Some p => Ret (movesOfPiece b row col p)
  end.

Record castlingRights : Type := mkRights {
  whiteKingside : bool;
  whiteQueenside : bool;
  blackKingside : bool;
  blackQueenside : bool
}.

Definition whiteRook : cell := Some (mkPiece Rook White).
Definition blackRook : cell := Some (mkPiece Rook Black).

(** [getCastlingMoves] *)
Definition getCastlingMoves (b : board) (kingRow kingCol : Z) (c : color)
  (rights : castlingRights) : list square :=
  let white := color_eqb c White in
  if (white && negb (kingRow =? 7)) || (negb white && negb (kingRow =? 0))
  then []
  else
    let kingsideMoves :=
      if white && whiteKingside rights
      then if cell_eqb (cellAt b 7 7) whiteRook
              && negb (occupied (cellAt b 7 5)) && negb (occupied (cellAt b 7 6))
           then [(7, 6)] else []
      else if negb white && blackKingside rights
      then if cell_eqb (cellAt b 0 7) blackRook
              && negb (occupied (cellAt b 0 5)) && negb (occupied (cellAt b 0 6))
           then [(0, 6)] else []
      else [] in
    let queensideMoves :=
      if white && whiteQueenside rights
      then if cell_eqb (cellAt b 7 0) whiteRook
              && negb (occupied (cellAt b 7 1)) && negb (occupied (cellAt b 7 2))
              && negb (occupied (cellAt b 7 3))
           then [(7, 2)] else []
      else if negb white && blackQueenside rights
      then if cell_eqb (cellAt b 0 0) blackRook
              && negb (occupied (cellAt b 0 1)) && negb (occupied (cellAt b 0 2))
              && negb (occupied (cellAt b 0 3))
           then [(0, 2)] else []
      else [] in
    kingsideMoves ++ queensideMoves.

(** [getEnPassantMoves]: the pawn square is read without a coordinate
    check, after the test for a missing target. *)
Definition getEnPassantMoves (b : board) (pawnRow pawnCol : Z) (c : color)
  (enPassantSquare : option square) : exn (list square) :=
  match enPassantSquare with
  | None => Ret []
  | Some ep =>
      x <- readCell b pawnRow pawnCol ;;
      if negb (isType Pawn x) then Ret []
      else
        let direction := if color_eqb c White then -1 else 1 in
        let captureRow := pawnRow + direction in
        if fst ep =? captureRow
        then if Z.abs (snd ep - pawnCol) =? 1 then Ret [ep] else Ret []
        else Ret []
  end.

(** ** rules.js: the legal-move filter *)

Definition isEnPassantTarget (enPassantSquare : option square) (toRow toCol : Z) : bool :=
  match enPassantSquare with
  | Some ep => (toRow =? fst ep) && (toCol =? snd ep)
  | None => false
  end.

(** The rook relocation of a castling king, as both simulations write it:
    it looks at the moved piece, the origin square and the destination
    column only. *)
Definition relocateRook (tb : board) (x : cell) (fromRow fromCol toCol : Z) : board :=
  if isType King x
  then
    let white := isWhite (getPieceColor x) in
    if white && (fromRow =? 7) && (fromCol =? 4)
    then
      let tb1 := if toCol =? 6
                 then setCell (setCell tb 7 5 (cellAt tb 7 7)) 7 7 None else tb in
      if toCol =? 2
      then setCell (setCell tb1 7 3 (cellAt tb1 7 0)) 7 0 None else tb1
    else if negb white && (fromRow =? 0) && (fromCol =? 4)
    then
      let tb1 := if toCol =? 6
                 then setCell (setCell tb 0 5 (cellAt tb 0 7)) 0 7 None else tb in
      if toCol =? 2
      then setCell (setCell tb1 0 3 (cellAt tb1 0 0)) 0 0 None else tb1
    else tb
  else tb.

(** The board part of a simulated move: the block that
    [wouldLeaveKingInCheck] (rules.js) and [simulateMove] (ai.js) both
    contain, statement for statement.  It copies the board, reads the moved
    piece, writes it to the destination, clears the origin (and the captured
    pawn's square, at the origin row and destination column, for an
    en-passant capture) and relocates the rook of a castling king.  The
    result is the piece read and the board built. *)
Definition simulatedBoard (b : board) (fromRow fromCol toRow toCol : Z)
  (enPassantSquare : option square) : exn (cell * board) :=
  let testBoard := copyBoard b in
  x <- readCell testBoard fromRow fromCol ;;
  tb <- (if isType Pawn x && isEnPassantTarget enPassantSquare toRow toCol
         then
           let captureRow := fromRow in
           t1 <- writeCell testBoard toRow toCol x ;;
           t2 <- writeCell t1 fromRow fromCol None ;;
           writeCell t2 captureRow toCol None
         else
           t1 <- writeCell testBoard toRow toCol x ;;
           writeCell t1 fromRow fromCol None) ;;
  Ret (x, relocateRook tb x fromRow fromCol toCol).

(** [wouldLeaveKingInCheck] *)
Definition wouldLeaveKingInCheck (b : board) (fromRow fromCol toRow toCol : Z)
  (c : color) (rights : castlingRights) (enPassantSquare : option square) : exn bool :=
  sim <- simulatedBoard b fromRow fromCol toRow toCol enPassantSquare ;;
  let testBoard := snd sim in
  match findKing testBoard c with
  | None => Ret true
  | Some kingPos => isSquareAttacked testBoard (fst kingPos) (snd kingPos) c
  end.

(** [Array.prototype.filter] with a callback that may raise. *)
Fixpoint filterE {A : Type} (f : A -> exn bool) (l : list A) : exn (list A) :=
  match l with
  | [] => Ret []
  | a :: rest =>
      keep <- f a ;;
      tl <- filterE f rest ;;
      Ret (if keep then a :: tl else tl)
  end.

(** [getLegalMoves] *)
Definition getLegalMoves (b : board) (row col : Z) (rights : castlingRights)
  (enPassantSquare : option square) (c : color) : exn (list square) :=
  x <- readCell b row col ;;
  match x with
  | None => Ret []
  | Some p =>
      if negb (color_eqb (side p) c) then Ret []
      else
        pseudoLegal <- getPseudoLegalMoves b row col ;;
        let withCastles :=
          match kind p with
          | King => pseudoLegal ++ getCastlingMoves b row col c rights
          | _ => pseudoLegal
          end in
        candidates <-
          match kind p with
          | Pawn =>
              enPassant <- getEnPassantMoves b row col c enPassantSquare ;;
              Ret (withCastles ++ enPassant)
          | _ => Ret withCastles
          end ;;
        filterE (fun m : square =>
                   w <- wouldLeaveKingInCheck b row col (fst m) (snd m) c rights
                          enPassantSquare ;;
                   Ret (negb w)) candidates
  end.

(** ** rules.js: the game-state classifier *)

(** [isInCheck] *)
Definition isInCheck (b : board) (c : color) : exn bool :=
  match findKing b c with
  | None => Ret false
  | Some kingPos => isSquareAttacked b (fst kingPos) (snd kingPos) c
  end.

(** The loop that ends [isCheckmate] and [isStalemate]: [false] at the
    first piece with a legal move, [true] when the pieces are exhausted. *)
Fixpoint noLegalMove (b : board) (c : color) (rights : castlingRights)
  (enPassantSquare : option square) (pieces : list placed) : exn bool :=
  match pieces with
  | [] => Ret true
  | p :: rest =>
      legal <- getLegalMoves b (prow p) (pcol p) rights enPassantSquare c ;;
      match legal with
      | [] => noLegalMove b c rights enPassantSquare rest
      | _ :: _ => Ret false
      end
  end.

(** [isCheckmate] *)
Definition isCheckmate (b : board) (c : color) (rights : castlingRights)
  (enPassantSquare : option square) : exn bool :=
  inCheck <- isInCheck b c ;;
  if negb inCheck then Ret false
  else noLegalMove b c rights enPassantSquare (getPiecesOfColor b c).

(** [isStalemate] *)
Definition isStalemate (b : board) (c : color) (rights : castlingRights)
  (enPassantSquare : option square) : exn bool :=
  inCheck <- isInCheck b c ;;
  if inCheck then Ret false
  else noLegalMove b c rights enPassantSquare (getPiecesOfColor b c).

(** [isInsufficientMaterial] *)
Definition isInsufficientMaterial (b : board) : bool :=
  let whitePieces := getPiecesOfColor b White in
  let blackPieces := getPiecesOfColor b Black in
  if (length whitePieces =? 1)%nat && (length blackPieces =? 1)%nat then true
  else
    let nonKing := filter (fun p => negb (ptype_eqb (kind (pc p)) King)) in
    let whiteNonKing := nonKing whitePieces in
    let blackNonKing := nonKing blackPieces in
    let minor (p : placed) :=
      ptype_eqb (kind (pc p)) Knight || ptype_eqb (kind (pc p)) Bishop in
    match whiteNonKing, blackNonKing with
    | [], [] => true
    | [p], [] | [], [p] => minor p
    | [w], [k] =>
        ptype_eqb (kind (pc w)) Bishop && ptype_eqb (kind (pc k)) Bishop
        && ((prow w + pcol w) mod 2 =? (prow k + pcol k) mod 2)
    | _, _ => false
    end.

(** ** rules.js: the state mutators *)

(** The four assignments [newRights.<flag> = false]. *)
Definition clearWhiteKingside (r : castlingRights) : castlingRights :=
  mkRights false (whiteQueenside r) (blackKingside r) (blackQueenside r).
Definition clearWhiteQueenside (r : castlingRights) : castlingRights :=
  mkRights (whiteKingside r) false (blackKingside r) (blackQueenside r).
Definition clearBlackKingside (r : castlingRights) : castlingRights :=
  mkRights (whiteKingside r) (whiteQueenside r) false (blackQueenside r).
Definition clearBlackQueenside (r : castlingRights) : castlingRights :=
  mkRights (whiteKingside r) (whiteQueenside r) (blackKingside r) false.

(** [x === COLOR.BLACK] for a colour that may be [null]. *)
Definition isBlack (c : option color) : bool :=
  match c with Some Black => true | _ => false end.

(** [updateCastlingRights]; the piece may be [null]. *)
Definition updateCastlingRights (rights : castlingRights) (fromRow fromCol : Z)
  (x : cell) : castlingRights :=
  let white := isWhite (getPieceColor x) in
  let black := isBlack (getPieceColor x) in
  let r1 :=
    if isType King x
    then if white
         then clearWhiteQueenside (clearWhiteKingside rights)
         else clearBlackQueenside (clearBlackKingside rights)
    else rights in
  let r2 := if white && (fromRow =? 7) && (fromCol =? 7)
            then clearWhiteKingside r1 else r1 in
  let r3 := if white && (fromRow =? 7) && (fromCol =? 0)
            then clearWhiteQueenside r2 else r2 in
  let r4 := if black && (fromRow =? 0) && (fromCol =? 7)
            then clearBlackKingside r3 else r3 in
  if black && (fromRow =? 0) && (fromCol =? 0)
  then clearBlackQueenside r4 else r4.

(** [updateEnPassantSquare].  The row [(fromRow + toRow) / 2] is computed
    only when the two rows differ by two, so the sum is even and the
    division exact. *)
Definition updateEnPassantSquare (fromRow toRow toCol : Z) (x : cell) : option square :=
  if negb (isType Pawn x) then None
  else if negb (Z.abs (toRow - fromRow) =? 2) then None
  else Some ((fromRow + toRow) / 2, toCol).

(** ** board.js: the [Board] accessor *)

(** [Board.getPieceAt], on the board held by the object. *)
Definition getPieceAt (b : board) (row col : Z) : exn cell :=
  if negb (isValidCoord row col) then Ret None
  else readCell b row col.

(** ** Numbers: the scores of the search *)

Inductive num : Type :=
| NegInf
| Fin (q : Qc)
| PosInf.

(** [a < b] *)
Definition num_ltb (a b : num) : bool :=
  match a, b with
  | NegInf, NegInf => false
  | NegInf, _ => true
  | Fin _, NegInf => false
  | Fin x, Fin y => match Qccompare x y with Lt => true | _ => false end
  | Fin _, PosInf => true
  | PosInf, _ => false
  end.

(** [a <= b] *)
Definition num_leb (a b : num) : bool := negb (num_ltb b a).

(** [Math.max(a, b)] *)
Definition num_max (a b : num) : num := if num_ltb a b then b else a.

(** [Math.min(a, b)] *)
Definition num_min (a b : num) : num := if num_ltb b a then b else a.

Definition numZ (z : Z) : num := Fin (Q2Qc (inject_Z z)).

(** ** ai.js: the search engine *)

Record move : Type := mkMove { moveFrom : square; moveTo : square }.

(** The loop of [getAllLegalMoves] over the pieces of the colour. *)
Fixpoint collectMoves (b : board) (c : color) (rights : castlingRights)
  (enPassantSquare : option square) (pieces : list placed) : exn (list move) :=
  match pieces with
  | [] => Ret []
  | p :: rest =>
      legalMoves <- getLegalMoves b (prow p) (pcol p) rights enPassantSquare c ;;
      others <- collectMoves b c rights enPassantSquare rest ;;
      Ret (map (fun m => mkMove (prow p, pcol p) m) legalMoves ++ others)
  end.

(** [ChessAI.getAllLegalMoves] *)
Definition getAllLegalMoves (b : board) (c : color) (rights : castlingRights)
  (enPassantSquare : option square) : exn (list move) :=
  collectMoves b c rights enPassantSquare (getPiecesOfColor b c).

Record simulated : Type := mkSimulated {
  newBoard : board;
  newCastling : castlingRights;
  newEnPassant : option square
}.

(** The adjustment [simulateMove] makes for a rook captured on its corner. *)
Definition capturedRookRights (r : castlingRights) (capturedPiece : cell)
  (toRow toCol : Z) : castlingRights :=
  if isType Rook capturedPiece
  then
    if isWhite (getPieceColor capturedPiece)
    then
      let r1 := if (toRow =? 7) && (toCol =? 7) then clearWhiteKingside r else r in
      if (toRow =? 7) && (toCol =? 0) then clearWhiteQueenside r1 else r1
    else
      let r1 := if (toRow =? 0) && (toCol =? 7) then clearBlackKingside r else r in
      if (toRow =? 0) && (toCol =? 0) then clearBlackQueenside r1 else r1
  else r.

(** [ChessAI.simulateMove] *)
Definition simulateMove (b : board) (m : move) (rights : castlingRights)
  (enPassantSquare : option square) : exn simulated :=
  let fromRow := fst (moveFrom m) in
  let fromCol := snd (moveFrom m) in
  let toRow := fst (moveTo m) in
  let toCol := snd (moveTo m) in
  sim <- simulatedBoard b fromRow fromCol toRow toCol enPassantSquare ;;
  let x := fst sim in
  let castling := updateCastlingRights rights fromRow fromCol x in
  capturedPiece <- readCell b toRow toCol ;;
  let castling' := capturedRookRights castling capturedPiece toRow toCol in
  let enPassant :=
    if isType Pawn x && (Z.abs (toRow - fromRow) =? 2)
    then Some ((fromRow + toRow) / 2, toCol)
    else None in
  Ret (mkSimulated (snd sim) castling' enPassant).

(** The loop of [minimaxSearch] over the moves; [recur] is the recursive
    call one ply deeper. *)
Fixpoint searchLoop (recur : board -> castlingRights -> option square -> exn num)
  (b : board) (rights : castlingRights) (enPassantSquare : option square)
  (isMaximizing : bool) (moves : list move) (bestScore : num) : exn num :=
  match moves with
  | [] => Ret bestScore
  | m :: rest =>
      s <- simulateMove b m rights enPassantSquare ;;
      score <- recur (newBoard s) (newCastling s) (newEnPassant s) ;;
      searchLoop recur b rights enPassantSquare isMaximizing rest
        (if isMaximizing then num_max bestScore score else num_min bestScore score)
  end.

(** The loop of [minimaxSearchAlphaBeta] over the moves, with its cutoff. *)
Fixpoint searchLoopAlphaBeta
  (recur : board -> castlingRights -> option square -> num -> num -> exn num)
  (b : board) (rights : castlingRights) (enPassantSquare : option square)
  (isMaximizing : bool) (moves : list move) (bestScore alpha beta : num) : exn num :=
  match moves with
  | [] => Ret bestScore
  | m :: rest =>
      s <- simulateMove b m rights enPassantSquare ;;
      score <- recur (newBoard s) (newCastling s) (newEnPassant s) alpha beta ;;
      let bestScore' :=
        if isMaximizing then num_max bestScore score else num_min bestScore score in
      let alpha' := if isMaximizing then num_max alpha bestScore' else alpha in
      let beta' := if isMaximizing then beta else num_min beta bestScore' in
      if num_leb beta' alpha' then Ret bestScore'
      else searchLoopAlphaBeta recur b rights enPassantSquare isMaximizing rest
             bestScore' alpha' beta'
  end.

Section Search.

(** [ChessAI.evaluateBoard], the static evaluator. *)
Variable evaluateBoard : board -> color -> num.

(** [ChessAI.minimaxSearch] *)
Fixpoint minimaxSearch (b : board) (c : color) (rights : castlingRights)
  (enPassantSquare : option square) (depth : nat) (isMaximizing : bool)
  {struct depth} : exn num :=
  let opponent := opponentOf c in
  let toMove := if isMaximizing then c else opponent in
  mate <- isCheckmate b toMove rights enPassantSquare ;;
  if mate then Ret (if isMaximizing then numZ 10000 else numZ (-10000))
  else
    stale <- isStalemate b toMove rights enPassantSquare ;;
    if stale then Ret (numZ 0)
    else if isInsufficientMaterial b then Ret (numZ 0)
    else
      match depth with
      | O => Ret (evaluateBoard b c)
      | S depth' =>
          let currentColor := toMove in
          moves <- getAllLegalMoves b currentColor rights enPassantSquare ;;
          searchLoop
            (fun nb nc ne => minimaxSearch nb c nc ne depth' (negb isMaximizing))
            b rights enPassantSquare isMaximizing moves
            (if isMaximizing then NegInf else PosInf)
      end.

(** [ChessAI.minimaxSearchAlphaBeta] *)
Fixpoint minimaxSearchAlphaBeta (b : board) (c : color) (rights : castlingRights)
  (enPassantSquare : option square) (depth : nat) (alpha beta : num)
  (isMaximizing : bool) {struct depth} : exn num :=
  let opponent := opponentOf c in
  let toMove := if isMaximizing then c else opponent in
  mate <- isCheckmate b toMove rights enPassantSquare ;;
  if mate then Ret (if isMaximizing then numZ 10000 else numZ (-10000))
  else
    stale <- isStalemate b toMove rights enPassantSquare ;;
    if stale then Ret (numZ 0)
    else if isInsufficientMaterial b then Ret (numZ 0)
    else
      match depth with
      | O => Ret (evaluateBoard b c)
      | S depth' =>
          let currentColor := toMove in
          moves <- getAllLegalMoves b currentColor rights enPassantSquare ;;
          searchLoopAlphaBeta
            (fun nb nc ne a be =>
               minimaxSearchAlphaBeta nb c nc ne depth' a be (negb isMaximizing))
            b rights enPassantSquare isMaximizing moves
            (if isMaximizing then NegInf else PosInf) alpha beta
      end.

(** The loop of the root [minimax]: every iteration searches the board
    the root was given. *)
Fixpoint rootLoop (b : board) (c : color) (rights : castlingRights)
  (enPassantSquare : option square) (depth' : nat) (isMaximizing : bool)
  (moves : list move) (bestMove : move) (bestValue : num) : exn move :=
  match moves with
  | [] => Ret bestMove
  | m :: rest =>
      score <- minimaxSearch b c rights enPassantSquare depth' (negb isMaximizing) ;;
      if isMaximizing && num_ltb bestValue score
      then rootLoop b c rights enPassantSquare depth' isMaximizing rest m score
      else if negb isMaximizing && num_ltb score bestValue
      then rootLoop b c rights enPassantSquare depth' isMaximizing rest m score
      else rootLoop b c rights enPassantSquare depth' isMaximizing rest bestMove bestValue
  end.

(** [ChessAI.minimax]: [null] is [None]. *)
Definition minimax (b : board) (c : color) (rights : castlingRights)
  (enPassantSquare : option square) (depth : nat) (isMaximizing : bool)
  : exn (option move) :=
  match depth with
  | O => Ret None
  | S depth' =>
      moves <- getAllLegalMoves b c rights enPassantSquare ;;
      match moves with
      | [] => Ret None
      | first :: _ =>
          best <- rootLoop b c rights enPassantSquare depth' isMaximizing moves first
                    (if isMaximizing then NegInf else PosInf) ;;
          Ret (Some best)
      end
  end.

(** The loop of the root [minimaxAlphaBeta]. *)
Fixpoint rootLoopAlphaBeta (b : board) (c : color) (rights : castlingRights)
  (enPassantSquare : option square) (depth' : nat) (isMaximizing : bool)
  (moves : list move) (bestMove : move) (bestValue alpha beta : num) : exn move :=
  match moves with
  | [] => Ret bestMove
  | m :: rest =>
      score <- minimaxSearchAlphaBeta b c rights enPassantSquare depth' alpha beta
                 (negb isMaximizing) ;;
      let improved :=
        if isMaximizing then num_ltb bestValue score else num_ltb score bestValue in
      let bestValue' := if improved then score else bestValue in
      let bestMove' := if improved then m else bestMove in
      let alpha' := if isMaximizing then num_max alpha bestValue' else alpha in
      let beta' := if isMaximizing then beta else num_min beta bestValue' in
      if num_leb beta' alpha' then Ret bestMove'
      else rootLoopAlphaBeta b c rights enPassantSquare depth' isMaximizing rest
             bestMove' bestValue' alpha' beta'
  end.

(** [ChessAI.minimaxAlphaBeta] *)
Definition minimaxAlphaBeta (b : board) (c : color) (rights : castlingRights)
  (enPassantSquare : option square) (depth : nat) (alpha beta : num)
  (isMaximizing : bool) : exn (option move) :=
  match depth with
  | O => Ret None
  | S depth' =>
      moves <- getAllLegalMoves b c rights enPassantSquare ;;
      match moves with
      | [] => Ret None
      | first :: _ =>
          best <- rootLoopAlphaBeta b c rights enPassantSquare depth' isMaximizing
                    moves first (if isMaximizing then NegInf else PosInf) alpha beta ;;
          Ret (Some best)
      end
  end.

End Search.

(** [PIECE_VALUE] *)
Definition pieceValue (t : ptype) : Z :=
  match t with
  | Pawn => 1
  | Knight => 3
  | Bishop => 3
  | Rook => 5
  | Queen => 9
  | King => 0
  end.

(** The material term of [evaluateBoard] alone (white values minus black
    values, negated for black): an evaluator for the examples.  The full
    evaluator adds its king-safety, centre and mobility terms in floating
    point. *)
Definition materialBalance (b : board) (c : color) : num :=
  let total (side : color) :=
    fold_right (fun p acc => pieceValue (kind (pc p)) + acc) 0
      (getPiecesOfColor b side) in
  let score := total White - total Black in
  numZ (if color_eqb c Black then - score else score).

(** * Specification *)

(** ** Predicates of the statements *)

(** Every right set in [r'] is set in [r]. *)
Definition rightsLe (r' r : castlingRights) : Prop :=
  (whiteKingside r' = true -> whiteKingside r = true)
  /\ (whiteQueenside r' = true -> whiteQueenside r = true)
  /\ (blackKingside r' = true -> blackKingside r = true)
  /\ (blackQueenside r' = true -> blackQueenside r = true).

Definition validSquare (s : square) : bool := isValidCoord (fst s) (snd s).

Definition allValid (l : list square) : Prop :=
  forall s, In s l -> validSquare s = true.

(** An en-passant target is none or a square of the board. *)
Definition validTarget (enPassantSquare : option square) : bool :=
  match enPassantSquare with
  | None => true
  | Some ep => isValidCoord (fst ep) (snd ep)
  end.

(** No cell of the board holds the king of the colour. *)
Definition noKing (b : board) (c : color) : Prop :=
  forall row col, isValidCoord row col = true -> b row col <> Some (mkPiece King c).

(** No read of the board finds the king of the colour. *)
Definition noKingAt (b : board) (c : color) : Prop :=
  forall row col, cellAt b row col <> Some (mkPiece King c).

(** The search can play the move: [simulateMove] returns, with an
    en-passant target that is none or a board square. *)
Definition simulable (b : board) (rights : castlingRights)
  (enPassantSquare : option square) (m : move) : Prop :=
  exists s, simulateMove b m rights enPassantSquare = Ret s
            /\ validTarget (newEnPassant s) = true.

(** ** What the simulation and the filter compute on board rows *)

(** The board [simulatedBoard] builds when both rows are on the board. *)
Definition movedBoard (b : board) (fromRow fromCol toRow toCol : Z)
  (enPassantSquare : option square) : board :=
  let x := cellAt b fromRow fromCol in
  let tb :=
    if isType Pawn x && isEnPassantTarget enPassantSquare toRow toCol
    then setCell (setCell (setCell (copyBoard b) toRow toCol x) fromRow fromCol None)
           fromRow toCol None
    else setCell (setCell (copyBoard b) toRow toCol x) fromRow fromCol None in
  relocateRook tb x fromRow fromCol toCol.

(** What [getEnPassantMoves] returns when it returns. *)
Definition enPassantCandidates (b : board) (row col : Z) (c : color)
  (enPassantSquare : option square) : list square :=
  match getEnPassantMoves b row col c enPassantSquare with
  | Ret l => l
  | Throw => []
  end.

(** The destinations [getLegalMoves] hands to its filter once it has read
    the piece [p] of the mover's colour: the pseudo-legal moves, then the
    castling moves of a king, then the en-passant move of a pawn. *)
Definition candidateMoves (b : board) (row col : Z) (rights : castlingRights)
  (enPassantSquare : option square) (c : color) (p : piece) : list square :=
  match kind p with
  | King => movesOfPiece b row col p ++ getCastlingMoves b row col c rights
  | Pawn => movesOfPiece b row col p ++ enPassantCandidates b row col c enPassantSquare
  | _ => movesOfPiece b row col p
  end.

(** ** The attack oracle as the specification words it

    A second definition, following the sentence of the spec and not the
    code: a square is attacked when some opposing piece has it in its
    pseudo-legal destination set, a pawn's attack squares being its two
    diagonal-capture destinations whether or not they are occupied. *)

Definition pawnAttackSquares (row col : Z) (c : color) : list square :=
  let direction := if color_eqb c White then -1 else 1 in
  flat_map (fun dCol : Z =>
              if isValidCoord (row + direction) (col + dCol)
              then [(row + direction, col + dCol)] else []) [-1; 1].

Definition specAttackSet (b : board) (p : placed) : list square :=
  match kind (pc p) with
  | Pawn => pawnAttackSquares (prow p) (pcol p) (side (pc p))
  | _ => movesOfPiece b (prow p) (pcol p) (pc p)
  end.

Definition specIsSquareAttacked (b : board) (row col : Z) (c : color) : bool :=
  existsb (fun p => existsb (fun m => square_eqb m (row, col)) (specAttackSet b p))
    (getPiecesOfColor b (opponentOf c)).

(** ** The root candidates as the specification words them *)

(** The score of a root candidate: simulate the move, then search the
    resulting position one ply deeper with the roles swapped. *)
Definition candidateScore (evaluateBoard : board -> color -> num) (b : board)
  (c : color) (rights : castlingRights) (enPassantSquare : option square)
  (depth' : nat) (isMaximizing : bool) (m : move) : exn num :=
  s <- simulateMove b m rights enPassantSquare ;;
  minimaxSearch evaluateBoard (newBoard s) c (newCastling s) (newEnPassant s)
    depth' (negb isMaximizing).

(** ** The order of the scores *)

Definition num_lt (a b : num) : Prop := num_ltb a b = true.

Definition num_le (a b : num) : Prop := num_ltb b a = false.

(** How the alpha-beta score [v'] of a node relates to its minimax score
    [v] for the window from [alpha] to [beta]: equal inside the window, on
    the same side outside it. *)
Definition window (alpha beta v v' : num) : Prop :=
  (num_le v alpha -> num_le v' alpha)
  /\ (num_le beta v -> num_le beta v')
  /\ (num_lt alpha v -> num_lt v beta -> v' = v).

(** ** Positions used in the examples *)

Definition wP : cell := Some (mkPiece Pawn White).
Definition wN : cell := Some (mkPiece Knight White).
Definition wB : cell := Some (mkPiece Bishop White).
Definition wR : cell := Some (mkPiece Rook White).
Definition wQ : cell := Some (mkPiece Queen White).
Definition wK : cell := Some (mkPiece King White).
Definition bP : cell := Some (mkPiece Pawn Black).
Definition bN : cell := Some (mkPiece Knight Black).
Definition bB : cell := Some (mkPiece Bishop Black).
Definition bR : cell := Some (mkPiece Rook Black).
Definition bQ : cell := Some (mkPiece Queen Black).
Definition bK : cell := Some (mkPiece King Black).
Definition __ : cell := None.

Definition allRights : castlingRights := mkRights true true true true.
Definition noRights : castlingRights := mkRights false false false false.

(** [Board.initializeBoard] *)
Definition initializeBoard : board := boardOf
  [[bR; bN; bB; bQ; bK; bB; bN; bR];
   [bP; bP; bP; bP; bP; bP; bP; bP];
   [__; __; __; __; __; __; __; __];
   [__; __; __; __; __; __; __; __];
   [__; __; __; __; __; __; __; __];
   [__; __; __; __; __; __; __; __];
   [wP; wP; wP; wP; wP; wP; wP; wP];
   [wR; wN; wB; wQ; wK; wB; wN; wR]].

(** White pawn on e2 moved to e4, as a move of the search. *)
Definition e2e4 : move := mkMove (6, 4) (4, 4).

(** A position without a white king: a white pawn and the black king. *)
Definition kingless : board := boardOf
  [[__; __; __; __; bK; __; __; __];
   [__; __; __; __; __; __; __; __];
   [__; __; __; __; __; __; __; __];
   [__; __; __; __; __; __; __; __];
   [__; __; __; __; __; __; __; __];
   [__; __; __; __; __; __; __; __];
   [__; __; __; __; wP; __; __; __];
   [__; __; __; __; __; __; __; __]].

(** White king on d1 (row 7, column 3), white rook on h1, e1, f1 and g1
    empty. *)
Definition kingOffHome : board := boardOf
  [[__; __; __; __; bK; __; __; __];
   [__; __; __; __; __; __; __; __];
   [__; __; __; __; __; __; __; __];
   [__; __; __; __; __; __; __; __];
   [__; __; __; __; __; __; __; __];
   [__; __; __; __; __; __; __; __];
   [__; __; __; __; __; __; __; __];
   [__; __; __; wK; __; __; __; wR]].

(** White to move is checkmated on the back rank: black rook on a1, white
    king on h1 behind its pawns on g2 and h2. *)
Definition backRankMate : board := boardOf
  [[__; __; __; __; bK; __; __; __];
   [__; __; __; __; __; __; __; __];
   [__; __; __; __; __; __; __; __];
   [__; __; __; __; __; __; __; __];
   [__; __; __; __; __; __; __; __];
   [__; __; __; __; __; __; __; __];
   [__; __; __; __; __; __; wP; wP];
   [bR; __; __; __; __; __; __; wK]].

(** White to move: queen f7 and king f6 against the king on h8.  The
    queen's step to g7 is the first move generated and mates; the king's
    step to e6 leaves black without a move and not in check. *)
Definition queenAndKing : board := boardOf
  [[__; __; __; __; __; __; __; bK];
   [__; __; __; __; __; wQ; __; __];
   [__; __; __; __; __; wK; __; __];
   [__; __; __; __; __; __; __; __];
   [__; __; __; __; __; __; __; __];
   [__; __; __; __; __; __; __; __];
   [__; __; __; __; __; __; __; __];
   [__; __; __; __; __; __; __; __]].

Definition queenToG7 : move := mkMove (1, 5) (1, 6).
Definition kingToE6 : move := mkMove (2, 5) (2, 4).

(** A black pawn on e7, a black rook on a8 and a black knight on b8. *)
Definition pawnRookKnight : board := boardOf
  [[bR; bN; __; __; __; __; __; __];
   [__; __; __; __; bP; __; __; __];
   [__; __; __; __; __; __; __; __];
   [__; __; __; __; __; __; __; __];
   [__; __; __; __; __; __; __; __];
   [__; __; __; __; __; __; __; __];
   [__; __; __; __; __; __; __; __];
   [__; __; __; __; __; __; __; __]].

(** The white king on e1 attacked by a black pawn on d2. *)
Definition pawnCheck : board := boardOf
  [[__; __; __; __; bK; __; __; __];
   [__; __; __; __; __; __; __; __];
   [__; __; __; __; __; __; __; __];
   [__; __; __; __; __; __; __; __];
   [__; __; __; __; __; __; __; __];
   [__; __; __; __; __; __; __; __];
   [__; __; __; bP; __; __; __; __];
   [__; __; __; __; wK; __; __; __]].

(** * The rest of the modules

    The functions of the five sources that the definitions above do not
    use: the move classifiers of [rules.js], the [Board] object, the
    notation helpers of [utils.js], the entry point and the centre term of
    the engine, and the game controller. *)

(** ** rules.js: move classification *)

(** [isMoveLegal] *)
Definition isMoveLegal (b : board) (fromRow fromCol toRow toCol : Z) (c : color)
  (rights : castlingRights) (enPassantSquare : option square) : exn bool :=
  legalMoves <- getLegalMoves b fromRow fromCol rights enPassantSquare c ;;
  Ret (existsb (fun m : square => (fst m =? toRow) && (snd m =? toCol)) legalMoves).

(** [isPromotionMove]; the board and the origin row are not looked at. *)
Definition isPromotionMove (b : board) (fromRow toRow : Z) (x : cell) : bool :=
  if negb (isType Pawn x) then false
  else
    let white := isWhite (getPieceColor x) in
    (white && (toRow =? 0)) || (negb white && (toRow =? 7)).

(** [isCastlingMove] *)
Definition isCastlingMove (fromRow fromCol toRow toCol : Z) (x : cell) : bool :=
  if negb (isType King x) then false
  else if negb (fromRow =? toRow) then false
  else Z.abs (toCol - fromCol) =? 2.

(** [isEnPassantMove].  The destination is read without a coordinate check:
    a row off the board raises, a column off the board reads [undefined],
    which is not [null]. *)
Definition isEnPassantMove (fromRow toRow toCol : Z) (b : board) (x : cell)
  (enPassantSquare : option square) : exn bool :=
  if negb (isType Pawn x) then Ret false
  else
    match enPassantSquare with
    | None => Ret false
    | Some ep =>
        if negb (toRow =? fst ep) || negb (toCol =? snd ep) then Ret false
        else
          target <- readCell b toRow toCol ;;
          if negb (isValidCoord toRow toCol) || occupied target then Ret false
          else Ret true
    end.

(** ** board.js: the [Board] object *)

(** [Board.setPieceAt], on the board held by the object. *)
Definition setPieceAt (b : board) (row col : Z) (x : cell) : board :=
  if isValidCoord row col then setCell b row col x else b.

(** [this.lastMove]: [{ from, to, piece, captured }]. *)
Record lastMoveRecord : Type := mkLastMove {
  lastFrom : square;
  lastTo : square;
  lastPiece : cell;
  lastCaptured : cell
}.

(** A [Board] object: [boardArray] is [this.board]. *)
Record boardObject : Type := mkBoardObject {
  boardArray : board;
  lastMove : option lastMoveRecord
}.

(** [Board.movePiece]: the captured piece and the object after the call. *)
Definition movePiece (o : boardObject) (fromRow fromCol toRow toCol : Z)
  : exn (cell * boardObject) :=
  x <- getPieceAt (boardArray o) fromRow fromCol ;;
  captured <- getPieceAt (boardArray o) toRow toCol ;;
  let b1 := setPieceAt (boardArray o) toRow toCol x in
  let b2 := setPieceAt b1 fromRow fromCol None in
  Ret (captured,
       mkBoardObject b2
         (Some (mkLastMove (fromRow, fromCol) (toRow, toCol) x captured))).

(** ** utils.js: notation

    A JavaScript string is the list of its UTF-16 code units. *)

Definition jsString : Type := list Z.

(** [String.fromCharCode(n)] for an integer [n]: the code unit is [n]
    modulo 2^16. *)
Definition fromCharCode (n : Z) : jsString := [n mod 65536].

(** The digits of a decimal numeral: ['0'] is code 48. *)
Fixpoint digitCodes (d : Decimal.uint) : jsString :=
  match d with
  | Decimal.Nil => []
  | Decimal.D0 d' => 48 :: digitCodes d'
  | Decimal.D1 d' => 49 :: digitCodes d'
  | Decimal.D2 d' => 50 :: digitCodes d'
  | Decimal.D3 d' => 51 :: digitCodes d'
  | Decimal.D4 d' => 52 :: digitCodes d'
  | Decimal.D5 d' => 53 :: digitCodes d'
  | Decimal.D6 d' => 54 :: digitCodes d'
  | Decimal.D7 d' => 55 :: digitCodes d'
  | Decimal.D8 d' => 56 :: digitCodes d'
  | Decimal.D9 d' => 57 :: digitCodes d'
  end.

(** [n.toString()], and the string a number becomes when it is appended to
    a string, for an integer that prints in plain decimal (below 10^21 in
    size): the digits, after a minus sign (code 45) when negative. *)
Definition numberToString (n : Z) : jsString :=
  match Z.to_int n with
  | Decimal.Pos d => digitCodes d
  | Decimal.Neg d => 45 :: digitCodes d
  end.

(** [parseInt(s)] for a string of one code unit, or for [undefined]
    ([None]): the value of a decimal digit, [NaN] ([None]) otherwise. *)
Definition parseIntChar (s : option Z) : option Z :=
  match s with
  | Some u => if (48 <=? u) && (u <=? 57) then Some (u - 48) else None
  | None => None
  end.

(** [coordsToNotation] *)
Definition coordsToNotation (row col : Z) : jsString :=
  let file := fromCharCode (97 + col) in
  let rank := numberToString (8 - row) in
  file ++ rank.

(** [notationToCoords]: [notation.charCodeAt(0)] is [NaN] for the empty
    string and [notation[1]] is [undefined] for a string of fewer than two
    code units; a [NaN] coordinate is [None]. *)
Definition notationToCoords (notation : jsString) : option Z * option Z :=
  let file := option_map (fun u => u - 97) (nth_error notation 0) in
  let rank := option_map (fun n => 8 - n) (parseIntChar (nth_error notation 1)) in
  (rank, file).

(** ** utils.js: [getSquaresBetween] *)

(** The [while] loop of [getSquaresBetween].  [fuel] bounds the number of
    iterations; [None] is a loop that has not ended within it. *)
Fixpoint squaresLoop (fuel : nat) (r c r2 c2 dr dc : Z) (squares : list square)
  : option (list square) :=
  if negb (r =? r2) || negb (c =? c2)
  then match fuel with
       | O => None
       | S fuel' =>
           let r' := r + dr in
           let c' := c + dc in
           squaresLoop fuel' r' c' r2 c2 dr dc
             (if negb (r' =? r2) || negb (c' =? c2)
              then squares ++ [(r', c')] else squares)
       end
  else Some squares.

(** The step [x2 === x1 ? 0 : x2 > x1 ? 1 : -1]. *)
Definition stepToward (x1 x2 : Z) : Z :=
  if x2 =? x1 then 0 else if x1 <? x2 then 1 else -1.

(** [getSquaresBetween] *)
Definition getSquaresBetween (fuel : nat) (from to : square) : option (list square) :=
  let dr := stepToward (fst from) (fst to) in
  let dc := stepToward (snd from) (snd to) in
  match squaresLoop fuel (fst from) (snd from) (fst to) (snd to) dr dc [] with
  | Some squares => Some (squares ++ [to])
  | None => None
  end.

(** ** board.js: [Board.toString] *)

(** The letter of a piece code, as a code unit: upper case for white,
    lower case for black. *)
Definition pieceCode (p : piece) : Z :=
  let upper :=
    match kind p with
    | Pawn => 80
    | Knight => 78
    | Bishop => 66
    | Rook => 82
    | Queen => 81
    | King => 75
    end in
  match side p with
  | White => upper
  | Black => upper + 32
  end.

(** The inner loop of [Board.toString] over the columns of a row: the
    string so far and the count of empty squares not yet written. *)
Fixpoint toStringCols (b : board) (row : Z) (cols : list Z) (fen : jsString)
  (empty : Z) : jsString * Z :=
  match cols with
  | [] => (fen, empty)
  | col :: rest =>
      match cellAt b row col with
      | Some p =>
          let fen1 := if 0 <? empty then fen ++ numberToString empty else fen in
          toStringCols b row rest (fen1 ++ [pieceCode p]) 0
      | None => toStringCols b row rest fen (empty + 1)
      end
  end.

(** The outer loop of [Board.toString] over the rows; ['/'] is code 47. *)
Fixpoint toStringRows (b : board) (rows : list Z) (fen : jsString) : jsString :=
  match rows with
  | [] => fen
  | row :: rest =>
      let r := toStringCols b row indices fen 0 in
      let fen1 := if 0 <? snd r then fst r ++ numberToString (snd r) else fst r in
      let fen2 := if row <? 7 then fen1 ++ [47] else fen1 in
      toStringRows b rest fen2
  end.

(** [Board.toString] *)
Definition toString (o : boardObject) : jsString :=
  toStringRows (boardArray o) indices [].

(** ** ai.js: the entry point of the engine *)

(** The difficulty held by a [ChessAI]: one of the three names the code
    knows, or any other value. *)
Inductive level : Type := Easy | Medium | Hard | OtherLevel.

(** [ChessAI.getMaxDepth] *)
Definition getMaxDepth (difficulty : level) : nat :=
  match difficulty with
  | Easy => 0
  | Medium => 2
  | Hard => 4
  | OtherLevel => 2
  end.

Record chessAI : Type := mkChessAI { difficulty : level; maxDepth : nat }.

(** The constructor of [ChessAI]. *)
Definition newChessAI (d : level) : chessAI := mkChessAI d (getMaxDepth d).

(** [ChessAI.getRandomMove].  [index] is the value of
    [Math.floor(Math.random() * allMoves.length)]; an index outside the
    array reads [undefined]. *)
Definition getRandomMove (index : nat) (b : board) (c : color)
  (rights : castlingRights) (enPassantSquare : option square) : exn (option move) :=
  allMoves <- getAllLegalMoves b c rights enPassantSquare ;;
  match allMoves with
  | [] => Ret None
  | _ :: _ => Ret (nth_error allMoves index)
  end.

Section Engine.

Variable evaluateBoard : board -> color -> num.

(** [ChessAI.findBestMove] *)
Definition findBestMove (ai : chessAI) (index : nat) (b : board) (c : color)
  (rights : castlingRights) (enPassantSquare : option square) : exn (option move) :=
  match difficulty ai with
  | Easy => getRandomMove index b c rights enPassantSquare
  | Medium => minimax evaluateBoard b c rights enPassantSquare (maxDepth ai) true
  | Hard =>
      minimaxAlphaBeta evaluateBoard b c rights enPassantSquare (maxDepth ai)
        NegInf PosInf true
  | OtherLevel => getRandomMove index b c rights enPassantSquare
  end.

End Engine.

(** ** ai.js: the centre term of the evaluator *)

Definition centerSquares : list square := [(3, 3); (3, 4); (4, 3); (4, 4)].

(** The body of the loop of [evaluateCenterControl] for one square. *)
Definition centerStep (b : board) (c : color) (control : Z) (s : square) : Z :=
  match cellAt b (fst s) (snd s) with
  | Some p => if color_eqb (side p) c
              then control + pieceValue (kind p)
              else control - pieceValue (kind p)
  | None => control
  end.

(** [ChessAI.evaluateCenterControl] *)
Definition evaluateCenterControl (b : board) (c : color) : Z :=
  fold_left (centerStep b c) centerSquares 0.

(** ** game.js: the game controller

    The state of a [ChessGame] is the record of its fields.  The calls that
    only write to the page (the text and class updates of [updateUI] and
    [endGame], [renderBoard]) are left out: they read the state and do not
    change it.  The timer started for the reply of the computer is the flag
    [aiThinking]; its callback is [makeAIMove]. *)

(** [this.gameOverReason]: the four messages of [checkGameEnd] and
    [endGame]. *)
Inductive reason : Type :=
| CheckmateWins (winner : color)
| StalemateDraw
| InsufficientMaterialDraw
| GameEnded.

(** [this.promotionPending]: [{ row, col, piece }]. *)
Record pendingPromotion : Type := mkPending {
  pendingRow : Z;
  pendingCol : Z;
  pendingPiece : cell
}.

(** The fields of a [ChessGame].  [gameBoard] is [this.board], [gameRights]
    is [this.castlingRights] and [gameEnPassant] is [this.enPassantSquare];
    [capturedWhite] and [capturedBlack] are the two lists of
    [this.capturedPieces]; [this.ai] is the [ChessAI] of [aiDifficulty]. *)
Record chessGame : Type := mkChessGame {
  gameBoard : boardObject;
  currentTurn : color;
  selectedSquare : option square;
  aiDifficulty : level;
  gameRights : castlingRights;
  gameEnPassant : option square;
  moveHistory : list jsString;
  capturedWhite : list (option ptype);
  capturedBlack : list (option ptype);
  gameOver : bool;
  gameOverReason : option reason;
  promotionPending : option pendingPromotion;
  aiThinking : bool
}.

(** The state the constructor builds (with the difficulty [Easy]) and
    [reset] rebuilds: the starting position, white to move. *)
Definition newGame (d : level) : chessGame :=
  mkChessGame (mkBoardObject initializeBoard None) White None d
    allRights None [] [] [] false None None false.

(** [this.capturedPieces[...].push(getPieceType(x))]: the list of the
    colour of the piece, the black one for [null]. *)
Definition pushCaptured (g : chessGame) (x : cell) : chessGame :=
  if isWhite (getPieceColor x)
  then mkChessGame (gameBoard g) (currentTurn g) (selectedSquare g) (aiDifficulty g)
         (gameRights g) (gameEnPassant g) (moveHistory g)
         (capturedWhite g ++ [getPieceType x]) (capturedBlack g)
         (gameOver g) (gameOverReason g) (promotionPending g) (aiThinking g)
  else mkChessGame (gameBoard g) (currentTurn g) (selectedSquare g) (aiDifficulty g)
         (gameRights g) (gameEnPassant g) (moveHistory g)
         (capturedWhite g) (capturedBlack g ++ [getPieceType x])
         (gameOver g) (gameOverReason g) (promotionPending g) (aiThinking g).

(** The game with another [Board] object. *)
Definition withBoard (g : chessGame) (o : boardObject) : chessGame :=
  mkChessGame o (currentTurn g) (selectedSquare g) (aiDifficulty g)
    (gameRights g) (gameEnPassant g) (moveHistory g)
    (capturedWhite g) (capturedBlack g)
    (gameOver g) (gameOverReason g) (promotionPending g) (aiThinking g).

(** [this.board.getPieceAt(row, col)] *)
Definition boardGet (g : chessGame) (row col : Z) : exn cell :=
  getPieceAt (boardArray (gameBoard g)) row col.

(** [this.board.setPieceAt(row, col, x)] *)
Definition boardSet (g : chessGame) (row col : Z) (x : cell) : chessGame :=
  withBoard g (mkBoardObject (setPieceAt (boardArray (gameBoard g)) row col x)
                 (lastMove (gameBoard g))).

(** [endGame] *)
Definition endGame (g : chessGame) (r : reason) : chessGame :=
  mkChessGame (gameBoard g) (currentTurn g) (selectedSquare g) (aiDifficulty g)
    (gameRights g) (gameEnPassant g) (moveHistory g)
    (capturedWhite g) (capturedBlack g)
    true (Some r) (promotionPending g) false.

(** [checkGameEnd] *)
Definition checkGameEnd (g : chessGame) : exn chessGame :=
  let opponent := opponentOf (currentTurn g) in
  let b := boardArray (gameBoard g) in
  mate <- isCheckmate b (currentTurn g) (gameRights g) (gameEnPassant g) ;;
  if mate then Ret (endGame g (CheckmateWins opponent))
  else
    stale <- isStalemate b (currentTurn g) (gameRights g) (gameEnPassant g) ;;
    if stale then Ret (endGame g StalemateDraw)
    else if isInsufficientMaterial b then Ret (endGame g InsufficientMaterialDraw)
    else Ret g.

(** [updateUI]: the check indicator is computed, then [checkGameEnd]. *)
Definition updateUI (g : chessGame) : exn chessGame :=
  _ <- isInCheck (boardArray (gameBoard g)) (currentTurn g) ;;
  checkGameEnd g.

(** [render]: the legal moves of the selected square and the check
    indicator are computed for the page. *)
Definition render (g : chessGame) : exn chessGame :=
  _ <- match selectedSquare g with
       | Some s =>
           getLegalMoves (boardArray (gameBoard g)) (fst s) (snd s)
             (gameRights g) (gameEnPassant g) (currentTurn g)
       | None => Ret []
       end ;;
  _ <- isInCheck (boardArray (gameBoard g)) (currentTurn g) ;;
  Ret g.

(** The rook's part of a castling move in [makeMove]. *)
Definition castleRook (g : chessGame) (fromRow fromCol toCol : Z) : exn chessGame :=
  if fromCol <? toCol
  then
    rook <- boardGet g fromRow 7 ;;
    Ret (boardSet (boardSet g fromRow 5 rook) fromRow 7 None)
  else
    rook <- boardGet g fromRow 0 ;;
    Ret (boardSet (boardSet g fromRow 3 rook) fromRow 0 None).

(** The rights, the target and the history entry [makeMove] assigns once
    the board is updated. *)
Definition recordMove (g : chessGame) (rights : castlingRights)
  (enPassant : option square) (notation : jsString) : chessGame :=
  mkChessGame (gameBoard g) (currentTurn g) (selectedSquare g) (aiDifficulty g)
    rights enPassant (moveHistory g ++ [notation])
    (capturedWhite g) (capturedBlack g)
    (gameOver g) (gameOverReason g) (promotionPending g) (aiThinking g).

(** [this.promotionPending = p; this.selectedSquare = null] *)
Definition awaitPromotion (g : chessGame) (p : pendingPromotion) : chessGame :=
  mkChessGame (gameBoard g) (currentTurn g) None (aiDifficulty g)
    (gameRights g) (gameEnPassant g) (moveHistory g)
    (capturedWhite g) (capturedBlack g)
    (gameOver g) (gameOverReason g) (Some p) (aiThinking g).

(** The turn passes to the other colour and the selection is dropped. *)
Definition switchTurn (g : chessGame) : chessGame :=
  mkChessGame (gameBoard g) (opponentOf (currentTurn g)) None (aiDifficulty g)
    (gameRights g) (gameEnPassant g) (moveHistory g)
    (capturedWhite g) (capturedBlack g)
    (gameOver g) (gameOverReason g) (promotionPending g) (aiThinking g).

(** [this.aiThinking = true; setTimeout(...)] when the computer is to
    move and the game is not over. *)
Definition scheduleReply (g : chessGame) : chessGame :=
  if color_eqb (currentTurn g) Black && negb (gameOver g)
  then mkChessGame (gameBoard g) (currentTurn g) (selectedSquare g) (aiDifficulty g)
         (gameRights g) (gameEnPassant g) (moveHistory g)
         (capturedWhite g) (capturedBlack g)
         (gameOver g) (gameOverReason g) (promotionPending g) true
  else g.

(** [makeMove]; ['-'] is code 45. *)
Definition makeMove (g : chessGame) (fromRow fromCol toRow toCol : Z) : exn chessGame :=
  let b := boardArray (gameBoard g) in
  x <- boardGet g fromRow fromCol ;;
  captured <- boardGet g toRow toCol ;;
  let isPromotion := isPromotionMove b fromRow toRow x in
  enPassant <- isEnPassantMove fromRow toRow toCol b x (gameEnPassant g) ;;
  g1 <- (if enPassant
         then
           let captureRow := fromRow in
           capturedEP <- boardGet g captureRow toCol ;;
           Ret (boardSet (pushCaptured g capturedEP) captureRow toCol None)
         else if occupied captured then Ret (pushCaptured g captured)
         else Ret g) ;;
  g2 <- (if isCastlingMove fromRow fromCol toRow toCol x
         then castleRook g1 fromRow fromCol toCol else Ret g1) ;;
  moved <- movePiece (gameBoard g2) fromRow fromCol toRow toCol ;;
  let g3 := withBoard g2 (snd moved) in
  let rights :=
    capturedRookRights (updateCastlingRights (gameRights g3) fromRow fromCol x)
      captured toRow toCol in
  let g4 :=
    recordMove g3 rights (updateEnPassantSquare fromRow toRow toCol x)
      (coordsToNotation fromRow fromCol ++ [45] ++ coordsToNotation toRow toCol) in
  if isPromotion
  then
    g5 <- updateUI (awaitPromotion g4 (mkPending toRow toCol x)) ;;
    render g5
  else
    g5 <- updateUI (switchTurn g4) ;;
    g6 <- render g5 ;;
    Ret (scheduleReply g6).

(** [this.selectedSquare = s] *)
Definition select (g : chessGame) (s : square) : chessGame :=
  mkChessGame (gameBoard g) (currentTurn g) (Some s) (aiDifficulty g)
    (gameRights g) (gameEnPassant g) (moveHistory g)
    (capturedWhite g) (capturedBlack g)
    (gameOver g) (gameOverReason g) (promotionPending g) (aiThinking g).

(** [this.selectedSquare = null] *)
Definition deselect (g : chessGame) : chessGame :=
  mkChessGame (gameBoard g) (currentTurn g) None (aiDifficulty g)
    (gameRights g) (gameEnPassant g) (moveHistory g)
    (capturedWhite g) (capturedBlack g)
    (gameOver g) (gameOverReason g) (promotionPending g) (aiThinking g).

Definition occupiedPending (p : option pendingPromotion) : bool :=
  match p with Some _ => true | None => false end.

(** [tryMove] *)
Definition tryMove (g : chessGame) (fromRow fromCol toRow toCol : Z) : exn chessGame :=
  x <- boardGet g fromRow fromCol ;;
  if negb (occupied x) then render (deselect g)
  else
    legal <- isMoveLegal (boardArray (gameBoard g)) fromRow fromCol toRow toCol
               (currentTurn g) (gameRights g) (gameEnPassant g) ;;
    if negb legal then render (deselect g)
    else makeMove g fromRow fromCol toRow toCol.

(** [handleSquareClick] *)
Definition handleSquareClick (g : chessGame) (row col : Z) : exn chessGame :=
  if gameOver g || aiThinking g || occupiedPending (promotionPending g) then Ret g
  else if color_eqb (currentTurn g) Black then Ret g
  else
    x <- boardGet g row col ;;
    if friendly x (currentTurn g) then render (select g (row, col))
    else
      match selectedSquare g with
      | Some s => tryMove g (fst s) (snd s) row col
      | None => render g
      end.

(** [this.aiThinking = false] *)
Definition stopThinking (g : chessGame) : chessGame :=
  mkChessGame (gameBoard g) (currentTurn g) (selectedSquare g) (aiDifficulty g)
    (gameRights g) (gameEnPassant g) (moveHistory g)
    (capturedWhite g) (capturedBlack g)
    (gameOver g) (gameOverReason g) (promotionPending g) false.

Section Reply.

Variable evaluateBoard : board -> color -> num.

(** [makeAIMove]; [this.ai] is the [ChessAI] built for [this.aiDifficulty]
    by the constructor and by [setDifficulty]. *)
Definition makeAIMove (index : nat) (g : chessGame) : exn chessGame :=
  move <- findBestMove evaluateBoard (newChessAI (aiDifficulty g)) index
            (boardArray (gameBoard g)) Black (gameRights g) (gameEnPassant g) ;;
  match move with
  | None => Ret (endGame g GameEnded)
  | Some m =>
      g' <- makeMove g (fst (moveFrom m)) (snd (moveFrom m))
              (fst (moveTo m)) (snd (moveTo m)) ;;
      Ret (stopThinking g')
  end.

End Reply.

(** * Predicates of the further properties *)

(** ** Destinations of the generators *)

Definition pawnDirection (c : color) : Z := if color_eqb c White then -1 else 1.

Definition pawnStartRow (c : color) : Z := if color_eqb c White then 6 else 1.

Definition emptyAt (b : board) (s : square) : Prop := cellAt b (fst s) (snd s) = None.

Definition notOwn (b : board) (c : color) (s : square) : Prop :=
  friendly (cellAt b (fst s) (snd s)) c = false.

(** The square [j] steps from the origin in a direction. *)
Definition along (row col : Z) (d : Z * Z) (j : Z) : square :=
  (row + fst d * j, col + snd d * j).

(** A sliding destination: a board square not held by the mover, [j] steps
    away (1 to 7) in one of the directions, every square before it empty. *)
Definition slides (b : board) (row col : Z) (c : color) (directions : list (Z * Z))
  (s : square) : Prop :=
  exists d j,
    In d directions /\ 1 <= j <= 7 /\ s = along row col d j
    /\ validSquare s = true /\ notOwn b c s
    /\ forall i, 1 <= i < j -> emptyAt b (along row col d i).

(** A pawn destination: one row ahead on an empty square, two rows ahead
    from the start row over two empty squares, or one row ahead on a
    neighbouring column on a piece of the other colour. *)
Definition pawnStep (b : board) (row col : Z) (c : color) (s : square) : Prop :=
  (s = (row + pawnDirection c, col) /\ validSquare s = true /\ emptyAt b s)
  \/ (s = (row + 2 * pawnDirection c, col) /\ row = pawnStartRow c
      /\ isValidCoord (row + pawnDirection c) col = true
      /\ emptyAt b (row + pawnDirection c, col) /\ emptyAt b s)
  \/ (fst s = row + pawnDirection c /\ (snd s = col - 1 \/ snd s = col + 1)
      /\ validSquare s = true
      /\ exists t, cellAt b (fst s) (snd s) = Some t /\ side t <> c).

(** ** Positions without a move, legal moves, scores *)

(** No square of a board row gives the colour a legal move. *)
Definition noMoveAnywhere (b : board) (c : color) (rights : castlingRights)
  (enPassantSquare : option square) : Prop :=
  forall row col,
    onBoard row = true -> getLegalMoves b row col rights enPassantSquare c = Ret [].

(** The move is one [isMoveLegal] accepts. *)
Definition legalMove (b : board) (c : color) (rights : castlingRights)
  (enPassantSquare : option square) (m : move) : Prop :=
  isMoveLegal b (fst (moveFrom m)) (snd (moveFrom m)) (fst (moveTo m)) (snd (moveTo m))
    c rights enPassantSquare = Ret true.

(** A score the search can return: one of its three constants, or the
    static evaluation of some board for the searching colour. *)
Definition leafScore (evaluateBoard : board -> color -> num) (c : color) (v : num)
  : Prop :=
  v = numZ 10000 \/ v = numZ (-10000) \/ v = numZ 0
  \/ exists b, v = evaluateBoard b c.

(** A pawn, a rook or a queen. *)
Definition majorOrPawn (t : ptype) : bool :=
  match t with
  | Pawn | Rook | Queen => true
  | _ => false
  end.

(** ** Reading a board string back *)

(** A digit 1..8 stands for that many empty squares, a piece letter for
    its piece, any other code unit for nothing. *)
Definition pieceOfCode (u : Z) : option piece :=
  find (fun p => pieceCode p =? u)
    [mkPiece Pawn White; mkPiece Knight White; mkPiece Bishop White;
     mkPiece Rook White; mkPiece Queen White; mkPiece King White;
     mkPiece Pawn Black; mkPiece Knight Black; mkPiece Bishop Black;
     mkPiece Rook Black; mkPiece Queen Black; mkPiece King Black].

Definition squaresOfUnit (u : Z) : list cell :=
  if (49 <=? u) && (u <=? 56) then repeat None (Z.to_nat (u - 48))
  else match pieceOfCode u with
       | Some p => [Some p]
       | None => []
       end.

Definition squaresOfString (s : jsString) : list cell := flat_map squaresOfUnit s.

(** ** Squares on a line *)

(** Two squares on one row, one column or one diagonal. *)
Definition aligned (from to : square) : Prop :=
  fst to = fst from \/ snd to = snd from
  \/ Z.abs (fst to - fst from) = Z.abs (snd to - snd from).

(** The number of steps from one square to the other. *)
Definition distance (from to : square) : nat :=
  Z.to_nat (Z.max (Z.abs (fst to - fst from)) (Z.abs (snd to - snd from))).

(** The squares 1, ..., [n] steps from a square in a direction. *)
Definition stepsFrom (from : square) (dr dc : Z) (n : nat) : list square :=
  map (fun i => (fst from + dr * Z.of_nat i, snd from + dc * Z.of_nat i)) (seq 1 n).

(** ** Positions of the game *)

(** The en-passant target of a position with [c] to move is consistent: it
    is an empty board square, and the pawn that made the double push stands
    right behind it. *)
Definition enPassantConsistent (b : board) (c : color) (enPassantSquare : option square)
  : Prop :=
  match enPassantSquare with
  | None => True
  | Some ep =>
      isValidCoord (fst ep) (snd ep) = true
      /\ cellAt b (fst ep) (snd ep) = None
      /\ cellAt b (fst ep - pawnDirection c) (snd ep)
         = Some (mkPiece Pawn (opponentOf c))
  end.

(** The fields of the game that the rules read and write. *)
Definition position (g : chessGame)
  : boardObject * color * castlingRights * option square :=
  (gameBoard g, currentTurn g, gameRights g, gameEnPassant g).

(** The board [makeMove] leaves, as its writes build it; [enPassant] is the
    answer of [isEnPassantMove]. *)
Definition playedBoard (b : board) (fromRow fromCol toRow toCol : Z)
  (enPassant : bool) : board :=
  let x := cellAt b fromRow fromCol in
  let b1 := if enPassant then setPieceAt b fromRow toCol None else b in
  let b2 :=
    if isCastlingMove fromRow fromCol toRow toCol x
    then if fromCol <? toCol
         then setPieceAt (setPieceAt b1 fromRow 5 (cellAt b1 fromRow 7)) fromRow 7 None
         else setPieceAt (setPieceAt b1 fromRow 3 (cellAt b1 fromRow 0)) fromRow 0 None
    else b1 in
  setPieceAt (setPieceAt b2 toRow toCol (cellAt b2 fromRow fromCol)) fromRow fromCol None.

(** Two boards with the same cells. *)
Definition sameCells (b b' : board) : Prop :=
  forall r k, cellAt b r k = cellAt b' r k.

(** ** Further positions used in the examples *)

(** After 1. e4: the white pawn stands on e4 and black is to move with the
    en-passant target e3; a black pawn has been put on d4, beside it. *)
Definition afterE4 : board := boardOf
  [[bR; bN; bB; bQ; bK; bB; bN; bR];
   [bP; bP; bP; __; bP; bP; bP; bP];
   [__; __; __; __; __; __; __; __];
   [__; __; __; __; __; __; __; __];
   [__; __; __; bP; wP; __; __; __];
   [__; __; __; __; __; __; __; __];
   [wP; wP; wP; wP; __; wP; wP; wP];
   [wR; wN; wB; wQ; wK; wB; wN; wR]].

(** The game in that position, the computer to move. *)
Definition gameAfterE4 : chessGame :=
  mkChessGame (mkBoardObject afterE4 None) Black None Easy
    allRights (Some (5, 4)) [] [] [] false None None true.

(** * Properties *)

(** ** Basic facts *)

Lemma bind_Ret_inv {A B} (m : exn A) (k : A -> exn B) (b : B) :
  bind m k = Ret b -> exists a, m = Ret a /\ k a = Ret b.
Proof.
  destruct m as [a|]; simpl; intros H.
  - exists a. split; [reflexivity | exact H].
  - discriminate H.
Qed.

Lemma color_eqb_eq a b : color_eqb a b = true <-> a = b.
Proof. destruct a, b; simpl; split; congruence. Qed.

Lemma color_eqb_refl a : color_eqb a a = true.
Proof. destruct a; reflexivity. Qed.

Lemma ptype_eqb_eq a b : ptype_eqb a b = true <-> a = b.
Proof. destruct a, b; simpl; split; congruence. Qed.

Lemma piece_eqb_eq p q : piece_eqb p q = true <-> p = q.
Proof.
  destruct p as [k s], q as [k' s']; unfold piece_eqb; simpl.
  rewrite andb_true_iff, ptype_eqb_eq, color_eqb_eq.
  split; [intros [-> ->]; reflexivity | intros H; inversion H; auto].
Qed.

Lemma cell_eqb_eq x y : cell_eqb x y = true <-> x = y.
Proof.
  destruct x as [p|], y as [q|]; simpl; try (split; congruence).
  rewrite piece_eqb_eq. split; congruence.
Qed.

Lemma square_eqb_eq s t : square_eqb s t = true <-> s = t.
Proof.
  destruct s as [a b], t as [c d]; unfold square_eqb; simpl.
  rewrite andb_true_iff, !Z.eqb_eq. split; [intros [-> ->] | intros H; inversion H]; auto.
Qed.


Lemma onBoard_spec i : onBoard i = true <-> 0 <= i < 8.
Proof. unfold onBoard. rewrite andb_true_iff, Z.leb_le, Z.ltb_lt. tauto. Qed.

Lemma isValidCoord_spec r c :
  isValidCoord r c = true <-> (0 <= r < 8 /\ 0 <= c < 8).
Proof.
  unfold isValidCoord. rewrite !andb_true_iff, !Z.leb_le, !Z.ltb_lt. tauto.
Qed.

Lemma isValidCoord_onBoard r c :
  isValidCoord r c = onBoard r && onBoard c.
Proof. unfold isValidCoord, onBoard. rewrite !andb_assoc. reflexivity. Qed.

Lemma readCell_onBoard b r c :
  onBoard r = true -> readCell b r c = Ret (cellAt b r c).
Proof. unfold readCell. intros ->. reflexivity. Qed.

Lemma readCell_Ret b r c x :
  readCell b r c = Ret x -> onBoard r = true /\ x = cellAt b r c.
Proof.
  unfold readCell. destruct (onBoard r); intros H; [|discriminate].
  inversion H. auto.
Qed.

Lemma writeCell_Ret b r c v b' :
  writeCell b r c v = Ret b' -> onBoard r = true /\ b' = setCell b r c v.
Proof.
  unfold writeCell. destruct (onBoard r); intros H; [|discriminate].
  inversion H. auto.
Qed.

(** ** State mutators *)

Lemma rightsLe_refl r : rightsLe r r.
Proof. unfold rightsLe. tauto. Qed.

Lemma rightsLe_trans r1 r2 r3 : rightsLe r1 r2 -> rightsLe r2 r3 -> rightsLe r1 r3.
Proof. unfold rightsLe. tauto. Qed.

Lemma rightsLe_clear r :
  rightsLe (clearWhiteKingside r) r /\ rightsLe (clearWhiteQueenside r) r
  /\ rightsLe (clearBlackKingside r) r /\ rightsLe (clearBlackQueenside r) r.
Proof.
  unfold rightsLe. destruct r as [wk wq bk bq]. cbn.
  repeat match goal with |- _ /\ _ => split end; intros H;
    first [exact H | discriminate H].
Qed.

Lemma rightsLe_if (t : bool) r1 r2 r :
  rightsLe r1 r -> rightsLe r2 r -> rightsLe (if t then r1 else r2) r.
Proof. destruct t; auto. Qed.

Ltac rights_le :=
  repeat first
    [ assumption
    | apply rightsLe_refl
    | apply rightsLe_if
    | eapply rightsLe_trans; [apply rightsLe_clear|] ].

Lemma updateCastlingRights_le rights fromRow fromCol x :
  rightsLe (updateCastlingRights rights fromRow fromCol x) rights.
Proof. unfold updateCastlingRights. cbv zeta. rights_le. Qed.

Lemma capturedRookRights_le r x toRow toCol :
  rightsLe (capturedRookRights r x toRow toCol) r.
Proof. unfold capturedRookRights. cbv zeta. rights_le. Qed.

Lemma simulateMove_newCastling b m rights ep s :
  simulateMove b m rights ep = Ret s ->
  exists x y,
    newCastling s =
      capturedRookRights
        (updateCastlingRights rights (fst (moveFrom m)) (snd (moveFrom m)) x)
        y (fst (moveTo m)) (snd (moveTo m)).
Proof.
  unfold simulateMove. intros H.
  apply bind_Ret_inv in H. destruct H as [sim [_ H]].
  apply bind_Ret_inv in H. destruct H as [y [_ H]].
  inversion H. simpl. eauto.
Qed.

(** C7.  Rights monotonicity: after [updateCastlingRights], and after the
    search's [simulateMove] with its captured-rook adjustment, each of the
    four rights that is set was already set before the move; a right never
    goes from false to true. *)
Theorem castling_rights_never_regained :
  (forall rights fromRow fromCol x,
      rightsLe (updateCastlingRights rights fromRow fromCol x) rights)
  /\ (forall b m rights ep s,
         simulateMove b m rights ep = Ret s -> rightsLe (newCastling s) rights).
Proof.
  split.
  - apply updateCastlingRights_le.
  - intros b m rights ep s H.
    destruct (simulateMove_newCastling _ _ _ _ _ H) as [x [y ->]].
    eapply rightsLe_trans; [apply capturedRookRights_le | apply updateCastlingRights_le].
Qed.

(** The second half of C7 at a move of the initial position: the simulation
    returns, and its rights are below the rights it was given. *)
Lemma castling_rights_never_regained_witness :
  exists s, simulateMove initializeBoard e2e4 allRights None = Ret s
            /\ rightsLe (newCastling s) allRights.
Proof.
  eexists. split.
  - reflexivity.
  - exact (proj2 castling_rights_never_regained initializeBoard e2e4 allRights None _
             eq_refl).
Defined.

(** C8.  [updateEnPassantSquare] returns a square exactly when the moved
    piece is a pawn and the rows differ by two; the square is then the
    skipped one, whose row is the exact half of [fromRow + toRow] at the
    destination column; in every other case it returns none. *)
Theorem updateEnPassantSquare_double_push fromRow toRow toCol x :
  (updateEnPassantSquare fromRow toRow toCol x = Some ((fromRow + toRow) / 2, toCol)
   <-> (isType Pawn x = true /\ Z.abs (toRow - fromRow) = 2))
  /\ (updateEnPassantSquare fromRow toRow toCol x = None
      <-> ~ (isType Pawn x = true /\ Z.abs (toRow - fromRow) = 2))
  /\ (forall s, updateEnPassantSquare fromRow toRow toCol x = Some s ->
                s = ((fromRow + toRow) / 2, toCol)
                /\ 2 * fst s = fromRow + toRow).
Proof.
  assert (Half : Z.abs (toRow - fromRow) = 2 ->
                 2 * ((fromRow + toRow) / 2) = fromRow + toRow).
  { intros E.
    assert (fromRow + toRow = (fromRow + 1) * 2 \/ fromRow + toRow = (fromRow - 1) * 2)
      as [-> | ->] by lia; rewrite Z.div_mul; lia. }
  unfold updateEnPassantSquare.
  destruct (isType Pawn x); simpl;
    [destruct (Z.eqb_spec (Z.abs (toRow - fromRow)) 2) as [E|E]; simpl|].
  - split; [|split].
    + tauto.
    + split; [discriminate | intros N; exfalso; apply N; auto].
    + intros s Hs. inversion Hs; subst s. simpl. auto.
  - split; [|split].
    + split; [discriminate | intros [_ F]; contradiction].
    + split; [intros _ [_ F]; contradiction | reflexivity].
    + discriminate.
  - split; [|split].
    + split; [discriminate | intros [F _]; discriminate].
    + split; [intros _ [F _]; discriminate | reflexivity].
    + discriminate.
Qed.

(** ** The squares of the board *)

Lemma allSquares_valid : Forall (fun s => validSquare s = true) allSquares.
Proof. unfold allSquares; simpl. repeat constructor. Qed.

Lemma In_allSquares s : In s allSquares <-> validSquare s = true.
Proof.
  split.
  - intros H. exact (proj1 (Forall_forall _ _) allSquares_valid s H).
  - destruct s as [r c]. unfold validSquare; cbn [fst snd]. rewrite isValidCoord_spec.
    intros [Hr Hc].
    assert (R : r = 0 \/ r = 1 \/ r = 2 \/ r = 3 \/ r = 4 \/ r = 5 \/ r = 6 \/ r = 7)
      by lia.
    assert (C : c = 0 \/ c = 1 \/ c = 2 \/ c = 3 \/ c = 4 \/ c = 5 \/ c = 6 \/ c = 7)
      by lia.
    unfold allSquares. rewrite in_flat_map. exists r. split.
    + unfold indices. repeat (destruct R as [-> | R]; [simpl; tauto|]).
      subst r. simpl. tauto.
    + apply in_map. unfold indices. repeat (destruct C as [-> | C]; [simpl; tauto|]).
      subst c. simpl. tauto.
Qed.

Lemma In_getPiecesOfColor b c p :
  In p (getPiecesOfColor b c) <->
  (isValidCoord (prow p) (pcol p) = true
   /\ cellAt b (prow p) (pcol p) = Some (pc p) /\ side (pc p) = c).
Proof.
  unfold getPiecesOfColor. rewrite in_flat_map. split.
  - intros [s [Hs Hp]]. apply In_allSquares in Hs. unfold validSquare in Hs.
    destruct (cellAt b (fst s) (snd s)) as [q|] eqn:E; [|contradiction].
    destruct (color_eqb (side q) c) eqn:Ec; [|contradiction].
    destruct Hp as [<-|[]]. simpl. apply color_eqb_eq in Ec. auto.
  - intros [Hv [Hc Hs]]. exists (prow p, pcol p). split.
    + apply In_allSquares. exact Hv.
    + simpl. rewrite Hc. subst c. rewrite color_eqb_refl.
      destruct p; simpl; auto.
Qed.

Lemma getPiecesOfColor_onBoard b c p :
  In p (getPiecesOfColor b c) -> onBoard (prow p) = true.
Proof.
  intros H. apply In_getPiecesOfColor in H. destruct H as [H _].
  rewrite isValidCoord_onBoard in H. apply andb_true_iff in H. tauto.
Qed.

Lemma findKing_Some b c k :
  findKing b c = Some k ->
  validSquare k = true /\ cellAt b (fst k) (snd k) = Some (mkPiece King c).
Proof.
  unfold findKing. intros H. apply find_some in H. destruct H as [Hin Hc].
  split; [apply In_allSquares; exact Hin | apply cell_eqb_eq; exact Hc].
Qed.

Lemma findKing_None b c :
  findKing b c = None <->
  (forall r k, isValidCoord r k = true -> cellAt b r k <> Some (mkPiece King c)).
Proof.
  unfold findKing. split.
  - intros H r k Hv E.
    assert (Hin : In (r, k) allSquares) by (apply In_allSquares; exact Hv).
    pose proof (find_none _ _ H _ Hin) as F. simpl in F.
    rewrite E in F. rewrite (proj2 (cell_eqb_eq _ _) eq_refl) in F. discriminate.
  - intros H.
    destruct (find _ allSquares) as [k|] eqn:E; [|reflexivity].
    apply find_some in E. destruct E as [Hin Hc].
    apply In_allSquares in Hin. apply cell_eqb_eq in Hc.
    exfalso. exact (H _ _ Hin Hc).
Qed.

(** ** The attack oracle returns *)

Lemma attackedBy_returns b pieces row col :
  (forall p, In p pieces -> onBoard (prow p) = true) ->
  attackedBy b pieces row col =
    Ret (existsb (fun p =>
                    existsb (fun m => square_eqb m (row, col))
                      (rawMoves b (prow p) (pcol p) (Some (kind (pc p)))
                         (getPieceColor (cellAt b (prow p) (pcol p)))))
           pieces).
Proof.
  induction pieces as [|p rest IH]; intros H.
  - reflexivity.
  - cbn [attackedBy existsb]. unfold generatePieceMoves.
    rewrite readCell_onBoard by (apply H; left; reflexivity).
    cbn [bind getPieceType].
    match goal with
    | |- context [existsb ?f (rawMoves ?a ?r ?k ?t ?o)] =>
        destruct (existsb f (rawMoves a r k t o))
    end; cbn [orb].
    + reflexivity.
    + apply IH. intros q Hq. apply H. right. exact Hq.
Qed.

Lemma isSquareAttacked_returns b row col c :
  isSquareAttacked b row col c =
    Ret (existsb (fun p =>
                    existsb (fun m => square_eqb m (row, col))
                      (rawMoves b (prow p) (pcol p) (Some (kind (pc p)))
                         (getPieceColor (cellAt b (prow p) (pcol p)))))
           (getPiecesOfColor b (opponentOf c))).
Proof.
  unfold isSquareAttacked. apply attackedBy_returns.
  intros p. apply getPiecesOfColor_onBoard.
Qed.

Lemma isInCheck_returns b c : exists v, isInCheck b c = Ret v.
Proof.
  unfold isInCheck. destruct (findKing b c) as [k|].
  - rewrite isSquareAttacked_returns. eauto.
  - eauto.
Qed.

(** ** Generated destinations lie on the board *)

Lemma allValid_app l1 l2 : allValid l1 -> allValid l2 -> allValid (l1 ++ l2).
Proof.
  intros H1 H2 s Hs. apply in_app_or in Hs. destruct Hs; auto.
Qed.

Lemma allValid_nil : allValid [].
Proof. intros s []. Qed.

Lemma allValid_flat_map {A} (f : A -> list square) l :
  (forall a, In a l -> allValid (f a)) -> allValid (flat_map f l).
Proof.
  intros H s Hs. apply in_flat_map in Hs. destruct Hs as [a [Ha Hs]].
  exact (H a Ha s Hs).
Qed.

Lemma getPawnMoves_valid b row col c : allValid (getPawnMoves b row col c).
Proof.
  unfold getPawnMoves. apply allValid_app.
  - destruct (isValidCoord _ col && _) eqn:E; [|apply allValid_nil].
    apply andb_true_iff in E. destruct E as [E _].
    intros s [<-|Hs]; [exact E|].
    destruct (Z.eqb_spec row (if color_eqb c White then 6 else 1)) as [R|R];
      [|destruct Hs].
    destruct (negb _); [|destruct Hs].
    destruct Hs as [<-|[]].
    unfold validSquare; cbn [fst snd].
    apply isValidCoord_spec in E. apply isValidCoord_spec.
    destruct (color_eqb c White); lia.
  - apply allValid_flat_map. intros d _.
    cbv zeta.
    destruct (isValidCoord _ _) eqn:E; [|apply allValid_nil].
    destruct (_ && _); [|apply allValid_nil].
    intros s [<-|[]]. exact E.
Qed.

Lemma stepMoves_valid b row col c offsets : allValid (stepMoves b row col c offsets).
Proof.
  unfold stepMoves. apply allValid_flat_map. intros d _. cbv zeta.
  destruct (isValidCoord _ _) eqn:E; [|apply allValid_nil].
  destruct (friendly _ _); [apply allValid_nil|].
  intros s [<-|[]]. exact E.
Qed.

Lemma ray_valid b c row col dr dc n : forall dist, allValid (ray b c row col dr dc dist n).
Proof.
  induction n as [|n IH]; intros dist; cbn [ray].
  - apply allValid_nil.
  - cbv zeta. destruct (isValidCoord _ _) eqn:E; [|apply allValid_nil].
    destruct (cellAt b _ _) as [t|].
    + destruct (color_eqb _ _); [apply allValid_nil|].
      intros s [<-|[]]. exact E.
    + intros s [<-|Hs]; [exact E | exact (IH _ s Hs)].
Qed.

Lemma slide_valid b row col c directions : allValid (slide b row col c directions).
Proof.
  unfold slide. apply allValid_flat_map. intros d _. apply ray_valid.
Qed.

Lemma movesOfPiece_valid b row col p : allValid (movesOfPiece b row col p).
Proof.
  unfold movesOfPiece.
  destruct (kind p);
    first [apply getPawnMoves_valid | apply stepMoves_valid | apply slide_valid].
Qed.

Lemma getCastlingMoves_valid b kingRow kingCol c rights :
  allValid (getCastlingMoves b kingRow kingCol c rights).
Proof.
  unfold getCastlingMoves.
  destruct (_ || _); [apply allValid_nil|]. cbv zeta.
  apply allValid_app;
    repeat match goal with
      | |- allValid (if ?x then _ else _) => destruct x
      | |- allValid [] => apply allValid_nil
      | |- allValid [_] => intros s [<-|[]]; reflexivity
      end.
Qed.

Lemma getEnPassantMoves_onBoard b row col c ep :
  onBoard row = true ->
  getEnPassantMoves b row col c ep = Ret (enPassantCandidates b row col c ep).
Proof.
  intros Hr. unfold enPassantCandidates, getEnPassantMoves.
  destruct ep as [e|]; [|reflexivity].
  rewrite readCell_onBoard by exact Hr. cbn [bind].
  destruct (negb _); [reflexivity|]. cbv zeta.
  destruct (fst e =? _); [|reflexivity].
  destruct (Z.abs _ =? 1); reflexivity.
Qed.

Lemma enPassantCandidates_target b row col c ep s :
  In s (enPassantCandidates b row col c ep) -> ep = Some s.
Proof.
  unfold enPassantCandidates, getEnPassantMoves.
  destruct ep as [e|]; [|intros []].
  destruct (readCell b row col) as [x|]; [|intros []]. cbn [bind].
  destruct (negb _); [intros []|]. cbv zeta.
  destruct (fst e =? _); [|intros []].
  destruct (Z.abs _ =? 1); [|intros []].
  intros [<-|[]]. reflexivity.
Qed.

Lemma candidateMoves_valid b row col rights ep c p :
  validTarget ep = true -> allValid (candidateMoves b row col rights ep c p).
Proof.
  intros Hep. unfold candidateMoves.
  destruct (kind p) eqn:K;
    try (apply movesOfPiece_valid);
    apply allValid_app; try (apply movesOfPiece_valid).
  - intros s Hs. apply enPassantCandidates_target in Hs. subst ep. exact Hep.
  - apply getCastlingMoves_valid.
Qed.

(** ** The simulation returns on board rows *)

Lemma simulatedBoard_onBoard b fromRow fromCol toRow toCol ep :
  onBoard fromRow = true -> onBoard toRow = true ->
  simulatedBoard b fromRow fromCol toRow toCol ep =
    Ret (cellAt b fromRow fromCol, movedBoard b fromRow fromCol toRow toCol ep).
Proof.
  intros Hf Ht. unfold simulatedBoard, movedBoard. cbv zeta.
  rewrite readCell_onBoard by exact Hf. cbn [bind].
  change (cellAt (copyBoard b) fromRow fromCol) with (cellAt b fromRow fromCol).
  unfold writeCell. rewrite Hf, Ht.
  destruct (isType Pawn _ && _); reflexivity.
Qed.

Lemma simulatedBoard_Ret b fromRow fromCol toRow toCol ep r :
  simulatedBoard b fromRow fromCol toRow toCol ep = Ret r ->
  onBoard fromRow = true /\ onBoard toRow = true.
Proof.
  unfold simulatedBoard. cbv zeta. intros H.
  apply bind_Ret_inv in H. destruct H as [x [Hx H]].
  apply readCell_Ret in Hx. destruct Hx as [Hf _]. split; [exact Hf|].
  apply bind_Ret_inv in H. destruct H as [tb [Htb _]].
  destruct (isType Pawn x && _);
    apply bind_Ret_inv in Htb; destruct Htb as [t1 [Ht1 _]];
    apply writeCell_Ret in Ht1; tauto.
Qed.

Lemma wouldLeaveKingInCheck_returns b fromRow fromCol toRow toCol c rights ep :
  onBoard fromRow = true -> onBoard toRow = true ->
  exists w, wouldLeaveKingInCheck b fromRow fromCol toRow toCol c rights ep = Ret w.
Proof.
  intros Hf Ht. unfold wouldLeaveKingInCheck.
  rewrite simulatedBoard_onBoard by assumption. cbn [bind snd].
  destruct (findKing _ c) as [k|]; [|eauto].
  rewrite isSquareAttacked_returns. eauto.
Qed.

Lemma filterE_returns {A} (f : A -> exn bool) l :
  (forall a, In a l -> exists v, f a = Ret v) ->
  exists l', filterE f l = Ret l' /\ (forall a, In a l' -> In a l).
Proof.
  induction l as [|a rest IH]; intros H; cbn [filterE].
  - exists []. split; [reflexivity | auto].
  - destruct (H a (or_introl eq_refl)) as [v ->]. cbn [bind].
    destruct IH as [tl [-> Htl]]; [intros x Hx; apply H; right; exact Hx|].
    cbn [bind]. eexists. split; [reflexivity|].
    intros x Hx. destruct v.
    + destruct Hx as [<-|Hx]; [left; reflexivity | right; auto].
    + right. auto.
Qed.

Lemma filterE_In {A} (f : A -> exn bool) l l' a :
  filterE f l = Ret l' -> In a l' -> In a l /\ f a = Ret true.
Proof.
  revert l'. induction l as [|x rest IH]; intros l' H Ha; cbn [filterE] in H.
  - inversion H; subst. destruct Ha.
  - apply bind_Ret_inv in H. destruct H as [keep [Hk H]].
    apply bind_Ret_inv in H. destruct H as [tl [Htl H]].
    inversion H; subst l'; clear H.
    destruct keep.
    + destruct Ha as [<-|Ha].
      * split; [left; reflexivity | exact Hk].
      * destruct (IH _ Htl Ha). split; [right; assumption | assumption].
    + destruct (IH _ Htl Ha). split; [right; assumption | assumption].
Qed.

Lemma filterE_none {A} (f : A -> exn bool) l :
  (forall a, In a l -> f a = Ret false) -> filterE f l = Ret [].
Proof.
  induction l as [|a rest IH]; intros H; cbn [filterE].
  - reflexivity.
  - rewrite (H a (or_introl eq_refl)). cbn [bind].
    rewrite IH by (intros x Hx; apply H; right; exact Hx). reflexivity.
Qed.

Lemma validSquare_onBoard s : validSquare s = true -> onBoard (fst s) = true.
Proof.
  unfold validSquare. rewrite isValidCoord_onBoard, andb_true_iff. tauto.
Qed.

(** ** The legal-move filter *)

Lemma getLegalMoves_empty_cell b row col rights ep c :
  onBoard row = true -> cellAt b row col = None ->
  getLegalMoves b row col rights ep c = Ret [].
Proof.
  intros Hr Hc. unfold getLegalMoves.
  rewrite readCell_onBoard by exact Hr. rewrite Hc. reflexivity.
Qed.

Lemma getLegalMoves_other_color b row col rights ep c p :
  onBoard row = true -> cellAt b row col = Some p -> side p <> c ->
  getLegalMoves b row col rights ep c = Ret [].
Proof.
  intros Hr Hc Hs. unfold getLegalMoves.
  rewrite readCell_onBoard by exact Hr. rewrite Hc. cbn [bind].
  destruct (color_eqb (side p) c) eqn:E; [|reflexivity].
  apply color_eqb_eq in E. contradiction.
Qed.

Lemma getLegalMoves_filter b row col rights ep c p :
  onBoard row = true -> cellAt b row col = Some p -> side p = c ->
  getLegalMoves b row col rights ep c =
    filterE (fun m : square =>
               w <- wouldLeaveKingInCheck b row col (fst m) (snd m) c rights ep ;;
               Ret (negb w))
      (candidateMoves b row col rights ep c p).
Proof.
  intros Hr Hc Hs. unfold getLegalMoves, getPseudoLegalMoves, candidateMoves.
  rewrite readCell_onBoard by exact Hr. rewrite Hc. cbn [bind].
  subst c. rewrite color_eqb_refl. cbn [negb bind].
  destruct (kind p); cbn [bind]; try reflexivity.
  rewrite getEnPassantMoves_onBoard by exact Hr. reflexivity.
Qed.

Lemma getLegalMoves_returns b row col rights ep c :
  onBoard row = true -> validTarget ep = true ->
  exists l, getLegalMoves b row col rights ep c = Ret l /\ allValid l.
Proof.
  intros Hr Hep.
  destruct (cellAt b row col) as [p|] eqn:Hc.
  - destruct (color_eqb (side p) c) eqn:Hs.
    + apply color_eqb_eq in Hs.
      rewrite (getLegalMoves_filter _ _ _ _ _ _ _ Hr Hc Hs).
      pose proof (candidateMoves_valid b row col rights ep c p Hep) as V.
      destruct (filterE_returns
                  (fun m : square =>
                     w <- wouldLeaveKingInCheck b row col (fst m) (snd m) c rights ep ;;
                     Ret (negb w))
                  (candidateMoves b row col rights ep c p)) as [l [Hl Hsub]].
      * intros m Hm.
        destruct (wouldLeaveKingInCheck_returns b row col (fst m) (snd m) c rights ep Hr
                    (validSquare_onBoard _ (V m Hm))) as [w ->].
        cbn [bind]. eauto.
      * exists l. split; [exact Hl|]. intros s Hin. apply V. auto.
    + exists []. split; [|apply allValid_nil].
      apply (getLegalMoves_other_color _ _ _ _ _ _ p Hr Hc).
      intros E. apply color_eqb_eq in E. congruence.
  - exists []. split; [|apply allValid_nil].
    apply getLegalMoves_empty_cell; assumption.
Qed.

Lemma getLegalMoves_safe b row col rights ep c moves d :
  getLegalMoves b row col rights ep c = Ret moves -> In d moves ->
  exists x tb k,
    simulatedBoard b row col (fst d) (snd d) ep = Ret (x, tb)
    /\ findKing tb c = Some k
    /\ isSquareAttacked tb (fst k) (snd k) c = Ret false.
Proof.
  unfold getLegalMoves. intros H Hd.
  apply bind_Ret_inv in H. destruct H as [x [_ H]].
  destruct x as [p|]; [|inversion H; subst; destruct Hd].
  destruct (negb _); [inversion H; subst; destruct Hd|].
  apply bind_Ret_inv in H. destruct H as [pseudo [_ H]].
  apply bind_Ret_inv in H. destruct H as [cands [_ H]].
  destruct (filterE_In _ _ _ _ H Hd) as [_ Hf].
  apply bind_Ret_inv in Hf. destruct Hf as [w [Hw Hn]].
  inversion Hn as [Hn']. destruct w; [discriminate|]. clear Hn Hn'.
  unfold wouldLeaveKingInCheck in Hw.
  apply bind_Ret_inv in Hw. destruct Hw as [[y tb] [Hsim Hw]].
  cbn [snd] in Hw.
  destruct (findKing tb c) as [k|] eqn:Hk; [|discriminate].
  exists y, tb, k. auto.
Qed.

(** C1.  Self-check safety: for every board, square, rights, en-passant
    target and colour, a destination returned by [getLegalMoves] is one for
    which the simulated move (en-passant pawn removal and castling rook
    relocation included) yields a board where that colour's king stands and
    [isSquareAttacked] is false on its square.  On a board row and with a
    target that is none or a board square the filter does return. *)
Theorem legal_moves_leave_king_unattacked b row col rights ep c :
  (forall moves d,
      getLegalMoves b row col rights ep c = Ret moves -> In d moves ->
      exists x tb k,
        simulatedBoard b row col (fst d) (snd d) ep = Ret (x, tb)
        /\ findKing tb c = Some k
        /\ isSquareAttacked tb (fst k) (snd k) c = Ret false)
  /\ (onBoard row = true -> validTarget ep = true ->
      exists moves, getLegalMoves b row col rights ep c = Ret moves).
Proof.
  split.
  - intros moves d. apply getLegalMoves_safe.
  - intros Hr Hep. destruct (getLegalMoves_returns b row col rights ep c Hr Hep)
      as [l [Hl _]]. eauto.
Qed.

(** C1 at the king's pawn of the initial position: its two destinations are
    returned and each leaves the white king unattacked. *)
Lemma legal_moves_leave_king_unattacked_witness :
  getLegalMoves initializeBoard 6 4 allRights None White = Ret [(5, 4); (4, 4)]
  /\ exists x tb k,
      simulatedBoard initializeBoard 6 4 5 4 None = Ret (x, tb)
      /\ findKing tb White = Some k
      /\ isSquareAttacked tb (fst k) (snd k) White = Ret false.
Proof.
  split; [reflexivity|].
  exact (proj1 (legal_moves_leave_king_unattacked initializeBoard 6 4 allRights None White)
           [(5, 4); (4, 4)] (5, 4) eq_refl (or_introl eq_refl)).
Defined.

(** ** Coordinates off the board *)

(** C9, as stated, fails: with a row off the board [getLegalMoves] and
    [getPseudoLegalMoves] index [undefined] and raise. *)
Lemma off_board_row_raises :
  isValidCoord 8 0 = false
  /\ getLegalMoves initializeBoard 8 0 allRights None White = Throw
  /\ getPseudoLegalMoves initializeBoard 8 0 = Throw.
Proof. repeat split. Qed.

(** C9, amended.  For a coordinate off the board, [Board.getPieceAt]
    returns none; [getLegalMoves] and [getPseudoLegalMoves] return the empty
    list when the row is on the board (so the column is off it), and raise
    when the row is off the board. *)
Theorem off_board_coordinates b row col rights ep c :
  isValidCoord row col = false ->
  getPieceAt b row col = Ret None
  /\ (onBoard row = true ->
      getLegalMoves b row col rights ep c = Ret []
      /\ getPseudoLegalMoves b row col = Ret [])
  /\ (onBoard row = false ->
      getLegalMoves b row col rights ep c = Throw
      /\ getPseudoLegalMoves b row col = Throw).
Proof.
  intros Hv. split; [|split].
  - unfold getPieceAt. rewrite Hv. reflexivity.
  - intros Hr. unfold getLegalMoves, getPseudoLegalMoves.
    rewrite readCell_onBoard by exact Hr.
    unfold cellAt. rewrite Hv. split; reflexivity.
  - intros Hr. unfold getLegalMoves, getPseudoLegalMoves, readCell.
    rewrite Hr. split; reflexivity.
Qed.

(** C9 amended, at row 0 and column 8 of the initial position. *)
Lemma off_board_coordinates_witness :
  getPieceAt initializeBoard 0 8 = Ret None
  /\ (onBoard 0 = true ->
      getLegalMoves initializeBoard 0 8 allRights None White = Ret []
      /\ getPseudoLegalMoves initializeBoard 0 8 = Ret [])
  /\ (onBoard 0 = false ->
      getLegalMoves initializeBoard 0 8 allRights None White = Throw
      /\ getPseudoLegalMoves initializeBoard 0 8 = Throw).
Proof.
  exact (off_board_coordinates initializeBoard 0 8 allRights None White eq_refl).
Defined.

(** ** Castling candidates *)

Lemma occupied_false x : occupied x = false <-> x = None.
Proof. destruct x; simpl; split; congruence. Qed.

Lemma In_if_singleton {A} (c : bool) (x d : A) :
  In d (if c then [x] else []) <-> (c = true /\ d = x).
Proof.
  destruct c; cbn [In]; split.
  - intros [<-|[]]. auto.
  - intros [_ ->]. left. reflexivity.
  - intros [].
  - intros [F _]. discriminate.
Qed.

(** What [getCastlingMoves] yields: the king's row is tested, its column
    is not. *)
Lemma In_getCastlingMoves b kingRow kingCol c rights d :
  In d (getCastlingMoves b kingRow kingCol c rights) <->
  (c = White /\ kingRow = 7
   /\ ((d = (7, 6) /\ whiteKingside rights = true /\ cellAt b 7 7 = whiteRook
        /\ cellAt b 7 5 = None /\ cellAt b 7 6 = None)
       \/ (d = (7, 2) /\ whiteQueenside rights = true /\ cellAt b 7 0 = whiteRook
           /\ cellAt b 7 1 = None /\ cellAt b 7 2 = None /\ cellAt b 7 3 = None)))
  \/ (c = Black /\ kingRow = 0
      /\ ((d = (0, 6) /\ blackKingside rights = true /\ cellAt b 0 7 = blackRook
           /\ cellAt b 0 5 = None /\ cellAt b 0 6 = None)
          \/ (d = (0, 2) /\ blackQueenside rights = true /\ cellAt b 0 0 = blackRook
              /\ cellAt b 0 1 = None /\ cellAt b 0 2 = None /\ cellAt b 0 3 = None))).
Proof.
  unfold getCastlingMoves.
  destruct c; cbn [color_eqb andb orb negb].
  - destruct (Z.eqb_spec kingRow 7) as [E|E]; cbn [negb andb orb]; cbv zeta.
    + rewrite in_app_iff.
      destruct (whiteKingside rights), (whiteQueenside rights);
        rewrite ?In_if_singleton, ?andb_true_iff, ?negb_true_iff, ?occupied_false,
          ?cell_eqb_eq; cbn [In];
        intuition (try discriminate; try congruence).
    + split; [intros [] | intros [[_ [F _]] | [F _]]; [contradiction | discriminate]].
  - destruct (Z.eqb_spec kingRow 0) as [E|E]; cbn [negb andb orb]; cbv zeta.
    + rewrite in_app_iff.
      destruct (blackKingside rights), (blackQueenside rights);
        rewrite ?In_if_singleton, ?andb_true_iff, ?negb_true_iff, ?occupied_false,
          ?cell_eqb_eq; cbn [In];
        intuition (try discriminate; try congruence).
    + split; [intros [] | intros [[F _] | [_ [F _]]]; [discriminate | contradiction]].
Qed.

(** C6 at a king off its home square.  With the white king on row 7,
    column 3, the kingside right set, the rook on its corner and columns 5
    and 6 empty, [getCastlingMoves] yields the kingside destination, and
    [getLegalMoves] keeps it: the king's column is never tested. *)
Theorem castling_offered_off_home_square :
  cellAt kingOffHome 7 3 = wK
  /\ cellAt kingOffHome 7 4 = None
  /\ getCastlingMoves kingOffHome 7 3 White allRights = [(7, 6)]
  /\ getLegalMoves kingOffHome 7 3 allRights None White
     = Ret [(6, 2); (6, 3); (6, 4); (7, 2); (7, 4); (7, 6)].
Proof. repeat split. Qed.

(** ** Terminal scoring of the search *)

Section Terminal.

Variable evaluateBoard : board -> color -> num.

Lemma minimaxSearch_checkmate b c rights ep depth (isMaximizing : bool) :
  isCheckmate b (if isMaximizing then c else opponentOf c) rights ep = Ret true ->
  minimaxSearch evaluateBoard b c rights ep depth isMaximizing
  = Ret (if isMaximizing then numZ 10000 else numZ (-10000)).
Proof. intros H. destruct depth; cbn [minimaxSearch]; rewrite H; reflexivity. Qed.

Lemma minimaxSearchAlphaBeta_checkmate b c rights ep depth alpha beta (isMaximizing : bool) :
  isCheckmate b (if isMaximizing then c else opponentOf c) rights ep = Ret true ->
  minimaxSearchAlphaBeta evaluateBoard b c rights ep depth alpha beta isMaximizing
  = Ret (if isMaximizing then numZ 10000 else numZ (-10000)).
Proof. intros H. destruct depth; cbn [minimaxSearchAlphaBeta]; rewrite H; reflexivity. Qed.

Lemma minimaxSearch_draw b c rights ep depth (isMaximizing : bool) :
  isCheckmate b (if isMaximizing then c else opponentOf c) rights ep = Ret false ->
  (isStalemate b (if isMaximizing then c else opponentOf c) rights ep = Ret true
   \/ (isStalemate b (if isMaximizing then c else opponentOf c) rights ep = Ret false
       /\ isInsufficientMaterial b = true)) ->
  minimaxSearch evaluateBoard b c rights ep depth isMaximizing = Ret (numZ 0)
  /\ forall alpha beta,
      minimaxSearchAlphaBeta evaluateBoard b c rights ep depth alpha beta isMaximizing
      = Ret (numZ 0).
Proof.
  intros Hm [Hs | [Hs Hi]]; split; try intros alpha beta;
    destruct depth; cbn [minimaxSearch minimaxSearchAlphaBeta];
    rewrite Hm; cbn [bind]; rewrite Hs; cbn [bind]; try rewrite Hi; reflexivity.
Qed.

Lemma minimaxSearch_depth_exhausted b c rights ep (isMaximizing : bool) :
  isCheckmate b (if isMaximizing then c else opponentOf c) rights ep = Ret false ->
  isStalemate b (if isMaximizing then c else opponentOf c) rights ep = Ret false ->
  isInsufficientMaterial b = false ->
  minimaxSearch evaluateBoard b c rights ep 0 isMaximizing = Ret (evaluateBoard b c)
  /\ forall alpha beta,
      minimaxSearchAlphaBeta evaluateBoard b c rights ep 0 alpha beta isMaximizing
      = Ret (evaluateBoard b c).
Proof.
  intros Hm Hs Hi; split; try intros alpha beta;
    cbn [minimaxSearch minimaxSearchAlphaBeta];
    rewrite Hm; cbn [bind]; rewrite Hs; cbn [bind]; rewrite Hi; reflexivity.
Qed.

(** C5 at a checkmated maximizer.  White, the searching colour, is to move
    at a maximizing node and is checkmated; both searches return +10000
    there at every depth, and -10000 at the minimizing node where the
    checkmated side is the one to move. *)
Theorem checkmated_side_to_move_scores depth :
  isCheckmate backRankMate White noRights None = Ret true
  /\ minimaxSearch evaluateBoard backRankMate White noRights None depth true
     = Ret (numZ 10000)
  /\ minimaxSearchAlphaBeta evaluateBoard backRankMate White noRights None depth
       NegInf PosInf true = Ret (numZ 10000)
  /\ minimaxSearch evaluateBoard backRankMate Black noRights None depth false
     = Ret (numZ (-10000))
  /\ minimaxSearchAlphaBeta evaluateBoard backRankMate Black noRights None depth
       NegInf PosInf false = Ret (numZ (-10000)).
Proof.
  assert (H : isCheckmate backRankMate White noRights None = Ret true)
    by (vm_compute; reflexivity).
  split; [exact H|].
  split; [exact (minimaxSearch_checkmate backRankMate White noRights None depth true H)|].
  split; [exact (minimaxSearchAlphaBeta_checkmate backRankMate White noRights None depth
                   NegInf PosInf true H)|].
  split; [exact (minimaxSearch_checkmate backRankMate Black noRights None depth false H)|].
  exact (minimaxSearchAlphaBeta_checkmate backRankMate Black noRights None depth
           NegInf PosInf false H).
Qed.

(** ** The root of the search *)

Lemma num_ltb_irrefl a : num_ltb a a = false.
Proof.
  destruct a as [|q|]; cbn; try reflexivity.
  rewrite (proj1 (Qceq_alt q q) eq_refl). reflexivity.
Qed.

Lemma rootLoop_settled b c rights ep depth' (isMaximizing : bool) s :
  minimaxSearch evaluateBoard b c rights ep depth' (negb isMaximizing) = Ret s ->
  forall moves bestMove bestValue,
    (if isMaximizing then num_ltb bestValue s else num_ltb s bestValue) = false ->
    rootLoop evaluateBoard b c rights ep depth' isMaximizing moves bestMove bestValue
    = Ret bestMove.
Proof.
  intros Hs. induction moves as [|m rest IH]; intros bestMove bestValue Hb.
  - reflexivity.
  - cbn [rootLoop]. rewrite Hs. cbn [bind].
    destruct isMaximizing; cbn [andb negb]; rewrite Hb; apply IH; exact Hb.
Qed.

(** The root [minimax] never looks at its candidates: whenever the search
    of the unmoved board returns, the move it picks is the first legal
    move. *)
Lemma minimax_picks_first_move b c rights ep depth' (isMaximizing : bool) s first rest :
  minimaxSearch evaluateBoard b c rights ep depth' (negb isMaximizing) = Ret s ->
  getAllLegalMoves b c rights ep = Ret (first :: rest) ->
  minimax evaluateBoard b c rights ep (S depth') isMaximizing = Ret (Some first).
Proof.
  intros Hs Hm. unfold minimax. rewrite Hm. cbn [bind rootLoop]. rewrite Hs.
  cbn [bind].
  assert (T : forall bestValue,
             rootLoop evaluateBoard b c rights ep depth' isMaximizing rest first
               bestValue = Ret first \/
             (if isMaximizing then num_ltb bestValue s else num_ltb s bestValue) = true).
  { intros bv.
    destruct (if isMaximizing then num_ltb bv s else num_ltb s bv) eqn:E;
      [right; reflexivity | left].
    apply (rootLoop_settled b c rights ep depth' isMaximizing s Hs). exact E. }
  assert (U : rootLoop evaluateBoard b c rights ep depth' isMaximizing rest first s
              = Ret first).
  { apply (rootLoop_settled b c rights ep depth' isMaximizing s Hs).
    destruct isMaximizing; apply num_ltb_irrefl. }
  destruct isMaximizing; cbn [andb negb].
  - destruct (num_ltb NegInf s) eqn:E.
    + rewrite U. reflexivity.
    + destruct (T NegInf) as [-> | F]; [reflexivity | congruence].
  - destruct (num_ltb s PosInf) eqn:E.
    + rewrite U. reflexivity.
    + destruct (T PosInf) as [-> | F]; [reflexivity | congruence].
Qed.

(** C2 at a position with two differently scored candidates.  Both root
    functions return the queen's step to g7, the first legal move; scored
    the way the spec describes (simulate, then search the new position one
    ply with roles swapped) that move gets -10000 while the king's step to
    e6, also legal, gets 0. *)
Theorem root_search_ignores_candidates :
  minimax evaluateBoard queenAndKing White noRights None 1 true
  = Ret (Some queenToG7)
  /\ minimaxAlphaBeta evaluateBoard queenAndKing White noRights None 1
       NegInf PosInf true = Ret (Some queenToG7)
  /\ (exists moves, getAllLegalMoves queenAndKing White noRights None = Ret moves
                    /\ In queenToG7 moves /\ In kingToE6 moves)
  /\ candidateScore evaluateBoard queenAndKing White noRights None 0 true queenToG7
     = Ret (numZ (-10000))
  /\ candidateScore evaluateBoard queenAndKing White noRights None 0 true kingToE6
     = Ret (numZ 0)
  /\ num_ltb (numZ (-10000)) (numZ 0) = true.
Proof.
  split; [vm_compute; reflexivity|].
  split; [vm_compute; reflexivity|].
  split.
  - eexists. split; [vm_compute; reflexivity|]. split.
    + left. reflexivity.
    + do 18 right. left. reflexivity.
  - split; [vm_compute; reflexivity|].
    split; [vm_compute; reflexivity|].
    reflexivity.
Qed.

End Terminal.

(** ** A board without the mover's king *)

Lemma cellAt_setCell b row col v r k :
  cellAt (setCell b row col v) r k =
    if isValidCoord r k && (r =? row) && (k =? col) then v else cellAt b r k.
Proof.
  unfold cellAt, setCell. destruct (isValidCoord r k); cbn [andb]; reflexivity.
Qed.

Lemma noKing_noKingAt b c : noKing b c <-> noKingAt b c.
Proof.
  unfold noKing, noKingAt, cellAt. split.
  - intros H r k. destruct (isValidCoord r k) eqn:E; [apply H; exact E | discriminate].
  - intros H r k E. specialize (H r k). rewrite E in H. exact H.
Qed.

Lemma noKingAt_findKing b c : noKingAt b c <-> findKing b c = None.
Proof.
  rewrite findKing_None. unfold noKingAt. split.
  - intros H r k _. apply H.
  - intros H r k. destruct (isValidCoord r k) eqn:E; [apply H; exact E|].
    unfold cellAt. rewrite E. discriminate.
Qed.

Lemma setCell_noKingAt b c row col v :
  noKingAt b c -> v <> Some (mkPiece King c) -> noKingAt (setCell b row col v) c.
Proof.
  intros H Hv r k. rewrite cellAt_setCell. destruct (_ && _); [exact Hv | apply H].
Qed.

Lemma noKingAt_cell b c row col : noKingAt b c -> cellAt b row col <> Some (mkPiece King c).
Proof. intros H. apply H. Qed.

Ltac no_king :=
  repeat match goal with
    | |- noKingAt (setCell _ _ _ _) _ => apply setCell_noKingAt
    | |- noKingAt (if ?t then _ else _) _ => destruct t
    | |- cellAt _ _ _ <> Some _ => apply noKingAt_cell
    | |- None <> Some _ => discriminate
    | |- noKingAt _ _ => assumption
    end.

Lemma relocateRook_noKingAt tb c x fromRow fromCol toCol :
  noKingAt tb c -> noKingAt (relocateRook tb x fromRow fromCol toCol) c.
Proof. intros H. unfold relocateRook. cbv zeta. no_king. Qed.

Lemma movedBoard_noKingAt b c fromRow fromCol toRow toCol ep :
  noKingAt b c -> noKingAt (movedBoard b fromRow fromCol toRow toCol ep) c.
Proof.
  intros H. unfold movedBoard. cbv zeta. apply relocateRook_noKingAt.
  change (copyBoard b) with (fun r k => b r k).
  assert (H' : noKingAt (fun r k => b r k) c) by exact H.
  no_king.
Qed.

Lemma wouldLeaveKingInCheck_noKing b c fromRow fromCol toRow toCol rights ep :
  noKingAt b c -> onBoard fromRow = true -> onBoard toRow = true ->
  wouldLeaveKingInCheck b fromRow fromCol toRow toCol c rights ep = Ret true.
Proof.
  intros H Hf Ht. unfold wouldLeaveKingInCheck.
  rewrite simulatedBoard_onBoard by assumption. cbn [bind snd].
  rewrite (proj1 (noKingAt_findKing _ c)
             (movedBoard_noKingAt b c fromRow fromCol toRow toCol ep H)).
  reflexivity.
Qed.

Lemma getLegalMoves_noKing b c row col rights ep :
  noKingAt b c -> onBoard row = true -> validTarget ep = true ->
  getLegalMoves b row col rights ep c = Ret [].
Proof.
  intros H Hr Hep.
  destruct (cellAt b row col) as [p|] eqn:Hc;
    [|apply getLegalMoves_empty_cell; assumption].
  destruct (color_eqb (side p) c) eqn:Hs.
  - apply color_eqb_eq in Hs.
    rewrite (getLegalMoves_filter _ _ _ _ _ _ _ Hr Hc Hs).
    apply filterE_none. intros m Hm.
    rewrite wouldLeaveKingInCheck_noKing; [reflexivity | exact H | exact Hr |].
    apply validSquare_onBoard.
    exact (candidateMoves_valid b row col rights ep c p Hep m Hm).
  - apply (getLegalMoves_other_color _ _ _ _ _ _ p Hr Hc).
    intros E. apply color_eqb_eq in E. congruence.
Qed.

Lemma noLegalMove_noKing b c rights ep pieces :
  noKingAt b c -> validTarget ep = true ->
  (forall p, In p pieces -> onBoard (prow p) = true) ->
  noLegalMove b c rights ep pieces = Ret true.
Proof.
  intros H Hep. induction pieces as [|p rest IH]; intros Hp; cbn [noLegalMove].
  - reflexivity.
  - rewrite getLegalMoves_noKing; [|exact H | apply Hp; left; reflexivity | exact Hep].
    cbn [bind]. apply IH. intros q Hq. apply Hp. right. exact Hq.
Qed.

(** C10.  On a board with no king of a colour, [isInCheck] is false for
    that colour; [wouldLeaveKingInCheck] is true for every move simulated
    between board rows; [getLegalMoves] is empty on every square of a board
    row (the en-passant target being none or a board square), so
    [isCheckmate] is false and [isStalemate] is true. *)
Theorem no_king_no_legal_move b c :
  noKing b c ->
  isInCheck b c = Ret false
  /\ (forall fromRow fromCol toRow toCol rights ep,
         onBoard fromRow = true -> onBoard toRow = true ->
         wouldLeaveKingInCheck b fromRow fromCol toRow toCol c rights ep = Ret true)
  /\ (forall row col rights ep,
         onBoard row = true -> validTarget ep = true ->
         getLegalMoves b row col rights ep c = Ret [])
  /\ (forall rights ep, isCheckmate b c rights ep = Ret false)
  /\ (forall rights ep, validTarget ep = true -> isStalemate b c rights ep = Ret true).
Proof.
  intros H. apply noKing_noKingAt in H.
  assert (Hc : isInCheck b c = Ret false).
  { unfold isInCheck. rewrite (proj1 (noKingAt_findKing b c) H). reflexivity. }
  split; [exact Hc|].
  split; [intros; apply wouldLeaveKingInCheck_noKing; assumption|].
  split; [intros; apply getLegalMoves_noKing; assumption|].
  split.
  - intros rights ep. unfold isCheckmate. rewrite Hc. reflexivity.
  - intros rights ep Hep. unfold isStalemate. rewrite Hc. cbn [bind].
    apply noLegalMove_noKing; [exact H | exact Hep |].
    intros p. apply getPiecesOfColor_onBoard.
Qed.

Lemma kingless_noKing : noKing kingless White.
Proof. apply noKing_noKingAt. apply noKingAt_findKing. reflexivity. Qed.

(** C10 at a board holding a white pawn and the black king only. *)
Lemma no_king_no_legal_move_witness :
  isInCheck kingless White = Ret false
  /\ getLegalMoves kingless 6 4 allRights None White = Ret []
  /\ isCheckmate kingless White allRights None = Ret false
  /\ isStalemate kingless White allRights None = Ret true.
Proof.
  pose proof (no_king_no_legal_move kingless White kingless_noKing) as H.
  split; [exact (proj1 H)|].
  split; [exact (proj1 (proj2 (proj2 H)) 6 4 allRights None eq_refl eq_refl)|].
  split; [exact (proj1 (proj2 (proj2 (proj2 H))) allRights None)|].
  exact (proj2 (proj2 (proj2 (proj2 H))) allRights None eq_refl).
Defined.

(** ** The attack oracle *)

(** C3, as stated, fails.  With a black pawn on e7 (row 1, column 4), a
    black rook on a8 and a black knight on b8: the pawn's empty diagonal f6
    is not attacked for the code, its empty push square e6 is, and so is b8,
    which the rook reaches only as a square of its own side. *)
Lemma attack_oracle_differs_from_spec :
  (isSquareAttacked pawnRookKnight 2 5 White = Ret false
   /\ specIsSquareAttacked pawnRookKnight 2 5 White = true)
  /\ (isSquareAttacked pawnRookKnight 2 4 White = Ret true
      /\ specIsSquareAttacked pawnRookKnight 2 4 White = false)
  /\ (isSquareAttacked pawnRookKnight 0 1 White = Ret true
      /\ specIsSquareAttacked pawnRookKnight 0 1 White = false).
Proof. repeat split. Qed.

Lemma existsb_square s l :
  existsb (fun m => square_eqb m s) l = true <-> In s l.
Proof.
  rewrite existsb_exists. split.
  - intros [m [Hm E]]. apply square_eqb_eq in E. subst. exact Hm.
  - intros H. exists s. split; [exact H | apply square_eqb_eq; reflexivity].
Qed.

Lemma existsb_agree {A} (f g : A -> bool) l :
  (forall a, In a l -> f a = g a) -> existsb f l = existsb g l.
Proof.
  induction l as [|a rest IH]; intros H; cbn [existsb].
  - reflexivity.
  - rewrite (H a (or_introl eq_refl)), IH; [reflexivity|].
    intros x Hx. apply H. right. exact Hx.
Qed.

Lemma bool_iff_eq (x y : bool) : (x = true <-> y = true) -> x = y.
Proof.
  destruct x, y; intros [H1 H2]; try reflexivity;
    [symmetry; apply H1; reflexivity | apply H2; reflexivity].
Qed.

Section Target.

(** The square tested, [(r, k)], holds a piece [t]; the attacker is of the
    other colour [a]. *)
Variable b : board.
Variables r k : Z.
Variable t : piece.
Variable a : color.
Hypothesis target : cellAt b r k = Some t.
Hypothesis enemy : side t <> a.

Lemma target_not_friendly : friendly (cellAt b r k) a = false.
Proof.
  rewrite target. cbn. destruct (color_eqb (side t) a) eqn:E; [|reflexivity].
  apply color_eqb_eq in E. contradiction.
Qed.

Lemma target_occupied : occupied (cellAt b r k) = true.
Proof. rewrite target. reflexivity. Qed.

Lemma target_valid : isValidCoord r k = true.
Proof.
  destruct (isValidCoord r k) eqn:E; [reflexivity|].
  pose proof target as T. unfold cellAt in T. rewrite E in T. discriminate.
Qed.

Lemma rawRay_ray row col dr dc n :
  forall dist,
    In (r, k) (rawRay b row col dr dc dist n)
    <-> In (r, k) (ray b a row col dr dc dist n).
Proof.
  induction n as [|n IH]; intros dist; cbn [rawRay ray]; [tauto|].
  cbv zeta. destruct (isValidCoord _ _); [|tauto].
  destruct (cellAt b (row + dr * dist) (col + dc * dist)) as [q|] eqn:E;
    cbn [occupied].
  - destruct (color_eqb (side q) a) eqn:F; [|tauto].
    split; [|intros []].
    intros [H|[]]. apply pair_equal_spec in H. destruct H as [E1 E2]. pose proof target as T.
    rewrite <- E1, <- E2, E in T. injection T as T. subst q.
    apply color_eqb_eq in F. contradiction.
  - cbn [In]. rewrite IH. tauto.
Qed.

Lemma rawSlide_slide row col directions :
  In (r, k) (flat_map (fun d => rawRay b row col (fst d) (snd d) 1 7) directions)
  <-> In (r, k) (slide b row col a directions).
Proof.
  unfold slide. rewrite !in_flat_map.
  split; intros [d [Hd H]]; exists d; (split; [exact Hd|]); apply rawRay_ray; exact H.
Qed.

Lemma rawSteps_stepMoves row col offsets :
  In (r, k) (rawSteps row col offsets) <-> In (r, k) (stepMoves b row col a offsets).
Proof.
  unfold rawSteps, stepMoves. rewrite !in_flat_map.
  split; intros [d [Hd H]]; exists d; (split; [exact Hd|]); cbv zeta in *;
    destruct (isValidCoord _ _); try contradiction.
  - destruct H as [H|[]]. apply pair_equal_spec in H. destruct H as [E1 E2]. rewrite E1, E2.
    rewrite target_not_friendly. left. reflexivity.
  - destruct (friendly _ _); [contradiction | exact H].
Qed.

Lemma In_pawnAttackSquares row col :
  In (r, k) (pawnAttackSquares row col a) <->
  (r = row + (if color_eqb a White then -1 else 1) /\ (k = col - 1 \/ k = col + 1)).
Proof.
  pose proof target_valid as V.
  unfold pawnAttackSquares. cbv zeta. cbn [flat_map].
  rewrite app_nil_r, in_app_iff, !In_if_singleton.
  split.
  - intros [[_ H]|[_ H]]; inversion H; split; auto; lia.
  - intros [-> [-> | ->]].
    + left. replace (col + -1) with (col - 1) by lia. auto.
    + right. auto.
Qed.

(** A push lands on an empty square, never on the target. *)
Lemma push_misses_target (row col direction startRow : Z) :
  ~ In (r, k)
      (if isValidCoord (row + direction) col
          && negb (occupied (cellAt b (row + direction) col))
       then (row + direction, col)
            :: (if row =? startRow
                then if negb (occupied (cellAt b (row + 2 * direction) col))
                     then [(row + 2 * direction, col)] else []
                else [])
       else []).
Proof.
  pose proof target_occupied as O.
  destruct (isValidCoord (row + direction) col
            && negb (occupied (cellAt b (row + direction) col))) eqn:E;
    [|intros []].
  apply andb_true_iff in E. destruct E as [_ E].
  intros [H|H].
  - apply pair_equal_spec in H. destruct H as [E3 E4]. rewrite E3, E4, O in E. discriminate.
  - destruct (row =? startRow); [|contradiction].
    destruct (negb (occupied (cellAt b (row + 2 * direction) col))) eqn:E2;
      [|contradiction].
    destruct H as [H|[]]. apply pair_equal_spec in H. destruct H as [E3 E4]. rewrite E3, E4, O in E2.
    discriminate.
Qed.

Lemma rawPawn_attacks row col :
  In (r, k) (rawPawn b row col (Some a)) <-> In (r, k) (pawnAttackSquares row col a).
Proof.
  rewrite In_pawnAttackSquares.
  pose proof target_valid as V. pose proof target_occupied as O.
  unfold rawPawn. cbv zeta.
  replace (isWhite (Some a)) with (color_eqb a White) by (destruct a; reflexivity).
  rewrite in_app_iff. cbn [flat_map]. rewrite app_nil_r, in_app_iff.
  split.
  - intros [H | [H | H]].
    + exfalso. exact (push_misses_target _ _ _ _ H).
    + destruct (isValidCoord _ (col + _)); [|contradiction].
      destruct (occupied (cellAt b _ (col + _))); [|contradiction].
      destruct H as [H|[]]. inversion H. split; [reflexivity | left; lia].
    + destruct (isValidCoord _ (col + _)); [|contradiction].
      destruct (occupied (cellAt b _ (col + _))); [|contradiction].
      destruct H as [H|[]]. inversion H. split; [reflexivity | right; lia].
  - intros [-> [-> | ->]]; right.
    + left. replace (col + -1) with (col - 1) by lia. rewrite V, O. left. reflexivity.
    + right. rewrite V, O. left. reflexivity.
Qed.

Lemma getPawnMoves_attacks row col :
  In (r, k) (getPawnMoves b row col a) <-> In (r, k) (pawnAttackSquares row col a).
Proof.
  rewrite In_pawnAttackSquares.
  pose proof target_valid as V.
  pose proof target_occupied as O. pose proof target_not_friendly as F.
  unfold getPawnMoves. cbv zeta.
  rewrite in_app_iff. cbn [flat_map]. rewrite app_nil_r, in_app_iff.
  split.
  - intros [H | [H | H]].
    + exfalso. exact (push_misses_target _ _ _ _ H).
    + destruct (isValidCoord _ (col + _)); [|contradiction].
      destruct (occupied (cellAt b _ (col + _)) && _); [|contradiction].
      destruct H as [H|[]]. inversion H. split; [reflexivity | left; lia].
    + destruct (isValidCoord _ (col + _)); [|contradiction].
      destruct (occupied (cellAt b _ (col + _)) && _); [|contradiction].
      destruct H as [H|[]]. inversion H. split; [reflexivity | right; lia].
  - intros [-> [-> | ->]]; right.
    + left. replace (col + -1) with (col - 1) by lia. rewrite V, O, F.
      left. reflexivity.
    + right. rewrite V, O, F. left. reflexivity.
Qed.

(** On such a square the raw moves of [generatePieceMoves], the
    pseudo-legal moves and the attack set of the spec agree. *)
Lemma rawMoves_movesOfPiece (p : placed) :
  side (pc p) = a ->
  (In (r, k) (rawMoves b (prow p) (pcol p) (Some (kind (pc p))) (Some a))
   <-> In (r, k) (movesOfPiece b (prow p) (pcol p) (pc p)))
  /\ (In (r, k) (movesOfPiece b (prow p) (pcol p) (pc p))
      <-> In (r, k) (specAttackSet b p)).
Proof.
  intros Hs. unfold rawMoves, specAttackSet, movesOfPiece. rewrite Hs.
  destruct (kind (pc p)); split;
    first [ tauto
          | apply getPawnMoves_attacks
          | apply rawSteps_stepMoves
          | apply rawSlide_slide
          | rewrite rawPawn_attacks, getPawnMoves_attacks; tauto ].
Qed.

End Target.

Lemma Ret_inj {A} (x y : A) : Ret x = Ret y -> x = y.
Proof. intros H. inversion H. reflexivity. Qed.

Lemma opponentOf_neq c : c <> opponentOf c.
Proof. destruct c; discriminate. Qed.

Lemma getPseudoLegalMoves_piece b c p :
  In p (getPiecesOfColor b c) ->
  getPseudoLegalMoves b (prow p) (pcol p) = Ret (movesOfPiece b (prow p) (pcol p) (pc p)).
Proof.
  intros H. pose proof (getPiecesOfColor_onBoard _ _ _ H) as Hr.
  apply In_getPiecesOfColor in H. destruct H as [_ [Hc _]].
  unfold getPseudoLegalMoves. rewrite readCell_onBoard by exact Hr. rewrite Hc.
  reflexivity.
Qed.

(** For every square: the oracle is true exactly when the raw moves
    [generatePieceMoves] returns for some opposing piece hold the square. *)
Lemma isSquareAttacked_raw b row col c :
  isSquareAttacked b row col c = Ret true <->
  exists p moves,
    In p (getPiecesOfColor b (opponentOf c))
    /\ generatePieceMoves b (prow p) (pcol p) (getPieceType (Some (pc p))) = Ret moves
    /\ In (row, col) moves.
Proof.
  rewrite isSquareAttacked_returns. split.
  - intros H. apply Ret_inj in H. apply existsb_exists in H.
    destruct H as [p [Hp H]]. apply existsb_square in H.
    exists p. eexists. split; [exact Hp|]. split; [|exact H].
    unfold generatePieceMoves.
    rewrite readCell_onBoard by (eapply getPiecesOfColor_onBoard; exact Hp).
    reflexivity.
  - intros [p [moves [Hp [Hg H]]]]. f_equal. apply existsb_exists.
    exists p. split; [exact Hp|]. apply existsb_square.
    unfold generatePieceMoves in Hg.
    rewrite readCell_onBoard in Hg by (eapply getPiecesOfColor_onBoard; exact Hp).
    apply Ret_inj in Hg. rewrite <- Hg in H. exact H.
Qed.

(** C3, amended.  On a square that holds a piece of the defending colour
    (the king's square, in every use the code makes of the oracle),
    [isSquareAttacked] is true exactly when some opposing piece has the
    square in its pseudo-legal destination set; it then agrees with the
    oracle of the spec, for which a pawn attacks its two diagonal squares and
    never its push squares. *)
Theorem isSquareAttacked_on_defended_square b row col c t :
  cellAt b row col = Some t -> side t = c ->
  isSquareAttacked b row col c = Ret (specIsSquareAttacked b row col c)
  /\ (isSquareAttacked b row col c = Ret true <->
      exists p moves,
        In p (getPiecesOfColor b (opponentOf c))
        /\ getPseudoLegalMoves b (prow p) (pcol p) = Ret moves
        /\ In (row, col) moves).
Proof.
  intros Ht Hs.
  assert (enemy : side t <> opponentOf c) by (rewrite Hs; apply opponentOf_neq).
  assert (A : forall p, In p (getPiecesOfColor b (opponentOf c)) ->
                getPieceColor (cellAt b (prow p) (pcol p)) = Some (opponentOf c)
                /\ side (pc p) = opponentOf c).
  { intros p Hp. apply In_getPiecesOfColor in Hp. destruct Hp as [_ [Hc Hp]].
    rewrite Hc. cbn. rewrite Hp. auto. }
  rewrite isSquareAttacked_returns. split.
  - f_equal. unfold specIsSquareAttacked. apply existsb_agree. intros p Hp.
    destruct (A p Hp) as [-> Hside].
    apply bool_iff_eq. rewrite !existsb_square.
    destruct (rawMoves_movesOfPiece b row col t (opponentOf c) Ht enemy p Hside)
      as [H1 H2].
    rewrite H1, H2. tauto.
  - split.
    + intros H. apply Ret_inj in H. apply existsb_exists in H.
      destruct H as [p [Hp H]]. apply existsb_square in H.
      destruct (A p Hp) as [E Hside]. rewrite E in H.
      exists p, (movesOfPiece b (prow p) (pcol p) (pc p)).
      split; [exact Hp|]. split; [apply (getPseudoLegalMoves_piece _ _ _ Hp)|].
      apply (proj1 (rawMoves_movesOfPiece b row col t (opponentOf c) Ht enemy p Hside)).
      exact H.
    + intros [p [moves [Hp [Hg H]]]]. f_equal. apply existsb_exists.
      exists p. split; [exact Hp|]. apply existsb_square.
      destruct (A p Hp) as [-> Hside].
      rewrite (getPseudoLegalMoves_piece _ _ _ Hp) in Hg. apply Ret_inj in Hg.
      apply (proj1 (rawMoves_movesOfPiece b row col t (opponentOf c) Ht enemy p Hside)).
      rewrite Hg. exact H.
Qed.

(** C3 amended, at the white king on e1 attacked by the black pawn on d2. *)
Lemma isSquareAttacked_on_defended_square_witness :
  isSquareAttacked pawnCheck 7 4 White = Ret (specIsSquareAttacked pawnCheck 7 4 White)
  /\ (isSquareAttacked pawnCheck 7 4 White = Ret true <->
      exists p moves,
        In p (getPiecesOfColor pawnCheck (opponentOf White))
        /\ getPseudoLegalMoves pawnCheck (prow p) (pcol p) = Ret moves
        /\ In (7, 4) moves).
Proof.
  exact (isSquareAttacked_on_defended_square pawnCheck 7 4 White (mkPiece King White)
           eq_refl eq_refl).
Defined.

(** ** The scores are totally ordered *)

Lemma num_ltb_Fin x y : num_ltb (Fin x) (Fin y) = true <-> (x < y)%Qc.
Proof.
  unfold num_ltb. rewrite Qclt_alt. destruct (Qccompare x y); split; congruence.
Qed.

Lemma num_lt_irrefl a : ~ num_lt a a.
Proof.
  unfold num_lt. rewrite num_ltb_irrefl. discriminate.
Qed.

Lemma num_lt_trans a b c : num_lt a b -> num_lt b c -> num_lt a c.
Proof.
  unfold num_lt. destruct a as [|x|], b as [|y|], c as [|z|]; try (cbn; congruence).
  rewrite !num_ltb_Fin. apply Qclt_trans.
Qed.

Lemma num_lt_total a b : num_lt a b \/ a = b \/ num_lt b a.
Proof.
  unfold num_lt. destruct a as [|x|], b as [|y|]; try (cbn; auto; fail).
  rewrite !num_ltb_Fin.
  destruct (Qc_dec x y) as [[H|H]|H]; auto. subst. auto.
Qed.

Lemma num_le_lteq a b : num_le a b <-> num_lt a b \/ a = b.
Proof.
  unfold num_le. split.
  - intros H. destruct (num_lt_total a b) as [L|[E|L]]; auto.
    unfold num_lt in L. congruence.
  - intros [H|H].
    + destruct (num_ltb b a) eqn:E; [|reflexivity].
      exfalso. exact (num_lt_irrefl a (num_lt_trans _ _ _ H E)).
    + subst. destruct (num_ltb b b) eqn:E; [|reflexivity].
      exfalso. exact (num_lt_irrefl b E).
Qed.

Module NumOrder <: TotalOrder.
Definition t := num.
Definition eq := @Logic.eq num.
Definition eq_equiv : Equivalence eq := eq_equivalence.
Definition lt := num_lt.
Definition le := num_le.
#[global] Instance lt_strorder : StrictOrder lt.
Proof.
  split.
  - intros x. apply num_lt_irrefl.
  - intros x y z. apply num_lt_trans.
Qed.
#[global] Instance lt_compat : Proper (eq ==> eq ==> iff) lt.
Proof. intros x x' Hx y y' Hy. unfold eq in *. subst. tauto. Qed.
Lemma le_lteq x y : le x y <-> lt x y \/ eq x y.
Proof. apply num_le_lteq. Qed.
Lemma lt_total x y : lt x y \/ eq x y \/ lt y x.
Proof. apply num_lt_total. Qed.
End NumOrder.

Module NumTac := MakeOrderTac NumOrder NumOrder.

Lemma num_le_or_lt a b : num_le a b \/ num_lt b a.
Proof. unfold num_le, num_lt. destruct (num_ltb b a); auto. Qed.

Lemma num_max_spec a b :
  (num_lt a b /\ num_max a b = b) \/ (num_le b a /\ num_max a b = a).
Proof. unfold num_max, num_lt, num_le. destruct (num_ltb a b); auto. Qed.

Lemma num_min_spec a b :
  (num_lt b a /\ num_min a b = b) \/ (num_le a b /\ num_min a b = a).
Proof. unfold num_min, num_lt, num_le. destruct (num_ltb b a); auto. Qed.

Lemma num_leb_true a b : num_leb a b = true <-> num_le a b.
Proof. unfold num_leb, num_le. destruct (num_ltb b a); cbn; split; congruence. Qed.

Lemma num_leb_false a b : num_leb a b = false <-> num_lt b a.
Proof. unfold num_leb, num_lt. destruct (num_ltb b a); cbn; split; congruence. Qed.

Lemma NegInf_least a : num_le NegInf a.
Proof. unfold num_le. destruct a; reflexivity. Qed.

Lemma PosInf_greatest a : num_le a PosInf.
Proof. unfold num_le. destruct a; reflexivity. Qed.

Lemma window_refl alpha beta v : window alpha beta v v.
Proof. unfold window. tauto. Qed.

Lemma window_cases alpha beta v v' :
  window alpha beta v v' ->
  (num_le v alpha /\ num_le v' alpha)
  \/ (num_lt alpha v /\ num_lt v beta /\ v' = v)
  \/ (num_lt alpha v /\ num_le beta v /\ num_le beta v').
Proof.
  intros [H1 [H2 H3]].
  destruct (num_le_or_lt v alpha) as [L|L]; [left; auto|].
  destruct (num_le_or_lt beta v) as [M|M]; [right; right; auto|].
  right; left; auto.
Qed.

(** The whole line as window: the alpha-beta score is the minimax score. *)
Lemma window_full v v' : window NegInf PosInf v v' -> v' = v.
Proof.
  intros H. pose proof (NegInf_least v). pose proof (NegInf_least v').
  pose proof (PosInf_greatest v). pose proof (PosInf_greatest v').
  destruct (window_cases _ _ _ _ H) as [[? ?]|[[? [? ?]]|[? [? ?]]]];
    NumTac.order.
Qed.

Ltac split_extrema :=
  repeat match goal with
    | |- context [num_max ?a ?b] =>
        let L := fresh "L" in let E := fresh "E" in
        destruct (num_max_spec a b) as [[L E] | [L E]]; rewrite E in *; clear E
    | H : context [num_max ?a ?b] |- _ =>
        let L := fresh "L" in let E := fresh "E" in
        destruct (num_max_spec a b) as [[L E] | [L E]]; rewrite E in *; clear E
    | |- context [num_min ?a ?b] =>
        let L := fresh "L" in let E := fresh "E" in
        destruct (num_min_spec a b) as [[L E] | [L E]]; rewrite E in *; clear E
    | H : context [num_min ?a ?b] |- _ =>
        let L := fresh "L" in let E := fresh "E" in
        destruct (num_min_spec a b) as [[L E] | [L E]]; rewrite E in *; clear E
    end.

Ltac window_goal :=
  lazymatch goal with
  | |- window _ _ _ _ =>
      unfold window; split; [|split]; intros; NumTac.order
  | |- _ => NumTac.order
  end.

(** ** The search never raises on a well-formed position *)

Lemma enPassantCandidates_row b row col c ep s :
  In s (enPassantCandidates b row col c ep) ->
  fst s = row + (if color_eqb c White then -1 else 1).
Proof.
  unfold enPassantCandidates, getEnPassantMoves.
  destruct ep as [e|]; [|intros []].
  destruct (readCell b row col) as [x|]; [|intros []]. cbn [bind].
  destruct (negb _); [intros []|]. cbv zeta.
  destruct (Z.eqb_spec (fst e) (row + (if color_eqb c White then -1 else 1)))
    as [E|E]; [|intros []].
  destruct (Z.abs _ =? 1); [|intros []].
  intros [<-|[]]. exact E.
Qed.

(** A candidate destination is a board square, or the en-passant target one
    row ahead of the pawn. *)
Lemma candidateMoves_shape b row col rights ep c p s :
  In s (candidateMoves b row col rights ep c p) ->
  validSquare s = true \/ Z.abs (fst s - row) = 1.
Proof.
  unfold candidateMoves. intros H.
  assert (V : In s (movesOfPiece b row col p) -> validSquare s = true)
    by apply movesOfPiece_valid.
  destruct (kind p); auto; apply in_app_or in H; destruct H as [H|H]; auto.
  - right. apply enPassantCandidates_row in H. destruct (color_eqb c White); lia.
  - left. exact (getCastlingMoves_valid _ _ _ _ _ s H).
Qed.

Lemma simulateMove_onBoard b m rights ep :
  onBoard (fst (moveFrom m)) = true -> onBoard (fst (moveTo m)) = true ->
  exists s,
    simulateMove b m rights ep = Ret s
    /\ newEnPassant s =
         if isType Pawn (cellAt b (fst (moveFrom m)) (snd (moveFrom m)))
            && (Z.abs (fst (moveTo m) - fst (moveFrom m)) =? 2)
         then Some ((fst (moveFrom m) + fst (moveTo m)) / 2, snd (moveTo m))
         else None.
Proof.
  intros Hf Ht. unfold simulateMove. cbv zeta.
  rewrite simulatedBoard_onBoard by assumption. cbn [bind fst snd].
  rewrite readCell_onBoard by assumption. cbn [bind].
  eexists. split; reflexivity.
Qed.

Lemma simulable_shape b m rights ep :
  validSquare (moveFrom m) = true -> onBoard (fst (moveTo m)) = true ->
  (validSquare (moveTo m) = true \/ Z.abs (fst (moveTo m) - fst (moveFrom m)) = 1) ->
  simulable b rights ep m.
Proof.
  intros Hf Ht Hs.
  destruct (simulateMove_onBoard b m rights ep (validSquare_onBoard _ Hf) Ht)
    as [s [Hsim He]].
  exists s. split; [exact Hsim|]. rewrite He.
  destruct (isType Pawn _ && _) eqn:E; [|reflexivity].
  apply andb_true_iff in E. destruct E as [_ E]. apply Z.eqb_eq in E.
  destruct Hs as [Hs|Hs]; [|lia].
  cbn [validTarget fst snd]. unfold validSquare in Hf, Hs.
  apply isValidCoord_spec in Hf. apply isValidCoord_spec in Hs.
  apply isValidCoord_spec.
  split; [|tauto].
  split; [apply Z.div_pos; lia | apply Z.div_lt_upper_bound; lia].
Qed.

(** Every legal move [getLegalMoves] returns for a piece of the board can
    be played by the search, whatever the en-passant target was. *)
Lemma getLegalMoves_simulable b c rights ep p legal d :
  In p (getPiecesOfColor b c) ->
  getLegalMoves b (prow p) (pcol p) rights ep c = Ret legal -> In d legal ->
  simulable b rights ep (mkMove (prow p, pcol p) d).
Proof.
  intros Hp Hl Hd.
  pose proof (getPiecesOfColor_onBoard _ _ _ Hp) as Hr.
  apply In_getPiecesOfColor in Hp. destruct Hp as [Hv [Hc Hs]].
  rewrite (getLegalMoves_filter _ _ _ _ _ _ _ Hr Hc Hs) in Hl.
  destruct (filterE_In _ _ _ _ Hl Hd) as [Hcand Hf].
  apply bind_Ret_inv in Hf. destruct Hf as [w [Hw _]].
  unfold wouldLeaveKingInCheck in Hw.
  apply bind_Ret_inv in Hw. destruct Hw as [sim [Hsim _]].
  apply simulatedBoard_Ret in Hsim. destruct Hsim as [_ Ht].
  apply simulable_shape; cbn [moveFrom moveTo fst snd].
  - exact Hv.
  - exact Ht.
  - exact (candidateMoves_shape _ _ _ _ _ _ _ _ Hcand).
Qed.

Lemma collectMoves_simulable b c rights ep pieces :
  (forall p, In p pieces -> In p (getPiecesOfColor b c)) ->
  forall moves,
    collectMoves b c rights ep pieces = Ret moves ->
    forall m, In m moves -> simulable b rights ep m.
Proof.
  induction pieces as [|p rest IH]; intros Hp moves H m Hm; cbn [collectMoves] in H.
  - apply Ret_inj in H. subst moves. destruct Hm.
  - apply bind_Ret_inv in H. destruct H as [legal [Hl H]].
    apply bind_Ret_inv in H. destruct H as [others [Ho H]].
    apply Ret_inj in H. subst moves.
    apply in_app_or in Hm. destruct Hm as [Hm|Hm].
    + apply in_map_iff in Hm. destruct Hm as [d [<- Hd]].
      apply (getLegalMoves_simulable b c rights ep p legal d); auto.
      apply Hp. left. reflexivity.
    + apply (IH (fun q Hq => Hp q (or_intror Hq)) others Ho m Hm).
Qed.

Lemma getAllLegalMoves_simulable b c rights ep moves :
  getAllLegalMoves b c rights ep = Ret moves ->
  forall m, In m moves -> simulable b rights ep m.
Proof.
  unfold getAllLegalMoves. apply collectMoves_simulable. auto.
Qed.

Lemma collectMoves_returns b c rights ep pieces :
  validTarget ep = true ->
  (forall p, In p pieces -> onBoard (prow p) = true) ->
  exists moves, collectMoves b c rights ep pieces = Ret moves.
Proof.
  intros Hep. induction pieces as [|p rest IH]; intros Hp; cbn [collectMoves].
  - eauto.
  - destruct (getLegalMoves_returns b (prow p) (pcol p) rights ep c
                (Hp p (or_introl eq_refl)) Hep) as [legal [-> _]].
    destruct IH as [others ->]; [intros q Hq; apply Hp; right; exact Hq|].
    cbn [bind]. eauto.
Qed.

Lemma getAllLegalMoves_returns b c rights ep :
  validTarget ep = true ->
  exists moves, getAllLegalMoves b c rights ep = Ret moves.
Proof.
  intros Hep. unfold getAllLegalMoves. apply collectMoves_returns; [exact Hep|].
  intros p. apply getPiecesOfColor_onBoard.
Qed.

Lemma noLegalMove_returns b c rights ep pieces :
  validTarget ep = true ->
  (forall p, In p pieces -> onBoard (prow p) = true) ->
  exists v, noLegalMove b c rights ep pieces = Ret v.
Proof.
  intros Hep. induction pieces as [|p rest IH]; intros Hp; cbn [noLegalMove].
  - eauto.
  - destruct (getLegalMoves_returns b (prow p) (pcol p) rights ep c
                (Hp p (or_introl eq_refl)) Hep) as [legal [-> _]].
    cbn [bind]. destruct legal; [|eauto].
    apply IH. intros q Hq. apply Hp. right. exact Hq.
Qed.

Lemma isCheckmate_returns b c rights ep :
  validTarget ep = true -> exists v, isCheckmate b c rights ep = Ret v.
Proof.
  intros Hep. unfold isCheckmate. destruct (isInCheck_returns b c) as [v ->].
  cbn [bind]. destruct (negb v); [eauto|].
  apply noLegalMove_returns; [exact Hep|]. intros p. apply getPiecesOfColor_onBoard.
Qed.

Lemma isStalemate_returns b c rights ep :
  validTarget ep = true -> exists v, isStalemate b c rights ep = Ret v.
Proof.
  intros Hep. unfold isStalemate. destruct (isInCheck_returns b c) as [v ->].
  cbn [bind]. destruct v; [eauto|].
  apply noLegalMove_returns; [exact Hep|]. intros p. apply getPiecesOfColor_onBoard.
Qed.

(** The minimax loop returns, and its result is on the right side of the
    best score it started from. *)
Lemma searchLoop_returns recur b rights ep (isMaximizing : bool) moves :
  (forall nb nc ne, validTarget ne = true -> exists s, recur nb nc ne = Ret s) ->
  (forall m, In m moves -> simulable b rights ep m) ->
  forall best,
  exists v,
    searchLoop recur b rights ep isMaximizing moves best = Ret v
    /\ (if isMaximizing then num_le best v else num_le v best).
Proof.
  intros Hrec. induction moves as [|m rest IH]; intros Hm best; cbn [searchLoop].
  - exists best. split; [reflexivity|]. destruct isMaximizing; NumTac.order.
  - destruct (Hm m (or_introl eq_refl)) as [s [-> Hs]].
    cbn [bind]. destruct (Hrec (newBoard s) (newCastling s) _ Hs) as [score ->].
    cbn [bind].
    destruct (IH (fun x Hx => Hm x (or_intror Hx))
                (if isMaximizing then num_max best score else num_min best score))
      as [v [-> Hv]].
    exists v. split; [reflexivity|].
    destruct isMaximizing; split_extrema; NumTac.order.
Qed.

(** ** Alpha-beta pruning keeps the minimax score *)

Ltac window_split W :=
  let H := fresh "H" in
  pose proof (window_cases _ _ _ _ W) as H;
  destruct H as [[? ?]|[[? [? ?]]|[? [? ?]]]].

Lemma window_max alpha0 beta0 P B s s' :
  window alpha0 beta0 P B ->
  window (num_max alpha0 B) beta0 s s' ->
  num_lt (num_max alpha0 B) beta0 ->
  window alpha0 beta0 (num_max P s) (num_max B s')
  /\ num_max (num_max alpha0 B) (num_max B s') = num_max alpha0 (num_max B s').
Proof.
  intros W0 W1 L.
  window_split W0; window_split W1; subst; clear W0 W1;
    split_extrema; (split; [window_goal | NumTac.order]).
Qed.

Lemma window_min alpha0 beta0 P B s s' :
  window alpha0 beta0 P B ->
  window alpha0 (num_min beta0 B) s s' ->
  num_lt alpha0 (num_min beta0 B) ->
  window alpha0 beta0 (num_min P s) (num_min B s')
  /\ num_min (num_min beta0 B) (num_min B s') = num_min beta0 (num_min B s').
Proof.
  intros W0 W1 L.
  window_split W0; window_split W1; subst; clear W0 W1;
    split_extrema; (split; [window_goal | NumTac.order]).
Qed.

(** At a cutoff the rest of the loop cannot bring the minimax score back
    inside the window. *)
Lemma window_cut_max alpha0 beta0 P B v :
  window alpha0 beta0 P B -> num_lt alpha0 beta0 ->
  num_le beta0 (num_max alpha0 B) -> num_le P v ->
  window alpha0 beta0 v B.
Proof.
  intros W L C M. window_split W; subst; clear W; split_extrema; window_goal.
Qed.

Lemma window_cut_min alpha0 beta0 P B v :
  window alpha0 beta0 P B -> num_lt alpha0 beta0 ->
  num_le (num_min beta0 B) alpha0 -> num_le v P ->
  window alpha0 beta0 v B.
Proof.
  intros W L C M. window_split W; subst; clear W; split_extrema; window_goal.
Qed.

Lemma num_max_le_lt a b c : num_lt (num_max a b) c -> num_lt a c.
Proof. intros H. split_extrema; NumTac.order. Qed.

Lemma num_min_le_lt a b c : num_lt c (num_min a b) -> num_lt c a.
Proof. intros H. split_extrema; NumTac.order. Qed.

Section Pruning.

(** The two recursive calls one ply deeper, related as the induction on
    the depth relates them. *)
Variable recur : board -> castlingRights -> option square -> exn num.
Variable recur' : board -> castlingRights -> option square -> num -> num -> exn num.
Hypothesis deeper :
  forall nb nc ne alpha beta,
    validTarget ne = true -> num_lt alpha beta ->
    exists s s',
      recur nb nc ne = Ret s /\ recur' nb nc ne alpha beta = Ret s'
      /\ window alpha beta s s'.

Variable b : board.
Variable rights : castlingRights.
Variable ep : option square.

Lemma recur_returns nb nc ne :
  validTarget ne = true -> exists s, recur nb nc ne = Ret s.
Proof.
  intros H. destruct (deeper nb nc ne NegInf PosInf H eq_refl) as [s [_ [Hs _]]].
  eauto.
Qed.

Lemma searchLoopAlphaBeta_max alpha0 beta0 moves :
  (forall m, In m moves -> simulable b rights ep m) ->
  forall P B,
    window alpha0 beta0 P B ->
    num_lt (num_max alpha0 B) beta0 ->
    exists v v',
      searchLoop recur b rights ep true moves P = Ret v
      /\ searchLoopAlphaBeta recur' b rights ep true moves B (num_max alpha0 B) beta0
         = Ret v'
      /\ window alpha0 beta0 v v'.
Proof.
  induction moves as [|m rest IH]; intros Hm P B W L;
    cbn [searchLoop searchLoopAlphaBeta].
  - exists P, B. auto.
  - destruct (Hm m (or_introl eq_refl)) as [s [-> Hs]].
    cbn [bind].
    destruct (deeper (newBoard s) (newCastling s) (newEnPassant s)
                (num_max alpha0 B) beta0 Hs L) as [score [score' [-> [-> W1]]]].
    cbn [bind]. cbv zeta.
    destruct (window_max _ _ _ _ _ _ W W1 L) as [W' ->].
    destruct (num_leb beta0 (num_max alpha0 (num_max B score'))) eqn:C.
    + apply num_leb_true in C.
      destruct (searchLoop_returns recur b rights ep true rest recur_returns
                  (fun x Hx => Hm x (or_intror Hx)) (num_max P score))
        as [v [-> Mv]].
      exists v, (num_max B score'). split; [reflexivity|]. split; [reflexivity|].
      apply (window_cut_max _ _ (num_max P score)); auto.
      exact (num_max_le_lt _ _ _ L).
    + apply num_leb_false in C.
      apply IH; auto. intros x Hx. apply Hm. right. exact Hx.
Qed.

Lemma searchLoopAlphaBeta_min alpha0 beta0 moves :
  (forall m, In m moves -> simulable b rights ep m) ->
  forall P B,
    window alpha0 beta0 P B ->
    num_lt alpha0 (num_min beta0 B) ->
    exists v v',
      searchLoop recur b rights ep false moves P = Ret v
      /\ searchLoopAlphaBeta recur' b rights ep false moves B alpha0 (num_min beta0 B)
         = Ret v'
      /\ window alpha0 beta0 v v'.
Proof.
  induction moves as [|m rest IH]; intros Hm P B W L;
    cbn [searchLoop searchLoopAlphaBeta].
  - exists P, B. auto.
  - destruct (Hm m (or_introl eq_refl)) as [s [-> Hs]].
    cbn [bind].
    destruct (deeper (newBoard s) (newCastling s) (newEnPassant s)
                alpha0 (num_min beta0 B) Hs L) as [score [score' [-> [-> W1]]]].
    cbn [bind]. cbv zeta.
    destruct (window_min _ _ _ _ _ _ W W1 L) as [W' ->].
    destruct (num_leb (num_min beta0 (num_min B score')) alpha0) eqn:C.
    + apply num_leb_true in C.
      destruct (searchLoop_returns recur b rights ep false rest recur_returns
                  (fun x Hx => Hm x (or_intror Hx)) (num_min P score))
        as [v [-> Mv]].
      exists v, (num_min B score'). split; [reflexivity|]. split; [reflexivity|].
      apply (window_cut_min _ _ (num_min P score)); auto.
      exact (num_min_le_lt _ _ _ L).
    + apply num_leb_false in C.
      apply IH; auto. intros x Hx. apply Hm. right. exact Hx.
Qed.

End Pruning.

Lemma num_max_NegInf a : num_max a NegInf = a.
Proof. pose proof (NegInf_least a). split_extrema; NumTac.order. Qed.

Lemma num_min_PosInf a : num_min a PosInf = a.
Proof. pose proof (PosInf_greatest a). split_extrema; NumTac.order. Qed.

Section Equivalence.

Variable evaluateBoard : board -> color -> num.

(** For every window from [alpha] below [beta], both searches return, and
    the alpha-beta score stands to the minimax score as [window] says. *)
Lemma minimaxSearchAlphaBeta_window depth :
  forall b c rights ep (isMaximizing : bool) alpha beta,
    validTarget ep = true -> num_lt alpha beta ->
    exists v v',
      minimaxSearch evaluateBoard b c rights ep depth isMaximizing = Ret v
      /\ minimaxSearchAlphaBeta evaluateBoard b c rights ep depth alpha beta isMaximizing
         = Ret v'
      /\ window alpha beta v v'.
Proof.
  induction depth as [|depth' IH]; intros b c rights ep isMaximizing alpha beta Hep L;
    cbn [minimaxSearch minimaxSearchAlphaBeta];
    destruct (isCheckmate_returns b (if isMaximizing then c else opponentOf c) rights ep
                Hep) as [mate ->];
    cbn [bind];
    (destruct mate; [eexists; eexists; split; [reflexivity|];
                     split; [reflexivity | apply window_refl]|]);
    destruct (isStalemate_returns b (if isMaximizing then c else opponentOf c) rights ep
                Hep) as [stale ->];
    cbn [bind];
    (destruct stale; [eexists; eexists; split; [reflexivity|];
                      split; [reflexivity | apply window_refl]|]);
    (destruct (isInsufficientMaterial b);
     [eexists; eexists; split; [reflexivity|];
      split; [reflexivity | apply window_refl]|]).
  - eexists; eexists; split; [reflexivity|]. split; [reflexivity | apply window_refl].
  - destruct (getAllLegalMoves_returns b (if isMaximizing then c else opponentOf c)
                rights ep Hep) as [moves Hg].
    pose proof (getAllLegalMoves_simulable _ _ _ _ _ Hg) as Hm.
    rewrite Hg. cbn [bind].
    destruct isMaximizing; cbn [negb].
    + assert (D : forall nb nc ne a be,
                 validTarget ne = true -> num_lt a be ->
                 exists s s',
                   minimaxSearch evaluateBoard nb c nc ne depth' false = Ret s
                   /\ minimaxSearchAlphaBeta evaluateBoard nb c nc ne depth' a be false
                      = Ret s'
                   /\ window a be s s')
        by (intros; apply IH; assumption).
      pose proof (searchLoopAlphaBeta_max
                    (fun nb nc ne => minimaxSearch evaluateBoard nb c nc ne depth' false)
                    (fun nb nc ne a be =>
                       minimaxSearchAlphaBeta evaluateBoard nb c nc ne depth' a be false)
                    D b rights ep alpha beta moves Hm NegInf NegInf) as H.
      rewrite num_max_NegInf in H. apply H; [apply window_refl | exact L].
    + assert (D : forall nb nc ne a be,
                 validTarget ne = true -> num_lt a be ->
                 exists s s',
                   minimaxSearch evaluateBoard nb c nc ne depth' true = Ret s
                   /\ minimaxSearchAlphaBeta evaluateBoard nb c nc ne depth' a be true
                      = Ret s'
                   /\ window a be s s')
        by (intros; apply IH; assumption).
      pose proof (searchLoopAlphaBeta_min
                    (fun nb nc ne => minimaxSearch evaluateBoard nb c nc ne depth' true)
                    (fun nb nc ne a be =>
                       minimaxSearchAlphaBeta evaluateBoard nb c nc ne depth' a be true)
                    D b rights ep alpha beta moves Hm PosInf PosInf) as H.
      rewrite num_min_PosInf in H. apply H; [apply window_refl | exact L].
Qed.

(** With any en-passant target the two searches raise together, before
    their loops, or return scores related as [window] says. *)
Lemma minimaxSearchAlphaBeta_any_target depth b c rights ep (isMaximizing : bool)
  alpha beta :
  num_lt alpha beta ->
  (minimaxSearch evaluateBoard b c rights ep depth isMaximizing = Throw
   /\ minimaxSearchAlphaBeta evaluateBoard b c rights ep depth alpha beta isMaximizing
      = Throw)
  \/ (exists v v',
         minimaxSearch evaluateBoard b c rights ep depth isMaximizing = Ret v
         /\ minimaxSearchAlphaBeta evaluateBoard b c rights ep depth alpha beta
              isMaximizing = Ret v'
         /\ window alpha beta v v').
Proof.
  intros L.
  assert (Same : forall v : num,
             exists x y, Ret v = Ret x /\ @Ret num v = Ret y /\ window alpha beta x y).
  { intros v. exists v, v. split; [reflexivity|].
    split; [reflexivity | apply window_refl]. }
  destruct depth as [|depth']; cbn [minimaxSearch minimaxSearchAlphaBeta];
    (destruct (isCheckmate b (if isMaximizing then c else opponentOf c) rights ep)
      as [mate|]; [|left; split; reflexivity]);
    cbn [bind];
    (destruct mate; [right; apply Same|]);
    (destruct (isStalemate b (if isMaximizing then c else opponentOf c) rights ep)
      as [stale|]; [|left; split; reflexivity]);
    cbn [bind];
    (destruct stale; [right; apply Same|]);
    (destruct (isInsufficientMaterial b); [right; apply Same|]).
  - right. apply Same.
  - destruct (getAllLegalMoves b (if isMaximizing then c else opponentOf c) rights ep)
      as [moves|] eqn:Hg; [|left; split; reflexivity].
    pose proof (getAllLegalMoves_simulable _ _ _ _ _ Hg) as Hm.
    cbn [bind]. right.
    destruct isMaximizing; cbn [negb].
    + pose proof (searchLoopAlphaBeta_max
                    (fun nb nc ne => minimaxSearch evaluateBoard nb c nc ne depth' false)
                    (fun nb nc ne a be =>
                       minimaxSearchAlphaBeta evaluateBoard nb c nc ne depth' a be false)
                    (fun nb nc ne a be =>
                       minimaxSearchAlphaBeta_window depth' nb c nc ne false a be)
                    b rights ep alpha beta moves Hm NegInf NegInf) as H.
      rewrite num_max_NegInf in H. apply H; [apply window_refl | exact L].
    + pose proof (searchLoopAlphaBeta_min
                    (fun nb nc ne => minimaxSearch evaluateBoard nb c nc ne depth' true)
                    (fun nb nc ne a be =>
                       minimaxSearchAlphaBeta evaluateBoard nb c nc ne depth' a be true)
                    (fun nb nc ne a be =>
                       minimaxSearchAlphaBeta_window depth' nb c nc ne true a be)
                    b rights ep alpha beta moves Hm PosInf PosInf) as H.
      rewrite num_min_PosInf in H. apply H; [apply window_refl | exact L].
Qed.

(** C4.  Alpha-beta equivalence: for every board, colour, rights,
    en-passant target, depth and maximizing flag, alpha-beta search started
    with alpha = -Infinity and beta = +Infinity gives what plain minimax
    gives on the same arguments; and with a target that is none or a board
    square what both give is a score. *)
Theorem alpha_beta_equals_minimax b c rights ep depth (isMaximizing : bool) :
  minimaxSearchAlphaBeta evaluateBoard b c rights ep depth NegInf PosInf isMaximizing
  = minimaxSearch evaluateBoard b c rights ep depth isMaximizing
  /\ (validTarget ep = true ->
      exists v,
        minimaxSearch evaluateBoard b c rights ep depth isMaximizing = Ret v
        /\ minimaxSearchAlphaBeta evaluateBoard b c rights ep depth NegInf PosInf
             isMaximizing = Ret v).
Proof.
  split.
  - destruct (minimaxSearchAlphaBeta_any_target depth b c rights ep isMaximizing
                NegInf PosInf eq_refl) as [[-> ->] | [v [v' [-> [-> W]]]]].
    + reflexivity.
    + f_equal. exact (window_full _ _ W).
  - intros Hep.
    destruct (minimaxSearchAlphaBeta_window depth b c rights ep isMaximizing
                NegInf PosInf Hep eq_refl) as [v [v' [Hv [Hv' W]]]].
    exists v. split; [exact Hv|]. rewrite Hv'. f_equal. exact (window_full _ _ W).
Qed.

End Equivalence.

(** C4 at the initial position, searched two plies deep for white with the
    material balance as evaluator. *)
Lemma alpha_beta_equals_minimax_witness :
  exists v,
    minimaxSearch materialBalance initializeBoard White allRights None 2 true = Ret v
    /\ minimaxSearchAlphaBeta materialBalance initializeBoard White allRights None 2
         NegInf PosInf true = Ret v.
Proof.
  exact (proj2 (alpha_beta_equals_minimax materialBalance initializeBoard White allRights
                  None 2 true) eq_refl).
Defined.

(** ** The root of the alpha-beta search *)

Section Root.

Variable evaluateBoard : board -> color -> num.
Variable b : board.
Variable c : color.
Variable rights : castlingRights.
Variable ep : option square.
Variable depth' : nat.
Hypothesis target : validTarget ep = true.

(** Once the best value is the score [v] of the unmoved board and the
    window has closed on it from below, no later iteration of the maximizing
    root changes the move. *)
Lemma rootLoopAlphaBeta_max_settled v first :
  minimaxSearch evaluateBoard b c rights ep depth' false = Ret v ->
  num_lt v PosInf ->
  forall moves,
    rootLoopAlphaBeta evaluateBoard b c rights ep depth' true moves first v v PosInf
    = Ret first.
Proof.
  intros Hv L. induction moves as [|m rest IH]; cbn [rootLoopAlphaBeta negb].
  - reflexivity.
  - destruct (minimaxSearchAlphaBeta_window evaluateBoard depth' b c rights ep false
                v PosInf target L) as [x [s [Hx [-> W]]]].
    rewrite Hv in Hx. apply Ret_inj in Hx. subst x.
    cbn [bind negb]. cbv zeta.
    assert (N : num_ltb v s = false).
    { destruct W as [W1 _]. apply W1. NumTac.order. }
    rewrite N.
    assert (M : num_max v v = v) by (split_extrema; NumTac.order).
    rewrite M.
    assert (C : num_leb PosInf v = false) by (apply num_leb_false; exact L).
    rewrite C. exact IH.
Qed.

Lemma rootLoopAlphaBeta_min_settled v first :
  minimaxSearch evaluateBoard b c rights ep depth' true = Ret v ->
  num_lt NegInf v ->
  forall moves,
    rootLoopAlphaBeta evaluateBoard b c rights ep depth' false moves first v NegInf v
    = Ret first.
Proof.
  intros Hv L. induction moves as [|m rest IH]; cbn [rootLoopAlphaBeta negb].
  - reflexivity.
  - destruct (minimaxSearchAlphaBeta_window evaluateBoard depth' b c rights ep true
                NegInf v target L) as [x [s [Hx [-> W]]]].
    rewrite Hv in Hx. apply Ret_inj in Hx. subst x.
    cbn [bind negb]. cbv zeta.
    assert (N : num_ltb s v = false).
    { destruct W as [_ [W2 _]]. apply W2. NumTac.order. }
    rewrite N.
    assert (M : num_min v v = v) by (split_extrema; NumTac.order).
    rewrite M.
    assert (C : num_leb v NegInf = false) by (apply num_leb_false; exact L).
    rewrite C. exact IH.
Qed.

Lemma num_max_comm_NegInf a : num_max NegInf a = a.
Proof. pose proof (NegInf_least a). split_extrema; NumTac.order. Qed.

Lemma num_min_comm_PosInf a : num_min PosInf a = a.
Proof. pose proof (PosInf_greatest a). split_extrema; NumTac.order. Qed.

(** On the unmoved board both searches return the same score when the
    window is the whole line. *)
Lemma alpha_beta_window_root (isMaximizing : bool) :
  exists v,
    minimaxSearch evaluateBoard b c rights ep depth' (negb isMaximizing) = Ret v
    /\ minimaxSearchAlphaBeta evaluateBoard b c rights ep depth' NegInf PosInf
         (negb isMaximizing) = Ret v.
Proof.
  destruct (minimaxSearchAlphaBeta_window evaluateBoard depth' b c rights ep
              (negb isMaximizing) NegInf PosInf target eq_refl)
    as [v [v' [Hv [Hv' W]]]].
  exists v. split; [exact Hv|]. rewrite Hv'. f_equal. exact (window_full _ _ W).
Qed.

(** The root [minimaxAlphaBeta], called with the whole line as window as
    [findBestMove] calls it, returns the first legal move too. *)
Lemma minimaxAlphaBeta_picks_first_move (isMaximizing : bool) first rest :
  getAllLegalMoves b c rights ep = Ret (first :: rest) ->
  minimaxAlphaBeta evaluateBoard b c rights ep (S depth') NegInf PosInf isMaximizing
  = Ret (Some first).
Proof.
  intros Hm. unfold minimaxAlphaBeta. rewrite Hm. cbn [bind rootLoopAlphaBeta].
  destruct (alpha_beta_window_root isMaximizing) as [v [Hv Hv']].
  rewrite Hv'. cbn [bind]. cbv zeta.
  destruct isMaximizing; cbn [negb] in *.
  - assert (B : (if num_ltb NegInf v then v else NegInf) = v).
    { destruct (num_ltb NegInf v) eqn:E; [reflexivity|].
      pose proof (NegInf_least v). change (num_le v NegInf) in E. NumTac.order. }
    rewrite B. rewrite num_max_comm_NegInf.
    destruct (num_leb PosInf v) eqn:C.
    + destruct (num_ltb NegInf v); reflexivity.
    + apply num_leb_false in C.
      replace (if num_ltb NegInf v then first else first) with first
        by (destruct (num_ltb NegInf v); reflexivity).
      rewrite (rootLoopAlphaBeta_max_settled v first Hv C). reflexivity.
  - assert (B : (if num_ltb v PosInf then v else PosInf) = v).
    { destruct (num_ltb v PosInf) eqn:E; [reflexivity|].
      pose proof (PosInf_greatest v). change (num_le PosInf v) in E. NumTac.order. }
    rewrite B. rewrite num_min_comm_PosInf.
    destruct (num_leb v NegInf) eqn:C.
    + destruct (num_ltb v PosInf); reflexivity.
    + apply num_leb_false in C.
      replace (if num_ltb v PosInf then first else first) with first
        by (destruct (num_ltb v PosInf); reflexivity).
      rewrite (rootLoopAlphaBeta_min_settled v first Hv C). reflexivity.
Qed.

End Root.

(** * Further properties *)

(** ** The move generators, square by square *)

Lemma In_stepMoves b row col c offsets s :
  In s (stepMoves b row col c offsets) <->
  exists o, In o offsets /\ s = (row + fst o, col + snd o)
            /\ validSquare s = true /\ notOwn b c s.
Proof.
  unfold stepMoves, notOwn, validSquare. rewrite in_flat_map. cbv zeta.
  split.
  - intros [o [Ho Hs]]. exists o. split; [exact Ho|].
    destruct (isValidCoord _ _) eqn:E; [|destruct Hs].
    destruct (friendly _ _) eqn:F; [destruct Hs|].
    destruct Hs as [<-|[]]. cbn [fst snd]. auto.
  - intros [o [Ho [-> [E F]]]]. exists o. split; [exact Ho|].
    cbn [fst snd] in E, F. rewrite E, F. left. reflexivity.
Qed.

Lemma In_ray b c row col dr dc n :
  forall dist s,
    In s (ray b c row col dr dc dist n) <->
    exists j, dist <= j < dist + Z.of_nat n
              /\ s = along row col (dr, dc) j
              /\ validSquare s = true /\ notOwn b c s
              /\ forall i, dist <= i < j ->
                           validSquare (along row col (dr, dc) i) = true
                           /\ emptyAt b (along row col (dr, dc) i).
Proof.
  unfold along, notOwn, emptyAt, validSquare. cbn [fst snd].
  induction n as [|n IH]; intros dist s.
  - cbn [ray In]. split; [tauto|]. intros [j [Hj _]]. lia.
  - cbn [ray]. cbv zeta. split.
    + destruct (isValidCoord _ _) eqn:E; [|intros []].
      destruct (cellAt b _ _) as [t|] eqn:C.
      * destruct (color_eqb _ _) eqn:F; [intros []|].
        intros [<-|[]]. exists dist. cbn [fst snd]. rewrite C.
        repeat split; try lia; auto.
      * intros [<-|Hs].
        -- exists dist. cbn [fst snd]. rewrite C.
           repeat split; try lia; auto.
        -- apply IH in Hs. destruct Hs as [j [Hj [-> [V [F Hi]]]]].
           exists j. repeat split; try lia; auto.
           ++ destruct (Z.eq_dec i dist) as [->|N]; [exact E|].
              apply Hi. lia.
           ++ destruct (Z.eq_dec i dist) as [->|N]; [exact C|].
              apply Hi. lia.
    + intros [j [Hj [-> [V [F Hi]]]]]. cbn [fst snd] in V, F.
      destruct (Z.eq_dec j dist) as [->|N].
      * rewrite V. destruct (cellAt b _ _) as [t|] eqn:C.
        -- cbn [friendly] in F. rewrite F. left. reflexivity.
        -- left. reflexivity.
      * destruct (Hi dist ltac:(lia)) as [E C]. rewrite E, C.
        right. apply IH. exists j. repeat split; try lia; auto.
        -- apply Hi. lia.
        -- apply Hi. lia.
Qed.

(** Between two board squares of a line every square is a board square. *)
Lemma along_between row col d j i :
  isValidCoord row col = true -> validSquare (along row col d j) = true ->
  0 <= i <= j -> validSquare (along row col d i) = true.
Proof.
  unfold validSquare, along. cbn [fst snd].
  rewrite !isValidCoord_spec. intros [R C] [R' C'] Hi.
  assert (M : forall x, (0 <= x * i <= x * j) \/ (x * j <= x * i <= 0)).
  { intros x. destruct (Z_le_gt_dec 0 x) as [P|N]; [left|right]; split.
    - apply Z.mul_nonneg_nonneg; lia.
    - apply Z.mul_le_mono_nonneg_l; lia.
    - apply Z.mul_le_mono_nonpos_l; lia.
    - apply Z.mul_nonpos_nonneg; lia. }
  destruct (M (fst d)), (M (snd d)); lia.
Qed.

Lemma In_slide b row col c directions s :
  isValidCoord row col = true ->
  (In s (slide b row col c directions) <-> slides b row col c directions s).
Proof.
  intros O. unfold slide, slides. rewrite in_flat_map. split.
  - intros [d [Hd Hs]]. apply In_ray in Hs.
    destruct Hs as [j [Hj [-> [V [F Hi]]]]].
    exists d, j. destruct d as [dr dc]. cbn [fst snd] in *.
    repeat split; try lia; auto. intros i Hi'. apply Hi. lia.
  - intros [d [j [Hd [Hj [-> [V [F Hi]]]]]]].
    exists d. split; [exact Hd|]. apply In_ray.
    exists j. destruct d as [dr dc]. cbn [fst snd] in *.
    split; [lia|]. split; [reflexivity|]. split; [exact V|]. split; [exact F|].
    intros i Hi'. split.
    + apply (along_between row col (dr, dc) j i O V). lia.
    + apply Hi. lia.
Qed.

Lemma In_knightOffsets o :
  In o knightOffsets <->
  ((Z.abs (fst o) = 1 /\ Z.abs (snd o) = 2) \/ (Z.abs (fst o) = 2 /\ Z.abs (snd o) = 1)).
Proof.
  destruct o as [x y]. cbn [fst snd]. split.
  - cbn. intros H.
    repeat (destruct H as [H|H];
            [apply pair_equal_spec in H; destruct H as [<- <-]; cbn; lia|]).
    destruct H.
  - intros H.
    assert (X : x = 1 \/ x = -1 \/ x = 2 \/ x = -2) by lia.
    assert (Y : y = 1 \/ y = -1 \/ y = 2 \/ y = -2) by lia.
    destruct X as [-> | [-> | [-> | ->]]], Y as [-> | [-> | [-> | ->]]];
      cbn in H; try lia; cbn; tauto.
Qed.

Lemma In_kingOffsets o :
  In o kingOffsets <->
  (Z.abs (fst o) <= 1 /\ Z.abs (snd o) <= 1 /\ o <> (0, 0)).
Proof.
  destruct o as [x y]. cbn [fst snd]. split.
  - cbn. intros H.
    repeat (destruct H as [H|H];
            [apply pair_equal_spec in H; destruct H as [<- <-];
             cbn; repeat split; try lia; discriminate|]).
    destruct H.
  - intros [X [Y N]].
    assert (X' : x = 0 \/ x = 1 \/ x = -1) by lia.
    assert (Y' : y = 0 \/ y = 1 \/ y = -1) by lia.
    destruct X' as [-> | [-> | ->]], Y' as [-> | [-> | ->]];
      try (exfalso; apply N; reflexivity); cbn; tauto.
Qed.

Lemma offset_of_square row col (s : square) :
  s = (row + fst (fst s - row, snd s - col), col + snd (fst s - row, snd s - col)).
Proof. destruct s as [r k]. cbn [fst snd]. f_equal; lia. Qed.

Lemma getKingMoves_squares b row col c s :
  In s (getKingMoves b row col c) <->
  (validSquare s = true /\ notOwn b c s
   /\ Z.abs (fst s - row) <= 1 /\ Z.abs (snd s - col) <= 1 /\ s <> (row, col)).
Proof.
  unfold getKingMoves. rewrite In_stepMoves. split.
  - intros [o [Ho [-> [V F]]]]. split; [exact V|]. split; [exact F|].
    apply In_kingOffsets in Ho. destruct Ho as [X [Y N]]. cbn [fst snd].
    replace (row + fst o - row) with (fst o) by lia.
    replace (col + snd o - col) with (snd o) by lia.
    split; [exact X|]. split; [exact Y|].
    intros E. apply pair_equal_spec in E. apply N.
    destruct o as [x y]. cbn [fst snd] in E. f_equal; lia.
  - intros [V [F [X [Y N]]]]. exists (fst s - row, snd s - col).
    split.
    + apply In_kingOffsets. cbn [fst snd]. split; [exact X|]. split; [exact Y|].
      intros E. apply pair_equal_spec in E. apply N.
      destruct s as [r k]. cbn [fst snd] in E. f_equal; lia.
    + split; [apply offset_of_square|]. split; assumption.
Qed.

Lemma enemy_piece x c :
  occupied x && negb (friendly x c) = true <-> exists t, x = Some t /\ side t <> c.
Proof.
  destruct x as [t|]; cbn.
  - split.
    + intros H. exists t. split; [reflexivity|].
      intros E. apply color_eqb_eq in E. rewrite E in H. discriminate.
    + intros [t' [E N]]. injection E as <-.
      destruct (color_eqb (side t) c) eqn:F; [|reflexivity].
      apply color_eqb_eq in F. contradiction.
  - split; [discriminate|]. intros [t [E _]]. discriminate.
Qed.

Lemma getPawnMoves_squares b row col c s :
  In s (getPawnMoves b row col c) <-> pawnStep b row col c s.
Proof.
  unfold getPawnMoves, pawnStep, pawnDirection, pawnStartRow, emptyAt, validSquare.
  cbv zeta. rewrite in_app_iff.
  set (direction := if color_eqb c White then -1 else 1).
  set (startRow := if color_eqb c White then 6 else 1).
  assert (Fwd :
    In s (if isValidCoord (row + direction) col
             && negb (occupied (cellAt b (row + direction) col))
          then (row + direction, col)
               :: (if row =? startRow
                   then if negb (occupied (cellAt b (row + 2 * direction) col))
                        then [(row + 2 * direction, col)] else []
                   else [])
          else [])
    <-> ((s = (row + direction, col) /\ isValidCoord (fst s) (snd s) = true
          /\ cellAt b (fst s) (snd s) = None)
         \/ (s = (row + 2 * direction, col) /\ row = startRow
             /\ isValidCoord (row + direction) col = true
             /\ cellAt b (row + direction) col = None
             /\ cellAt b (fst s) (snd s) = None))).
  { destruct (isValidCoord (row + direction) col) eqn:V; cbn [andb].
    - destruct (cellAt b (row + direction) col) as [t|] eqn:C; cbn [occupied negb].
      + split; [intros []|].
        intros [[-> [_ H]]|[_ [_ [_ [H _]]]]]; cbn [fst snd] in H;
          congruence.
      + split.
        * intros [<-|H]; [left; cbn [fst snd]; auto|].
          destruct (Z.eqb_spec row startRow) as [R|R]; [|destruct H].
          destruct (cellAt b (row + 2 * direction) col) as [t|] eqn:C2;
            cbn [occupied negb] in H; [destruct H|].
          destruct H as [<-|[]]. right. cbn [fst snd]. auto.
        * intros [[-> _]|[-> [R [_ [_ H]]]]]; [left; reflexivity|].
          right. cbn [fst snd] in H.
          destruct (Z.eqb_spec row startRow) as [_|N]; [|contradiction].
          rewrite H. cbn. left. reflexivity.
    - split; [intros []|].
      intros [[-> [H _]]|[_ [_ [H _]]]]; cbn [fst snd] in H; congruence. }
  rewrite Fwd. clear Fwd.
  assert (Cap :
    In s (flat_map
            (fun dCol : Z =>
               if isValidCoord (row + direction) (col + dCol)
               then if occupied (cellAt b (row + direction) (col + dCol))
                       && negb (friendly (cellAt b (row + direction) (col + dCol)) c)
                    then [(row + direction, col + dCol)] else []
               else []) [-1; 1])
    <-> (fst s = row + direction /\ (snd s = col - 1 \/ snd s = col + 1)
         /\ isValidCoord (fst s) (snd s) = true
         /\ exists t, cellAt b (fst s) (snd s) = Some t /\ side t <> c)).
  { rewrite in_flat_map. split.
    - intros [dCol [D H]].
      destruct (isValidCoord _ _) eqn:V; [|destruct H].
      destruct (_ && _) eqn:E; [|destruct H].
      destruct H as [<-|[]]. cbn [fst snd].
      apply enemy_piece in E.
      split; [reflexivity|]. split; [|split; assumption].
      destruct D as [<-|[<-|[]]]; lia.
    - intros [R [K [V E]]]. apply enemy_piece in E.
      destruct s as [r k]. cbn [fst snd] in *. subst r.
      destruct K as [-> | ->].
      + exists (-1). split; [cbn; tauto|].
        replace (col + -1) with (col - 1) by lia.
        rewrite V, E. left. reflexivity.
      + exists 1. split; [cbn; tauto|].
        rewrite V, E. left. reflexivity. }
  rewrite Cap. clear Cap. tauto.
Qed.

Lemma emptyAt_notOwn b c s : emptyAt b s -> notOwn b c s.
Proof. unfold emptyAt, notOwn. intros ->. reflexivity. Qed.

Lemma movesOfPiece_notOwn b row col p s :
  In s (movesOfPiece b row col p) -> notOwn b (side p) s.
Proof.
  unfold movesOfPiece. destruct (kind p).
  - intros H. apply getPawnMoves_squares in H.
    destruct H as [[_ [_ E]]|[[_ [_ [_ [_ E]]]]|[_ [_ [_ [t [E N]]]]]]].
    + apply emptyAt_notOwn, E.
    + apply emptyAt_notOwn, E.
    + unfold notOwn. rewrite E. cbn.
      destruct (color_eqb (side t) (side p)) eqn:F; [|reflexivity].
      apply color_eqb_eq in F. contradiction.
  - intros H. apply In_stepMoves in H. destruct H as [o [_ [_ [_ F]]]]. exact F.
  - intros H. apply in_flat_map in H. destruct H as [d [_ H]].
    apply In_ray in H. destruct H as [j [_ [_ [_ [F _]]]]]. exact F.
  - intros H. apply in_flat_map in H. destruct H as [d [_ H]].
    apply In_ray in H. destruct H as [j [_ [_ [_ [F _]]]]]. exact F.
  - intros H. apply in_flat_map in H. destruct H as [d [_ H]].
    apply In_ray in H. destruct H as [j [_ [_ [_ [F _]]]]]. exact F.
  - intros H. apply In_stepMoves in H. destruct H as [o [_ [_ [_ F]]]]. exact F.
Qed.

(** X1.  Pseudo-legal destinations: whatever [getPseudoLegalMoves] returns
    for a square, the square holds a piece, and every destination is a board
    square, is not the origin and holds no piece of the mover's colour. *)
Theorem pseudo_legal_moves_avoid_own_pieces b row col moves s :
  getPseudoLegalMoves b row col = Ret moves -> In s moves ->
  exists p, cellAt b row col = Some p
            /\ validSquare s = true
            /\ friendly (cellAt b (fst s) (snd s)) (side p) = false
            /\ s <> (row, col).
Proof.
  unfold getPseudoLegalMoves. intros H Hs.
  apply bind_Ret_inv in H. destruct H as [x [R H]].
  apply readCell_Ret in R. destruct R as [_ ->].
  destruct (cellAt b row col) as [p|] eqn:C.
  - apply Ret_inj in H. subst moves. exists p.
    split; [reflexivity|].
    split; [apply (movesOfPiece_valid b row col p), Hs|].
    pose proof (movesOfPiece_notOwn b row col p s Hs) as F.
    split; [exact F|].
    intros ->. unfold notOwn in F. cbn [fst snd] in F. rewrite C in F.
    cbn in F. rewrite color_eqb_refl in F. discriminate.
  - apply Ret_inj in H. subst moves. destruct Hs.
Qed.

Lemma pseudo_legal_moves_avoid_own_pieces_witness :
  exists p, cellAt initializeBoard 7 1 = Some p
            /\ validSquare (5, 2) = true
            /\ friendly (cellAt initializeBoard 5 2) (side p) = false
            /\ (5, 2) <> (7, 1).
Proof.
  apply (pseudo_legal_moves_avoid_own_pieces initializeBoard 7 1 [(5, 0); (5, 2)] (5, 2)).
  - vm_compute. reflexivity.
  - right. left. reflexivity.
Defined.

(** X2.  Sliding pieces: for a rook, a bishop or a queen on a board square
    the destinations are exactly the board squares 1 to 7 steps away along
    one of its directions (the four orthogonal ones, the four diagonal ones,
    all eight) that hold no piece of the mover's colour and are reached over
    empty squares only.  A sliding piece never jumps and never takes a piece
    of its own colour. *)
Theorem sliding_moves_stop_at_the_first_piece b row col c s :
  isValidCoord row col = true ->
  (In s (getRookMoves b row col c) <-> slides b row col c rookDirections s)
  /\ (In s (getBishopMoves b row col c) <-> slides b row col c bishopDirections s)
  /\ (In s (getQueenMoves b row col c)
      <-> slides b row col c (rookDirections ++ bishopDirections) s).
Proof.
  intros O. unfold getRookMoves, getBishopMoves, getQueenMoves.
  split; [|split]; apply In_slide; exact O.
Qed.

Lemma sliding_moves_stop_at_the_first_piece_witness :
  (In (3, 4) (getRookMoves kingOffHome 7 4 White)
   <-> slides kingOffHome 7 4 White rookDirections (3, 4))
  /\ (In (3, 4) (getBishopMoves kingOffHome 7 4 White)
      <-> slides kingOffHome 7 4 White bishopDirections (3, 4))
  /\ (In (3, 4) (getQueenMoves kingOffHome 7 4 White)
      <-> slides kingOffHome 7 4 White (rookDirections ++ bishopDirections) (3, 4)).
Proof.
  apply (sliding_moves_stop_at_the_first_piece kingOffHome 7 4 White (3, 4)).
  reflexivity.
Defined.

(** X3.  Knight: the destinations of [getKnightMoves] are exactly the board
    squares one row and two columns away, or two rows and one column away,
    that hold no piece of the mover's colour. *)
Theorem knight_moves_are_the_jumps b row col c s :
  In s (getKnightMoves b row col c) <->
  (validSquare s = true
   /\ friendly (cellAt b (fst s) (snd s)) c = false
   /\ ((Z.abs (fst s - row) = 1 /\ Z.abs (snd s - col) = 2)
       \/ (Z.abs (fst s - row) = 2 /\ Z.abs (snd s - col) = 1))).
Proof.
  unfold getKnightMoves. rewrite In_stepMoves. unfold notOwn. split.
  - intros [o [Ho [-> [V F]]]]. split; [exact V|]. split; [exact F|].
    apply In_knightOffsets in Ho. cbn [fst snd].
    replace (row + fst o - row) with (fst o) by lia.
    replace (col + snd o - col) with (snd o) by lia. exact Ho.
  - intros [V [F G]]. exists (fst s - row, snd s - col).
    split; [apply In_knightOffsets; exact G|].
    split; [apply offset_of_square|]. split; assumption.
Qed.

(** X4.  King steps: the destinations of [getKingMoves] are exactly the
    board squares other than the origin, at most one row and at most one
    column away, that hold no piece of the mover's colour. *)
Theorem king_moves_are_the_neighbours b row col c s :
  In s (getKingMoves b row col c) <->
  (validSquare s = true
   /\ friendly (cellAt b (fst s) (snd s)) c = false
   /\ Z.abs (fst s - row) <= 1 /\ Z.abs (snd s - col) <= 1 /\ s <> (row, col)).
Proof. apply getKingMoves_squares. Qed.

(** X5.  Pawn: the destinations of [getPawnMoves] are exactly the square
    one row ahead when it is an empty board square, the square two rows
    ahead from the start row (row 6 for white, row 1 for black) when both
    squares are empty, and the board squares one row ahead on the two
    neighbouring columns that hold a piece of the other colour.  A pawn
    never moves backwards or sideways and never takes straight ahead. *)
Theorem pawn_moves_go_forward b row col c s :
  In s (getPawnMoves b row col c) <-> pawnStep b row col c s.
Proof. apply getPawnMoves_squares. Qed.

(** ** Checkmate, stalemate and the list of legal moves *)

Lemma noLegalMove_true b c rights ep pieces :
  noLegalMove b c rights ep pieces = Ret true <->
  (forall p, In p pieces -> getLegalMoves b (prow p) (pcol p) rights ep c = Ret []).
Proof.
  induction pieces as [|p rest IH]; cbn [noLegalMove].
  - split; [intros _ p []|reflexivity].
  - split.
    + intros H. apply bind_Ret_inv in H. destruct H as [legal [L H]].
      destruct legal as [|m legal]; [|discriminate].
      intros q [<-|Hq]; [exact L|]. apply IH; assumption.
    + intros H. rewrite (H p (or_introl eq_refl)). cbn [bind].
      apply IH. intros q Hq. apply H. right. exact Hq.
Qed.

Lemma collectMoves_nil b c rights ep pieces :
  collectMoves b c rights ep pieces = Ret [] <->
  (forall p, In p pieces -> getLegalMoves b (prow p) (pcol p) rights ep c = Ret []).
Proof.
  induction pieces as [|p rest IH]; cbn [collectMoves].
  - split; [intros _ p []|reflexivity].
  - split.
    + intros H. apply bind_Ret_inv in H. destruct H as [legal [L H]].
      apply bind_Ret_inv in H. destruct H as [others [O H]].
      apply Ret_inj in H. apply app_eq_nil in H. destruct H as [H1 H2].
      apply map_eq_nil in H1. subst legal others.
      intros q [<-|Hq]; [exact L|]. apply IH; assumption.
    + intros H. rewrite (H p (or_introl eq_refl)). cbn [bind].
      assert (R : collectMoves b c rights ep rest = Ret []).
      { apply IH. intros q Hq. apply H. right. exact Hq. }
      rewrite R. reflexivity.
Qed.

Lemma In_collectMoves b c rights ep pieces :
  forall moves,
    collectMoves b c rights ep pieces = Ret moves ->
    forall m,
      In m moves <->
      exists p legal,
        In p pieces
        /\ getLegalMoves b (prow p) (pcol p) rights ep c = Ret legal
        /\ moveFrom m = (prow p, pcol p) /\ In (moveTo m) legal.
Proof.
  induction pieces as [|p rest IH]; cbn [collectMoves]; intros moves H m.
  - apply Ret_inj in H. subst moves. split; [intros []|].
    intros [p [legal [[] _]]].
  - apply bind_Ret_inv in H. destruct H as [legal [L H]].
    apply bind_Ret_inv in H. destruct H as [others [O H]].
    apply Ret_inj in H. subst moves. rewrite in_app_iff, in_map_iff.
    rewrite (IH others O m). split.
    + intros [[d [<- Hd]]|[q [lq [Hq R]]]].
      * exists p, legal. cbn. auto.
      * exists q, lq. split; [right; exact Hq|exact R].
    + intros [q [lq [[<-|Hq] [Lq [F T]]]]].
      * left. rewrite L in Lq. apply Ret_inj in Lq. subst lq.
        exists (moveTo m). split; [|exact T].
        destruct m as [f t]. cbn in *. subst f. reflexivity.
      * right. exists q, lq. auto.
Qed.

Lemma noMoveAnywhere_pieces b c rights ep :
  noMoveAnywhere b c rights ep <->
  (forall p, In p (getPiecesOfColor b c) ->
             getLegalMoves b (prow p) (pcol p) rights ep c = Ret []).
Proof.
  unfold noMoveAnywhere. split.
  - intros H p Hp. apply H. apply (getPiecesOfColor_onBoard b c p Hp).
  - intros H row col R.
    destruct (cellAt b row col) as [p|] eqn:C.
    + destruct (color_eqb (side p) c) eqn:S.
      * apply color_eqb_eq in S.
        apply (H (mkPlaced p row col)). apply In_getPiecesOfColor. cbn.
        split; [|split; assumption].
        unfold cellAt in C. destruct (isValidCoord row col); [reflexivity|discriminate].
      * apply (getLegalMoves_other_color b row col rights ep c p R C).
        intros E. apply color_eqb_eq in E. congruence.
    + apply getLegalMoves_empty_cell; assumption.
Qed.

(** X6.  Checkmate: [isCheckmate] returns true exactly when [isInCheck]
    returns true for the colour and [getLegalMoves] returns the empty list
    for the colour on every square of the eight rows. *)
Theorem isCheckmate_iff_check_and_no_move b c rights ep :
  isCheckmate b c rights ep = Ret true <->
  (isInCheck b c = Ret true /\ noMoveAnywhere b c rights ep).
Proof.
  rewrite noMoveAnywhere_pieces, <- noLegalMove_true. unfold isCheckmate.
  destruct (isInCheck_returns b c) as [v ->]. cbn [bind].
  destruct v; cbn [negb].
  - split; [intros H; split; [reflexivity|exact H]|intros [_ H]; exact H].
  - split; [discriminate|intros [H _]; discriminate].
Qed.

(** X7.  Stalemate: [isStalemate] returns true exactly when [isInCheck]
    returns false for the colour and [getLegalMoves] returns the empty list
    for the colour on every square of the eight rows. *)
Theorem isStalemate_iff_no_check_and_no_move b c rights ep :
  isStalemate b c rights ep = Ret true <->
  (isInCheck b c = Ret false /\ noMoveAnywhere b c rights ep).
Proof.
  rewrite noMoveAnywhere_pieces, <- noLegalMove_true. unfold isStalemate.
  destruct (isInCheck_returns b c) as [v ->]. cbn [bind].
  destruct v.
  - split; [discriminate|intros [H _]; discriminate].
  - split; [intros H; split; [reflexivity|exact H]|intros [_ H]; exact H].
Qed.

(** X8.  [getAllLegalMoves] returns the empty list exactly when
    [isCheckmate] or [isStalemate] returns true for the colour, and the two
    never both return true. *)
Theorem no_move_iff_checkmate_or_stalemate b c rights ep :
  (getAllLegalMoves b c rights ep = Ret [] <->
   (isCheckmate b c rights ep = Ret true \/ isStalemate b c rights ep = Ret true))
  /\ ~ (isCheckmate b c rights ep = Ret true /\ isStalemate b c rights ep = Ret true).
Proof.
  unfold getAllLegalMoves, isCheckmate, isStalemate.
  rewrite collectMoves_nil, <- noLegalMove_true.
  destruct (isInCheck_returns b c) as [v ->]. cbn [bind].
  destruct v; cbn [negb]; split;
    first [ tauto
          | split; [auto | intros [H|H]; [exact H || discriminate | exact H || discriminate]]
          | intros [H1 H2]; discriminate ].
Qed.

Lemma existsb_coordinates (l : list square) toRow toCol :
  existsb (fun m : square => (fst m =? toRow) && (snd m =? toCol)) l = true
  <-> In (toRow, toCol) l.
Proof.
  rewrite existsb_exists. split.
  - intros [m [Hm E]]. apply andb_true_iff in E. destruct E as [E1 E2].
    apply Z.eqb_eq in E1, E2. destruct m as [r k]. cbn [fst snd] in *.
    subst. exact Hm.
  - intros H. exists (toRow, toCol). split; [exact H|].
    cbn [fst snd]. rewrite !Z.eqb_refl. reflexivity.
Qed.

Lemma isMoveLegal_true b fromRow fromCol toRow toCol c rights ep :
  isMoveLegal b fromRow fromCol toRow toCol c rights ep = Ret true <->
  exists legal, getLegalMoves b fromRow fromCol rights ep c = Ret legal
                /\ In (toRow, toCol) legal.
Proof.
  unfold isMoveLegal. split.
  - intros H. apply bind_Ret_inv in H. destruct H as [legal [L H]].
    apply Ret_inj in H. exists legal. split; [exact L|].
    apply existsb_coordinates. exact H.
  - intros [legal [-> H]]. cbn [bind]. f_equal.
    apply existsb_coordinates. exact H.
Qed.

Lemma getLegalMoves_nonempty b row col rights ep c legal d :
  getLegalMoves b row col rights ep c = Ret legal -> In d legal ->
  exists p, In (mkPlaced p row col) (getPiecesOfColor b c).
Proof.
  intros L Hd.
  assert (R : onBoard row = true).
  { unfold getLegalMoves in L. apply bind_Ret_inv in L. destruct L as [x [R _]].
    apply readCell_Ret in R. apply R. }
  destruct (cellAt b row col) as [p|] eqn:C.
  - destruct (color_eqb (side p) c) eqn:S.
    + apply color_eqb_eq in S. exists p. apply In_getPiecesOfColor. cbn.
      split; [|split; assumption].
      unfold cellAt in C. destruct (isValidCoord row col); [reflexivity|discriminate].
    + rewrite (getLegalMoves_other_color b row col rights ep c p R C) in L.
      * apply Ret_inj in L. subst legal. destruct Hd.
      * intros E. apply color_eqb_eq in E. congruence.
  - rewrite (getLegalMoves_empty_cell b row col rights ep c R C) in L.
    apply Ret_inj in L. subst legal. destruct Hd.
Qed.

(** X9.  When [getAllLegalMoves] returns, its list holds the move from a
    square to a square exactly when [isMoveLegal] returns true for it: the
    engine considers all the moves the game accepts and no other. *)
Theorem getAllLegalMoves_iff_isMoveLegal b c rights ep moves fromRow fromCol toRow toCol :
  getAllLegalMoves b c rights ep = Ret moves ->
  (In (mkMove (fromRow, fromCol) (toRow, toCol)) moves
   <-> isMoveLegal b fromRow fromCol toRow toCol c rights ep = Ret true).
Proof.
  unfold getAllLegalMoves. intros H.
  rewrite (In_collectMoves b c rights ep _ moves H), isMoveLegal_true.
  cbn [moveFrom moveTo]. split.
  - intros [p [legal [_ [L [F T]]]]]. apply pair_equal_spec in F.
    destruct F as [-> ->]. exists legal. auto.
  - intros [legal [L T]].
    destruct (getLegalMoves_nonempty b fromRow fromCol rights ep c legal _ L T)
      as [p Hp].
    exists (mkPlaced p fromRow fromCol), legal. cbn. auto.
Qed.

Lemma getAllLegalMoves_iff_isMoveLegal_witness :
  exists moves,
    getAllLegalMoves initializeBoard White allRights None = Ret moves
    /\ (In (mkMove (6, 4) (4, 4)) moves
        <-> isMoveLegal initializeBoard 6 4 4 4 White allRights None = Ret true).
Proof.
  eexists. split.
  - vm_compute. reflexivity.
  - apply (getAllLegalMoves_iff_isMoveLegal initializeBoard White allRights None _ 6 4 4 4).
    vm_compute. reflexivity.
Defined.

(** X10.  Every move [getAllLegalMoves] lists is simulated by
    [simulateMove] without an exception, and on the simulated board the
    mover has a king and [isInCheck] is false for the mover. *)
Theorem simulated_legal_move_leaves_mover_out_of_check b c rights ep moves m :
  getAllLegalMoves b c rights ep = Ret moves -> In m moves ->
  exists s k,
    simulateMove b m rights ep = Ret s
    /\ findKing (newBoard s) c = Some k
    /\ isInCheck (newBoard s) c = Ret false.
Proof.
  unfold getAllLegalMoves. intros H Hm.
  apply (In_collectMoves b c rights ep _ moves H) in Hm.
  destruct Hm as [p [legal [Hp [L [F T]]]]].
  destruct (getLegalMoves_safe b _ _ rights ep c legal _ L T) as [x [tb [k [S [K A]]]]].
  destruct (getLegalMoves_simulable b c rights ep p legal _ Hp L T) as [s [Hs _]].
  exists s, k. split.
  - destruct m as [f t]. cbn [moveFrom moveTo] in F. subst f. exact Hs.
  - unfold simulateMove in Hs. cbn [moveFrom moveTo fst snd] in Hs.
    rewrite S in Hs. cbn [bind fst snd] in Hs.
    apply bind_Ret_inv in Hs. destruct Hs as [y [_ Hs]].
    apply Ret_inj in Hs. subst s. cbn [newBoard].
    split; [exact K|]. unfold isInCheck. rewrite K. exact A.
Qed.

Lemma simulated_legal_move_leaves_mover_out_of_check_witness :
  exists s k,
    simulateMove initializeBoard e2e4 allRights None = Ret s
    /\ findKing (newBoard s) White = Some k
    /\ isInCheck (newBoard s) White = Ret false.
Proof.
  eapply (simulated_legal_move_leaves_mover_out_of_check initializeBoard White
            allRights None _ e2e4).
  - vm_compute. reflexivity.
  - cbn. tauto.
Defined.

(** ** The scores of the search *)

Lemma searchLoop_keeps (P : num -> Prop) recur b rights ep (isMaximizing : bool) moves :
  (forall nb nc ne, validTarget ne = true ->
                    exists s, recur nb nc ne = Ret s /\ P s) ->
  (forall m, In m moves -> simulable b rights ep m) ->
  forall best, P best ->
  exists v, searchLoop recur b rights ep isMaximizing moves best = Ret v /\ P v.
Proof.
  intros Hrec. induction moves as [|m rest IH]; intros Hm best Hb; cbn [searchLoop].
  - exists best. auto.
  - destruct (Hm m (or_introl eq_refl)) as [s [-> Hs]]. cbn [bind].
    destruct (Hrec (newBoard s) (newCastling s) _ Hs) as [score [-> Hscore]].
    cbn [bind]. apply IH.
    + intros x Hx. apply Hm. right. exact Hx.
    + unfold num_max, num_min.
      destruct isMaximizing; [destruct (num_ltb best score)|destruct (num_ltb score best)];
        assumption.
Qed.

Lemma searchLoop_first (P : num -> Prop) recur b rights ep (isMaximizing : bool) m rest :
  (forall nb nc ne, validTarget ne = true ->
                    exists s, recur nb nc ne = Ret s /\ P s) ->
  (forall x, In x (m :: rest) -> simulable b rights ep x) ->
  exists v,
    searchLoop recur b rights ep isMaximizing (m :: rest)
      (if isMaximizing then NegInf else PosInf) = Ret v
    /\ P v.
Proof.
  intros Hrec Hm. cbn [searchLoop].
  destruct (Hm m (or_introl eq_refl)) as [s [-> Hs]]. cbn [bind].
  destruct (Hrec (newBoard s) (newCastling s) _ Hs) as [score [-> Hscore]].
  cbn [bind]. apply searchLoop_keeps.
  - exact Hrec.
  - intros x Hx. apply Hm. right. exact Hx.
  - destruct isMaximizing.
    + rewrite num_max_comm_NegInf. exact Hscore.
    + rewrite num_min_comm_PosInf. exact Hscore.
Qed.

Lemma getAllLegalMoves_nil_terminal b c rights ep :
  getAllLegalMoves b c rights ep = Ret [] ->
  isCheckmate b c rights ep = Ret true \/ isStalemate b c rights ep = Ret true.
Proof.
  unfold getAllLegalMoves, isCheckmate, isStalemate. intros H.
  rewrite collectMoves_nil, <- noLegalMove_true in H. rewrite H.
  destruct (isInCheck_returns b c) as [v ->]. cbn [bind].
  destruct v; cbn [negb]; auto.
Qed.

Section Leaves.

Variable evaluateBoard : board -> color -> num.

Lemma minimaxSearch_leaf depth :
  forall b c rights ep (isMaximizing : bool),
    validTarget ep = true ->
    exists v,
      minimaxSearch evaluateBoard b c rights ep depth isMaximizing = Ret v
      /\ leafScore evaluateBoard c v.
Proof.
  induction depth as [|depth' IH]; intros b c rights ep isMaximizing Hep;
    cbn [minimaxSearch];
    destruct (isCheckmate_returns b (if isMaximizing then c else opponentOf c) rights ep
                Hep) as [mate Hmate];
    rewrite Hmate; cbn [bind];
    (destruct mate;
     [eexists; split; [reflexivity|]; unfold leafScore;
      destruct isMaximizing; tauto|]);
    destruct (isStalemate_returns b (if isMaximizing then c else opponentOf c) rights ep
                Hep) as [stale Hstale];
    rewrite Hstale; cbn [bind];
    (destruct stale; [eexists; split; [reflexivity|]; unfold leafScore; tauto|]);
    (destruct (isInsufficientMaterial b);
     [eexists; split; [reflexivity|]; unfold leafScore; tauto|]).
  - eexists. split; [reflexivity|]. unfold leafScore. right. right. right.
    exists b. reflexivity.
  - destruct (getAllLegalMoves_returns b (if isMaximizing then c else opponentOf c)
                rights ep Hep) as [moves Hg].
    pose proof (getAllLegalMoves_simulable _ _ _ _ _ Hg) as Hm.
    rewrite Hg. cbn [bind].
    destruct moves as [|m rest].
    + apply getAllLegalMoves_nil_terminal in Hg. destruct Hg; congruence.
    + apply searchLoop_first; [|exact Hm].
      intros nb nc ne Hne. apply IH. exact Hne.
Qed.

(** X11.  With an en-passant target that is none or a board square,
    [minimaxSearch] returns, [minimaxSearchAlphaBeta] with the window from
    -Infinity to +Infinity returns the same score, and the score is 10000,
    -10000, 0 or the static evaluation of some board for the searching
    colour: the start values -Infinity and +Infinity of the loops are never
    returned. *)
Theorem search_score_is_a_leaf_score b c rights ep depth (isMaximizing : bool) :
  validTarget ep = true ->
  exists v,
    minimaxSearch evaluateBoard b c rights ep depth isMaximizing = Ret v
    /\ minimaxSearchAlphaBeta evaluateBoard b c rights ep depth NegInf PosInf
         isMaximizing = Ret v
    /\ leafScore evaluateBoard c v.
Proof.
  intros Hep.
  destruct (minimaxSearch_leaf depth b c rights ep isMaximizing Hep) as [v [Hv L]].
  destruct (minimaxSearchAlphaBeta_window evaluateBoard depth b c rights ep isMaximizing
              NegInf PosInf Hep eq_refl) as [w [w' [Hw [Hw' W]]]].
  apply window_full in W. subst w'.
  rewrite Hv in Hw. apply Ret_inj in Hw. subst w.
  exists v. auto.
Qed.

End Leaves.

Lemma search_score_is_a_leaf_score_witness :
  exists v,
    minimaxSearch materialBalance initializeBoard White allRights None 2 true = Ret v
    /\ minimaxSearchAlphaBeta materialBalance initializeBoard White allRights None 2
         NegInf PosInf true = Ret v
    /\ leafScore materialBalance White v.
Proof.
  apply (search_score_is_a_leaf_score materialBalance initializeBoard White allRights
           None 2 true).
  reflexivity.
Defined.

(** ** The entry point of the engine *)

Lemma getAllLegalMoves_legal b c rights ep moves m :
  getAllLegalMoves b c rights ep = Ret moves -> In m moves ->
  legalMove b c rights ep m.
Proof.
  unfold getAllLegalMoves, legalMove. intros H Hm.
  apply (In_collectMoves b c rights ep _ moves H) in Hm.
  destruct Hm as [p [legal [_ [L [F T]]]]].
  apply isMoveLegal_true. rewrite F. cbn [fst snd]. exists legal.
  split; [exact L|]. destruct (moveTo m). exact T.
Qed.

Section Engine_properties.

Variable evaluateBoard : board -> color -> num.

Lemma findBestMove_first d index b c rights ep first rest :
  validTarget ep = true -> d = Medium \/ d = Hard ->
  getAllLegalMoves b c rights ep = Ret (first :: rest) ->
  findBestMove evaluateBoard (newChessAI d) index b c rights ep = Ret (Some first).
Proof.
  intros Hep [-> | ->] Hg; unfold findBestMove; cbn [difficulty maxDepth newChessAI getMaxDepth].
  - destruct (minimaxSearchAlphaBeta_window evaluateBoard 1 b c rights ep (negb true)
                NegInf PosInf Hep eq_refl) as [v [_ [Hv _]]].
    apply (minimax_picks_first_move evaluateBoard b c rights ep 1 true v first rest Hv Hg).
  - apply (minimaxAlphaBeta_picks_first_move evaluateBoard b c rights ep 3 Hep true
             first rest Hg).
Qed.

Lemma findBestMove_none d index b c rights ep :
  getAllLegalMoves b c rights ep = Ret [] ->
  findBestMove evaluateBoard (newChessAI d) index b c rights ep = Ret None.
Proof.
  intros Hg. unfold findBestMove, getRandomMove, minimax, minimaxAlphaBeta.
  destruct d; cbn [difficulty maxDepth newChessAI getMaxDepth]; rewrite Hg; reflexivity.
Qed.

Lemma findBestMove_result d index b c rights ep :
  validTarget ep = true ->
  exists moves r,
    getAllLegalMoves b c rights ep = Ret moves
    /\ findBestMove evaluateBoard (newChessAI d) index b c rights ep = Ret r
    /\ (forall m, r = Some m -> In m moves /\ legalMove b c rights ep m)
    /\ (moves = [] -> r = None)
    /\ ((index < length moves)%nat -> r <> None).
Proof.
  intros Hep.
  destruct (getAllLegalMoves_returns b c rights ep Hep) as [moves Hg].
  exists moves. destruct moves as [|first rest].
  - exists None. split; [exact Hg|]. split; [apply findBestMove_none; exact Hg|].
    split; [discriminate|]. split; [reflexivity|]. cbn [length]. lia.
  - assert (Random :
      exists r, getRandomMove index b c rights ep = Ret r
                /\ (forall m, r = Some m ->
                              In m (first :: rest) /\ legalMove b c rights ep m)
                /\ ((index < length (first :: rest))%nat -> r <> None)).
    { unfold getRandomMove. rewrite Hg. cbn [bind].
      exists (nth_error (first :: rest) index). split; [reflexivity|]. split.
      - intros m Hm. apply nth_error_In in Hm. split; [exact Hm|].
        apply (getAllLegalMoves_legal b c rights ep _ m Hg Hm).
      - intros L. apply nth_error_Some. exact L. }
    assert (First :
      d = Medium \/ d = Hard ->
      exists r, findBestMove evaluateBoard (newChessAI d) index b c rights ep = Ret r
                /\ (forall m, r = Some m ->
                              In m (first :: rest) /\ legalMove b c rights ep m)
                /\ ((index < length (first :: rest))%nat -> r <> None)).
    { intros D. exists (Some first).
      split; [apply (findBestMove_first d index b c rights ep first rest Hep D Hg)|].
      split; [|discriminate].
      intros m Hm. injection Hm as <-. split; [left; reflexivity|].
      apply (getAllLegalMoves_legal b c rights ep _ first Hg). left. reflexivity. }
    assert (R :
      exists r, findBestMove evaluateBoard (newChessAI d) index b c rights ep = Ret r
                /\ (forall m, r = Some m ->
                              In m (first :: rest) /\ legalMove b c rights ep m)
                /\ ((index < length (first :: rest))%nat -> r <> None)).
    { destruct d; [exact Random|apply First; auto|apply First; auto|exact Random]. }
    destruct R as [r [Hr [Hl Hn]]]. exists r.
    split; [exact Hg|]. split; [exact Hr|]. split; [exact Hl|].
    split; [discriminate|]. exact Hn.
Qed.

(** X12.  With an en-passant target that is none or a board square, for
    every difficulty and every random index, [findBestMove] returns; a move
    it returns is in the list of [getAllLegalMoves] and is accepted by
    [isMoveLegal]; it returns null when there is no legal move, and a move
    when there is one and the index is within the list. *)
Theorem findBestMove_returns_a_legal_move d index b c rights ep :
  validTarget ep = true ->
  exists moves r,
    getAllLegalMoves b c rights ep = Ret moves
    /\ findBestMove evaluateBoard (newChessAI d) index b c rights ep = Ret r
    /\ (forall m, r = Some m -> In m moves /\ legalMove b c rights ep m)
    /\ (moves = [] -> r = None)
    /\ ((index < length moves)%nat -> r <> None).
Proof. apply findBestMove_result. Qed.

(** X13.  At the medium and hard levels, with an en-passant target that is
    none or a board square, [findBestMove] returns the first move of the
    list of [getAllLegalMoves], whatever the evaluator and the position. *)
Theorem findBestMove_searching_levels_play_the_first_move d index b c rights ep first rest :
  validTarget ep = true -> d = Medium \/ d = Hard ->
  getAllLegalMoves b c rights ep = Ret (first :: rest) ->
  findBestMove evaluateBoard (newChessAI d) index b c rights ep = Ret (Some first).
Proof. apply findBestMove_first. Qed.

End Engine_properties.

Lemma findBestMove_returns_a_legal_move_witness :
  exists moves r,
    getAllLegalMoves queenAndKing White noRights None = Ret moves
    /\ findBestMove materialBalance (newChessAI Easy) 3 queenAndKing White noRights None
       = Ret r
    /\ (forall m, r = Some m -> In m moves /\ legalMove queenAndKing White noRights None m)
    /\ (moves = [] -> r = None)
    /\ ((3 < length moves)%nat -> r <> None).
Proof.
  apply (findBestMove_returns_a_legal_move materialBalance Easy 3 queenAndKing White
           noRights None).
  reflexivity.
Defined.

Lemma findBestMove_searching_levels_play_the_first_move_witness :
  findBestMove materialBalance (newChessAI Hard) 0 queenAndKing White noRights None
  = Ret (Some queenToG7).
Proof.
  eapply (findBestMove_searching_levels_play_the_first_move materialBalance Hard 0
            queenAndKing White noRights None queenToG7 _).
  - reflexivity.
  - right. reflexivity.
  - vm_compute. reflexivity.
Defined.

(** ** The board object, the move classifiers and the evaluator terms *)

Lemma getPieceAt_cellAt b row col : getPieceAt b row col = Ret (cellAt b row col).
Proof.
  unfold getPieceAt, cellAt. destruct (isValidCoord row col) eqn:V; cbn [negb].
  - unfold readCell, cellAt. rewrite V.
    rewrite isValidCoord_onBoard in V. apply andb_true_iff in V.
    destruct V as [-> _]. reflexivity.
  - reflexivity.
Qed.

Lemma cellAt_setPieceAt b row col x r k :
  cellAt (setPieceAt b row col x) r k =
    if isValidCoord row col && (r =? row) && (k =? col) then x else cellAt b r k.
Proof.
  unfold setPieceAt. destruct (isValidCoord row col) eqn:V; cbn [andb].
  - rewrite cellAt_setCell.
    destruct (Z.eqb_spec r row) as [->|R], (Z.eqb_spec k col) as [->|K];
      rewrite ?V, ?andb_false_r; reflexivity.
  - reflexivity.
Qed.

(** X14.  Read after write on the [Board] object: after [setPieceAt] on a
    board square [getPieceAt] returns the piece written there, and on any
    other coordinates what it returned before; [setPieceAt] outside the
    board changes no read. *)
Theorem setPieceAt_then_getPieceAt b row col x r k :
  getPieceAt (setPieceAt b row col x) r k =
    if isValidCoord row col && (r =? row) && (k =? col)
    then Ret x else getPieceAt b r k.
Proof.
  rewrite !getPieceAt_cellAt, cellAt_setPieceAt.
  destruct (isValidCoord row col && (r =? row) && (k =? col)); reflexivity.
Qed.

(** X15.  [movePiece] never raises.  It returns what the destination held
    (null off the board) and records the move in [lastMove]; afterwards the
    origin, if on the board, is empty, the destination, if on the board and
    not the origin, holds what the origin held (nothing for an origin off
    the board), and every other square is unchanged.  Moving a piece onto
    its own square removes it. *)
Theorem movePiece_effect o fromRow fromCol toRow toCol :
  exists o',
    movePiece o fromRow fromCol toRow toCol
    = Ret (cellAt (boardArray o) toRow toCol, o')
    /\ lastMove o'
       = Some (mkLastMove (fromRow, fromCol) (toRow, toCol)
                 (cellAt (boardArray o) fromRow fromCol)
                 (cellAt (boardArray o) toRow toCol))
    /\ forall r k,
         getPieceAt (boardArray o') r k =
           Ret (if isValidCoord fromRow fromCol && (r =? fromRow) && (k =? fromCol)
                then None
                else if isValidCoord toRow toCol && (r =? toRow) && (k =? toCol)
                     then cellAt (boardArray o) fromRow fromCol
                     else cellAt (boardArray o) r k).
Proof.
  unfold movePiece. rewrite !getPieceAt_cellAt. cbn [bind]. eexists.
  split; [reflexivity|]. split; [reflexivity|].
  intros r k. cbn [boardArray]. rewrite getPieceAt_cellAt, !cellAt_setPieceAt.
  reflexivity.
Qed.

(** X16.  [isCastlingMove] is false for every step [getKingMoves]
    generates, true for every destination [getCastlingMoves] offers a king on
    column 4, and false for any piece that is not a king. *)
Theorem isCastlingMove_separates_castling_from_steps b row col c rights s :
  (In s (getKingMoves b row col c) ->
   isCastlingMove row col (fst s) (snd s) (Some (mkPiece King c)) = false)
  /\ (col = 4 -> In s (getCastlingMoves b row col c rights) ->
      isCastlingMove row col (fst s) (snd s) (Some (mkPiece King c)) = true)
  /\ (forall x, isType King x = false ->
                isCastlingMove row col (fst s) (snd s) x = false).
Proof.
  unfold isCastlingMove. split; [|split].
  - intros H. apply getKingMoves_squares in H.
    destruct H as [_ [_ [R [K N]]]]. cbn [isType kind ptype_eqb negb].
    destruct (Z.eqb_spec row (fst s)) as [E|E]; cbn [negb]; [|reflexivity].
    apply Z.eqb_neq. intros A. apply N. destruct s as [r k].
    cbn [fst snd] in *. f_equal; lia.
  - intros -> H. apply In_getCastlingMoves in H. cbn [isType kind ptype_eqb negb].
    destruct H as [[_ [-> [[-> _]|[-> _]]]]|[_ [-> [[-> _]|[-> _]]]]]; reflexivity.
  - intros x ->. reflexivity.
Qed.

(** X17.  The en-passant round: after a pawn's double push
    [updateEnPassantSquare] returns the square the pawn skipped;
    [getEnPassantMoves] then offers exactly that square to an enemy pawn
    standing beside the pushed pawn; and the simulation of that capture puts
    the capturing pawn on the target and empties both its origin and the
    square of the pushed pawn. *)
Theorem double_push_enables_en_passant b x a fromRow toRow toCol k :
  isType Pawn x = true -> getPieceColor x = Some a ->
  toRow = fromRow + 2 * pawnDirection a ->
  isValidCoord toRow toCol = true -> isValidCoord (fromRow + pawnDirection a) toCol = true ->
  cellAt b toRow toCol = x ->
  cellAt b toRow k = Some (mkPiece Pawn (opponentOf a)) ->
  Z.abs (k - toCol) = 1 ->
  let ep := (fromRow + pawnDirection a, toCol) in
  updateEnPassantSquare fromRow toRow toCol x = Some ep
  /\ getEnPassantMoves b toRow k (opponentOf a) (Some ep) = Ret [ep]
  /\ exists tb,
       simulatedBoard b toRow k (fst ep) (snd ep) (Some ep)
       = Ret (Some (mkPiece Pawn (opponentOf a)), tb)
       /\ cellAt tb (fst ep) (snd ep) = Some (mkPiece Pawn (opponentOf a))
       /\ cellAt tb toRow k = None
       /\ cellAt tb toRow toCol = None.
Proof.
  intros T S -> V V' X K A ep.
  assert (D : pawnDirection (opponentOf a) = - pawnDirection a)
    by (destruct a; reflexivity).
  assert (Da : pawnDirection a = 1 \/ pawnDirection a = -1)
    by (destruct a; cbn; auto).
  assert (R : onBoard (fromRow + 2 * pawnDirection a) = true).
  { rewrite isValidCoord_onBoard in V. apply andb_true_iff in V. apply V. }
  assert (R' : onBoard (fromRow + pawnDirection a) = true).
  { rewrite isValidCoord_onBoard in V'. apply andb_true_iff in V'. apply V'. }
  assert (Vk : isValidCoord (fromRow + 2 * pawnDirection a) k = true).
  { unfold cellAt in K. destruct (isValidCoord _ k); [reflexivity|discriminate]. }
  split; [|split].
  - unfold updateEnPassantSquare. rewrite T. cbn [negb].
    replace (Z.abs (fromRow + 2 * pawnDirection a - fromRow) =? 2) with true
      by (symmetry; apply Z.eqb_eq; lia).
    cbn [negb]. unfold ep. f_equal. f_equal.
    replace (fromRow + (fromRow + 2 * pawnDirection a))
      with ((fromRow + pawnDirection a) * 2) by lia.
    apply Z.div_mul. lia.
  - unfold getEnPassantMoves. rewrite (readCell_onBoard b _ k R), K.
    cbn [bind isType kind ptype_eqb negb].
    fold (pawnDirection (opponentOf a)). rewrite D. unfold ep. cbn [fst snd].
    replace (fromRow + pawnDirection a =? fromRow + 2 * pawnDirection a + - pawnDirection a)
      with true by (symmetry; apply Z.eqb_eq; lia).
    replace (Z.abs (toCol - k) =? 1) with true by (symmetry; apply Z.eqb_eq; lia).
    reflexivity.
  - exists (movedBoard b (fromRow + 2 * pawnDirection a) k (fst ep) (snd ep) (Some ep)).
    unfold ep. cbn [fst snd].
    rewrite (simulatedBoard_onBoard b _ k _ toCol (Some (fromRow + pawnDirection a, toCol))
               R R'), K.
    split; [reflexivity|].
    unfold movedBoard. rewrite K.
    cbn [isType kind ptype_eqb isEnPassantTarget fst snd andb].
    rewrite !Z.eqb_refl. cbn [andb]. unfold relocateRook.
    cbn [isType kind ptype_eqb]. rewrite !cellAt_setCell.
    unfold cellAt at 1, copyBoard.
    rewrite V, V', Vk. cbn [andb].
    assert (E1 : (fromRow + pawnDirection a =? fromRow + 2 * pawnDirection a) = false)
      by (apply Z.eqb_neq; lia).
    assert (E2 : (fromRow + 2 * pawnDirection a =? fromRow + pawnDirection a) = false)
      by (apply Z.eqb_neq; lia).
    assert (E3 : (toCol =? k) = false) by (apply Z.eqb_neq; lia).
    assert (E4 : (k =? toCol) = false) by (apply Z.eqb_neq; lia).
    rewrite ?E1, ?E2, ?E3, ?E4, ?Z.eqb_refl, ?andb_false_r. cbn [andb].
    auto.
Qed.

Lemma double_push_enables_en_passant_witness :
  updateEnPassantSquare 6 4 4 wP = Some (5, 4)
  /\ getEnPassantMoves afterE4 4 3 Black (Some (5, 4)) = Ret [(5, 4)]
  /\ exists tb,
       simulatedBoard afterE4 4 3 5 4 (Some (5, 4)) = Ret (bP, tb)
       /\ cellAt tb 5 4 = bP
       /\ cellAt tb 4 3 = None
       /\ cellAt tb 4 4 = None.
Proof.
  apply (double_push_enables_en_passant afterE4 wP White 6 4 4 3); reflexivity.
Defined.

Lemma two_members_length {A} (x y : A) l :
  In x l -> In y l -> x <> y -> (2 <= length l)%nat.
Proof.
  destruct l as [|a [|a' l]]; cbn; intros Hx Hy N.
  - destruct Hx.
  - destruct Hx as [<-|[]], Hy as [<-|[]]. contradiction.
  - lia.
Qed.

Lemma isInsufficientMaterial_side (W K : list placed) (p : placed) :
  In p W -> majorOrPawn (kind (pc p)) = true ->
  match W, K with
  | [], [] => true
  | [q], [] => ptype_eqb (kind (pc q)) Knight || ptype_eqb (kind (pc q)) Bishop
  | [], [q] => ptype_eqb (kind (pc q)) Knight || ptype_eqb (kind (pc q)) Bishop
  | [w], [k] =>
      ptype_eqb (kind (pc w)) Bishop && ptype_eqb (kind (pc k)) Bishop
      && ((prow w + pcol w) mod 2 =? (prow k + pcol k) mod 2)
  | _, _ => false
  end = false
  /\ match K, W with
     | [], [] => true
     | [q], [] => ptype_eqb (kind (pc q)) Knight || ptype_eqb (kind (pc q)) Bishop
     | [], [q] => ptype_eqb (kind (pc q)) Knight || ptype_eqb (kind (pc q)) Bishop
     | [w], [k] =>
         ptype_eqb (kind (pc w)) Bishop && ptype_eqb (kind (pc k)) Bishop
         && ((prow w + pcol w) mod 2 =? (prow k + pcol k) mod 2)
     | _, _ => false
     end = false.
Proof.
  intros Hp M.
  destruct W as [|w [|w' W]]; [destruct Hp| |].
  - destruct Hp as [<-|[]].
    destruct K as [|k [|k' K]]; split; try reflexivity;
      destruct (kind (pc w)); try discriminate M; cbn;
      rewrite ?andb_false_r; reflexivity.
  - destruct K as [|k [|k' K]]; split; reflexivity.
Qed.

(** X18.  [isInsufficientMaterial] is false whenever some colour has its
    king and a pawn, a rook or a queen on the board. *)
Theorem isInsufficientMaterial_never_with_mating_material b c k p :
  findKing b c = Some k ->
  In p (getPiecesOfColor b c) -> majorOrPawn (kind (pc p)) = true ->
  isInsufficientMaterial b = false.
Proof.
  intros Hk Hp M. apply findKing_Some in Hk. destruct Hk as [Vk Ck].
  assert (Kp : In (mkPlaced (mkPiece King c) (fst k) (snd k)) (getPiecesOfColor b c)).
  { apply In_getPiecesOfColor. cbn. auto. }
  assert (N : mkPlaced (mkPiece King c) (fst k) (snd k) <> p).
  { intros <-. discriminate M. }
  pose proof (two_members_length _ _ _ Kp Hp N) as L.
  assert (F : In p (filter (fun q => negb (ptype_eqb (kind (pc q)) King))
                      (getPiecesOfColor b c))).
  { apply filter_In. split; [exact Hp|]. destruct (kind (pc p)); try discriminate M;
      reflexivity. }
  unfold isInsufficientMaterial. cbv zeta.
  destruct c.
  - replace (length (getPiecesOfColor b White) =? 1)%nat with false
      by (symmetry; apply Nat.eqb_neq; lia).
    cbn [andb].
    apply (isInsufficientMaterial_side _
             (filter (fun q => negb (ptype_eqb (kind (pc q)) King))
                (getPiecesOfColor b Black)) p F M).
  - replace (length (getPiecesOfColor b Black) =? 1)%nat with false
      by (symmetry; apply Nat.eqb_neq; lia).
    rewrite andb_false_r.
    apply (isInsufficientMaterial_side _
             (filter (fun q => negb (ptype_eqb (kind (pc q)) King))
                (getPiecesOfColor b White)) p F M).
Qed.

Lemma isInsufficientMaterial_never_with_mating_material_witness :
  isInsufficientMaterial backRankMate = false.
Proof.
  apply (isInsufficientMaterial_never_with_mating_material backRankMate White (7, 7)
           (mkPlaced (mkPiece Pawn White) 6 6)).
  - reflexivity.
  - apply In_getPiecesOfColor. cbn. auto.
  - reflexivity.
Defined.

Lemma centerStep_opponent b c acc s :
  centerStep b (opponentOf c) (- acc) s = - centerStep b c acc s.
Proof.
  unfold centerStep. destruct (cellAt b (fst s) (snd s)) as [[t a]|]; [|reflexivity].
  destruct a, c; cbn; lia.
Qed.

Lemma centerStep_bound b c acc s :
  acc - 9 <= centerStep b c acc s <= acc + 9.
Proof.
  unfold centerStep. destruct (cellAt b (fst s) (snd s)) as [[t a]|]; [|lia].
  destruct (color_eqb _ _), t; cbn; lia.
Qed.

Lemma centerControl_opponent b c l :
  forall acc,
    fold_left (centerStep b (opponentOf c)) l (- acc)
    = - fold_left (centerStep b c) l acc.
Proof.
  induction l as [|s l IH]; intros acc; cbn [fold_left]; [reflexivity|].
  rewrite centerStep_opponent. apply IH.
Qed.

Lemma centerControl_bound b c l :
  forall acc,
    acc - 9 * Z.of_nat (length l) <= fold_left (centerStep b c) l acc
    <= acc + 9 * Z.of_nat (length l).
Proof.
  induction l as [|s l IH]; intros acc; cbn [fold_left length]; [lia|].
  pose proof (centerStep_bound b c acc s).
  pose proof (IH (centerStep b c acc s)). lia.
Qed.

(** X19.  [evaluateCenterControl] for the opponent is the negation of its
    value for the colour, and the value lies between -36 and 36. *)
Theorem evaluateCenterControl_zero_sum b c :
  evaluateCenterControl b (opponentOf c) = - evaluateCenterControl b c
  /\ -36 <= evaluateCenterControl b c <= 36.
Proof.
  unfold evaluateCenterControl. split.
  - apply (centerControl_opponent b c centerSquares 0).
  - pose proof (centerControl_bound b c centerSquares 0) as H.
    cbn [centerSquares length] in H. lia.
Qed.

(** ** Notation and the board string *)

(** X20.  Notation round trip: for a board square, [notationToCoords] of
    [coordsToNotation] gives the row and the column back; for a file letter
    a..h (codes 97..104) and a rank digit 1..8 (codes 49..56),
    [notationToCoords] gives a board square whose [coordsToNotation] is the
    string again. *)
Theorem notation_round_trip :
  (forall row col,
      isValidCoord row col = true ->
      notationToCoords (coordsToNotation row col) = (Some row, Some col))
  /\ (forall file rank,
         97 <= file <= 104 -> 49 <= rank <= 56 ->
         exists row col,
           notationToCoords [file; rank] = (Some row, Some col)
           /\ isValidCoord row col = true
           /\ coordsToNotation row col = [file; rank]).
Proof.
  split.
  - intros row col V. apply isValidCoord_spec in V. destruct V as [R C].
    assert (R' : row = 0 \/ row = 1 \/ row = 2 \/ row = 3
                 \/ row = 4 \/ row = 5 \/ row = 6 \/ row = 7) by lia.
    assert (C' : col = 0 \/ col = 1 \/ col = 2 \/ col = 3
                 \/ col = 4 \/ col = 5 \/ col = 6 \/ col = 7) by lia.
    clear R C.
    repeat (destruct R' as [-> | R']); try subst row;
      repeat (destruct C' as [-> | C']); try subst col; reflexivity.
  - intros file rank F R.
    exists (8 - (rank - 48)), (file - 97).
    assert (F' : file = 97 \/ file = 98 \/ file = 99 \/ file = 100
                 \/ file = 101 \/ file = 102 \/ file = 103 \/ file = 104) by lia.
    assert (R' : rank = 49 \/ rank = 50 \/ rank = 51 \/ rank = 52
                 \/ rank = 53 \/ rank = 54 \/ rank = 55 \/ rank = 56) by lia.
    clear F R.
    repeat (destruct F' as [-> | F']); try subst file;
      repeat (destruct R' as [-> | R']); try subst rank;
      (split; [reflexivity|split; reflexivity]).
Qed.

Lemma squaresOfString_app s t :
  squaresOfString (s ++ t) = squaresOfString s ++ squaresOfString t.
Proof. apply flat_map_app. Qed.

Lemma squaresOfString_count e :
  1 <= e <= 8 -> squaresOfString (numberToString e) = repeat None (Z.to_nat e).
Proof.
  intros H.
  assert (E : e = 1 \/ e = 2 \/ e = 3 \/ e = 4 \/ e = 5 \/ e = 6 \/ e = 7 \/ e = 8)
    by lia.
  repeat (destruct E as [-> | E]); try subst e; reflexivity.
Qed.

Lemma squaresOfString_piece p : squaresOfString [pieceCode p] = [Some p].
Proof. destruct p as [[] []]; reflexivity. Qed.

Lemma squaresOfString_pending fen e :
  0 <= e <= 8 ->
  squaresOfString (if 0 <? e then fen ++ numberToString e else fen)
  = squaresOfString fen ++ repeat None (Z.to_nat e).
Proof.
  intros H. destruct (Z.ltb_spec 0 e) as [L|L].
  - rewrite squaresOfString_app, squaresOfString_count by lia. reflexivity.
  - replace e with 0 by lia. cbn. rewrite app_nil_r. reflexivity.
Qed.

Lemma toStringCols_squares b row cols :
  forall fen empty,
    0 <= empty -> empty + Z.of_nat (length cols) <= 8 ->
    0 <= snd (toStringCols b row cols fen empty) <= 8
    /\ squaresOfString (fst (toStringCols b row cols fen empty))
       ++ repeat None (Z.to_nat (snd (toStringCols b row cols fen empty)))
       = squaresOfString fen ++ repeat None (Z.to_nat empty)
         ++ map (cellAt b row) cols.
Proof.
  induction cols as [|col rest IH]; intros fen empty E L; cbn [toStringCols length] in *.
  - cbn [fst snd map]. rewrite app_nil_r. split; [lia|reflexivity].
  - destruct (cellAt b row col) as [p|] eqn:C; cbv zeta.
    + destruct (IH ((if 0 <? empty then fen ++ numberToString empty else fen)
                      ++ [pieceCode p]) 0 ltac:(lia) ltac:(lia)) as [B H].
      split; [exact B|]. rewrite H.
      rewrite squaresOfString_app, squaresOfString_piece,
        squaresOfString_pending by lia.
      cbn [map repeat Z.to_nat app]. rewrite C, <- !app_assoc. reflexivity.
    + destruct (IH fen (empty + 1) ltac:(lia) ltac:(lia)) as [B H].
      split; [exact B|]. rewrite H. cbn [map]. rewrite C.
      replace (Z.to_nat (empty + 1)) with (S (Z.to_nat empty)) by lia.
      cbn [repeat]. rewrite repeat_cons, <- app_assoc. reflexivity.
Qed.

Lemma toStringRows_squares b rows :
  forall fen,
    squaresOfString (toStringRows b rows fen)
    = squaresOfString fen ++ flat_map (fun row => map (cellAt b row) indices) rows.
Proof.
  induction rows as [|row rest IH]; intros fen; cbn [toStringRows flat_map].
  - rewrite app_nil_r. reflexivity.
  - cbv zeta. rewrite IH.
    destruct (toStringCols_squares b row indices fen 0 ltac:(lia) ltac:(cbn; lia))
      as [B H].
    cbn [Z.to_nat repeat app] in H.
    rewrite app_assoc. f_equal.
    rewrite <- H, <- (squaresOfString_pending _ _ B).
    destruct (row <? 7); [|reflexivity].
    rewrite squaresOfString_app. cbn. rewrite app_nil_r. reflexivity.
Qed.

Lemma toString_squares o :
  squaresOfString (toString o)
  = map (fun s : square => cellAt (boardArray o) (fst s) (snd s)) allSquares.
Proof.
  unfold toString. rewrite toStringRows_squares. reflexivity.
Qed.

(** X21.  [Board.toString] lists the 64 squares: read back (a digit for
    that many empty squares, a letter for its piece, the slash for nothing)
    the string gives the cells of the board in row order; so two boards
    with the same string have the same cells. *)
Theorem toString_determines_the_position o :
  squaresOfString (toString o)
  = map (fun s : square => cellAt (boardArray o) (fst s) (snd s)) allSquares
  /\ forall o',
       toString o = toString o' ->
       forall row col, cellAt (boardArray o) row col = cellAt (boardArray o') row col.
Proof.
  split; [apply toString_squares|].
  intros o' E row col.
  destruct (isValidCoord row col) eqn:V.
  - pose proof (toString_squares o) as H. rewrite E, toString_squares in H.
    pose proof (proj1 (@map_ext_in_iff _ _ _ _ _) H (row, col)) as P.
    cbn [fst snd] in P. symmetry. apply P. apply In_allSquares. exact V.
  - unfold cellAt. rewrite V. reflexivity.
Qed.

(** ** Squares between two squares *)

Lemma squaresLoop_reaches r2 c2 dr dc k :
  forall fuel r c squares,
    (k <= fuel)%nat ->
    r2 = r + dr * Z.of_nat k -> c2 = c + dc * Z.of_nat k ->
    (forall i, (i < k)%nat ->
               ~ (r + dr * Z.of_nat i = r2 /\ c + dc * Z.of_nat i = c2)) ->
    squaresLoop fuel r c r2 c2 dr dc squares
    = Some (squares ++ stepsFrom (r, c) dr dc (k - 1)).
Proof.
  induction k as [|k IH]; intros fuel r c squares F R C N.
  - replace r2 with r by lia. replace c2 with c by lia.
    destruct fuel; cbn [squaresLoop]; rewrite !Z.eqb_refl; cbn;
      rewrite app_nil_r; reflexivity.
  - destruct fuel as [|fuel]; [lia|]. cbn [squaresLoop].
    assert (G : negb (r =? r2) || negb (c =? c2) = true).
    { specialize (N O ltac:(lia)). rewrite !Z.mul_0_r, !Z.add_0_r in N.
      destruct (Z.eqb_spec r r2), (Z.eqb_spec c c2); cbn; tauto. }
    rewrite G. cbv zeta.
    rewrite (IH fuel (r + dr) (c + dc)); try lia.
    + destruct k as [|k].
      * replace (r + dr) with r2 by lia. replace (c + dc) with c2 by lia.
        rewrite !Z.eqb_refl. cbn. reflexivity.
      * assert (G' : negb (r + dr =? r2) || negb (c + dc =? c2) = true).
        { specialize (N 1%nat ltac:(lia)).
          rewrite !Z.mul_1_r in N.
          destruct (Z.eqb_spec (r + dr) r2), (Z.eqb_spec (c + dc) c2); cbn; tauto. }
        rewrite G'. rewrite <- app_assoc. f_equal.
        unfold stepsFrom.
        replace (S (S k) - 1)%nat with (S k) by lia.
        replace (S k - 1)%nat with k by lia.
        cbn [seq map fst snd app]. rewrite !Z.mul_1_r. f_equal.
        rewrite <- (seq_shift k 1), map_map. f_equal. apply map_ext. intros i.
        f_equal; lia.
    + intros i Hi [A B]. apply (N (S i) ltac:(lia)). split; lia.
Qed.

Lemma squaresLoop_misses r2 c2 dr dc fuel :
  forall r c squares,
    (forall i, 0 <= i -> ~ (r + dr * i = r2 /\ c + dc * i = c2)) ->
    squaresLoop fuel r c r2 c2 dr dc squares = None.
Proof.
  induction fuel as [|fuel IH]; intros r c squares N; cbn [squaresLoop];
    assert (G : negb (r =? r2) || negb (c =? c2) = true)
      by (specialize (N 0 ltac:(lia)); rewrite !Z.mul_0_r, !Z.add_0_r in N;
          destruct (Z.eqb_spec r r2), (Z.eqb_spec c c2); cbn; tauto);
    rewrite G; [reflexivity|].
  cbv zeta. apply IH. intros i Hi [A B].
  apply (N (i + 1) ltac:(lia)). split; lia.
Qed.

Lemma stepToward_cases x1 x2 :
  (x2 = x1 /\ stepToward x1 x2 = 0)
  \/ (x1 < x2 /\ stepToward x1 x2 = 1)
  \/ (x2 < x1 /\ stepToward x1 x2 = -1).
Proof.
  unfold stepToward.
  destruct (Z.eqb_spec x2 x1); [auto|].
  destruct (Z.ltb_spec x1 x2); [right; left|right; right]; split; (lia || reflexivity).
Qed.

(** X22.  [getSquaresBetween] ends exactly on aligned squares.  For two
    squares on one row, column or diagonal the loop ends after as many
    iterations as the squares are steps apart, and the result is the squares
    strictly between them in order, followed by the destination.  For two
    squares not so aligned the loop never ends, whatever the bound on its
    iterations. *)
Theorem getSquaresBetween_ends_iff_aligned from to :
  (aligned from to ->
   forall fuel,
     (distance from to <= fuel)%nat ->
     getSquaresBetween fuel from to
     = Some (stepsFrom from (stepToward (fst from) (fst to))
               (stepToward (snd from) (snd to)) (distance from to - 1)
             ++ [to]))
  /\ (~ aligned from to -> forall fuel, getSquaresBetween fuel from to = None).
Proof.
  destruct from as [r1 c1], to as [r2 c2].
  unfold aligned, distance, getSquaresBetween. cbn [fst snd].
  destruct (stepToward_cases r1 r2) as [[R ->]|[[R ->]|[R ->]]];
    destruct (stepToward_cases c1 c2) as [[C ->]|[[C ->]|[C ->]]];
    (split;
     [ intros A fuel F;
       rewrite (squaresLoop_reaches r2 c2 _ _ _ fuel r1 c1 [] F);
       [ reflexivity | lia | lia | intros i Hi; lia ]
     | intros A fuel;
       first [ exfalso; lia
             | rewrite squaresLoop_misses; [reflexivity | intros i Hi; lia] ] ]).
Qed.

(** ** The game controller *)

Lemma updateUI_position g g' :
  updateUI g = Ret g' ->
  position g' = position g /\ promotionPending g' = promotionPending g.
Proof.
  unfold updateUI, checkGameEnd. intros H.
  apply bind_Ret_inv in H. destruct H as [v [_ H]].
  apply bind_Ret_inv in H. destruct H as [mate [_ H]].
  destruct mate; [apply Ret_inj in H; subst g'; auto|].
  apply bind_Ret_inv in H. destruct H as [stale [_ H]].
  destruct stale; [apply Ret_inj in H; subst g'; auto|].
  destruct (isInsufficientMaterial _); apply Ret_inj in H; subst g'; auto.
Qed.

Lemma updateUI_returns g :
  validTarget (gameEnPassant g) = true -> exists g', updateUI g = Ret g'.
Proof.
  intros V. unfold updateUI, checkGameEnd.
  destruct (isInCheck_returns (boardArray (gameBoard g)) (currentTurn g)) as [v ->].
  cbn [bind].
  destruct (isCheckmate_returns (boardArray (gameBoard g)) (currentTurn g)
              (gameRights g) (gameEnPassant g) V) as [mate ->].
  cbn [bind]. destruct mate; [eauto|].
  destruct (isStalemate_returns (boardArray (gameBoard g)) (currentTurn g)
              (gameRights g) (gameEnPassant g) V) as [stale ->].
  cbn [bind]. destruct stale; [eauto|].
  destruct (isInsufficientMaterial _); eauto.
Qed.

Lemma updateUI_selection g g' :
  updateUI g = Ret g' -> selectedSquare g' = selectedSquare g.
Proof.
  unfold updateUI, checkGameEnd. intros H.
  apply bind_Ret_inv in H. destruct H as [v [_ H]].
  apply bind_Ret_inv in H. destruct H as [mate [_ H]].
  destruct mate; [apply Ret_inj in H; subst g'; auto|].
  apply bind_Ret_inv in H. destruct H as [stale [_ H]].
  destruct stale; [apply Ret_inj in H; subst g'; auto|].
  destruct (isInsufficientMaterial _); apply Ret_inj in H; subst g'; auto.
Qed.

Lemma render_unselected g :
  selectedSquare g = None -> render g = Ret g.
Proof.
  intros S. unfold render. rewrite S. cbn [bind].
  destruct (isInCheck_returns (boardArray (gameBoard g)) (currentTurn g)) as [v ->].
  reflexivity.
Qed.

Lemma scheduleReply_position g :
  position (scheduleReply g) = position g
  /\ promotionPending (scheduleReply g) = promotionPending g.
Proof. unfold scheduleReply. destruct (_ && _); auto. Qed.

Lemma isEnPassantMove_onBoard fromRow toRow toCol b x ep :
  onBoard toRow = true ->
  isEnPassantMove fromRow toRow toCol b x ep
  = Ret (isType Pawn x && isEnPassantTarget ep toRow toCol
         && isValidCoord toRow toCol && negb (occupied (cellAt b toRow toCol))).
Proof.
  intros R. unfold isEnPassantMove, isEnPassantTarget.
  destruct (isType Pawn x); cbn [negb andb]; [|reflexivity].
  destruct ep as [ep|]; [|reflexivity].
  destruct (toRow =? fst ep); cbn [negb orb andb]; [|reflexivity].
  destruct (toCol =? snd ep); cbn [negb orb andb]; [|reflexivity].
  rewrite (readCell_onBoard b _ _ R). cbn [bind].
  destruct (isValidCoord toRow toCol); cbn [negb orb andb]; [|reflexivity].
  destruct (occupied _); reflexivity.
Qed.

(** What [makeMove] returns for a destination on a board row. *)
Lemma makeMove_position g fromRow fromCol toRow toCol :
  let b := boardArray (gameBoard g) in
  let x := cellAt b fromRow fromCol in
  let enPassant :=
    isType Pawn x && isEnPassantTarget (gameEnPassant g) toRow toCol
    && isValidCoord toRow toCol && negb (occupied (cellAt b toRow toCol)) in
  onBoard toRow = true ->
  validTarget (updateEnPassantSquare fromRow toRow toCol x) = true ->
  exists g',
    makeMove g fromRow fromCol toRow toCol = Ret g'
    /\ boardArray (gameBoard g') = playedBoard b fromRow fromCol toRow toCol enPassant
    /\ gameRights g'
       = capturedRookRights (updateCastlingRights (gameRights g) fromRow fromCol x)
           (cellAt b toRow toCol) toRow toCol
    /\ gameEnPassant g' = updateEnPassantSquare fromRow toRow toCol x
    /\ currentTurn g'
       = (if isPromotionMove b fromRow toRow x then currentTurn g
          else opponentOf (currentTurn g))
    /\ promotionPending g'
       = (if isPromotionMove b fromRow toRow x
          then Some (mkPending toRow toCol x) else promotionPending g).
Proof.
  intros b x enPassant R V. unfold makeMove, boardGet.
  rewrite !getPieceAt_cellAt. cbn [bind].
  rewrite (isEnPassantMove_onBoard _ _ _ _ _ _ R). cbn [bind].
  fold b x. fold enPassant.
  set (g1 := if enPassant
             then boardSet (pushCaptured g (cellAt b fromRow toCol)) fromRow toCol None
             else if occupied (cellAt b toRow toCol)
                  then pushCaptured g (cellAt b toRow toCol) else g).
  match goal with
  | |- context [bind (if enPassant then ?A else ?B) _] =>
      replace (if enPassant then A else B) with (Ret g1)
        by (unfold g1; destruct enPassant;
            [reflexivity | destruct (occupied _); reflexivity])
  end.
  cbn [bind].
  assert (B1 : boardArray (gameBoard g1)
               = if enPassant then setPieceAt b fromRow toCol None else b).
  { unfold g1, pushCaptured. destruct enPassant.
    - destruct (isWhite _); reflexivity.
    - destruct (occupied _); [destruct (isWhite _)|]; reflexivity. }
  assert (F1 : gameRights g1 = gameRights g /\ currentTurn g1 = currentTurn g
               /\ promotionPending g1 = promotionPending g).
  { unfold g1, pushCaptured. destruct enPassant.
    - destruct (isWhite _); auto.
    - destruct (occupied _); [destruct (isWhite _)|]; auto. }
  set (g2 := if isCastlingMove fromRow fromCol toRow toCol x
             then if fromCol <? toCol
                  then boardSet (boardSet g1 fromRow 5
                                   (cellAt (boardArray (gameBoard g1)) fromRow 7))
                         fromRow 7 None
                  else boardSet (boardSet g1 fromRow 3
                                   (cellAt (boardArray (gameBoard g1)) fromRow 0))
                         fromRow 0 None
             else g1).
  assert (E2 : (if isCastlingMove fromRow fromCol toRow toCol x
                then castleRook g1 fromRow fromCol toCol else Ret g1) = Ret g2).
  { unfold g2, castleRook, boardGet. destruct (isCastlingMove _ _ _ _ _); [|reflexivity].
    destruct (fromCol <? toCol); rewrite getPieceAt_cellAt; reflexivity. }
  rewrite E2. cbn [bind]. clear E2.
  assert (B2 : boardArray (gameBoard g2)
               = let b1 := boardArray (gameBoard g1) in
                 if isCastlingMove fromRow fromCol toRow toCol x
                 then if fromCol <? toCol
                      then setPieceAt (setPieceAt b1 fromRow 5 (cellAt b1 fromRow 7))
                             fromRow 7 None
                      else setPieceAt (setPieceAt b1 fromRow 3 (cellAt b1 fromRow 0))
                             fromRow 0 None
                 else b1).
  { unfold g2. destruct (isCastlingMove _ _ _ _ _); [|reflexivity].
    destruct (fromCol <? toCol); reflexivity. }
  assert (F2 : gameRights g2 = gameRights g /\ currentTurn g2 = currentTurn g
               /\ promotionPending g2 = promotionPending g).
  { unfold g2. destruct (isCastlingMove _ _ _ _ _); [|exact F1].
    destruct (fromCol <? toCol); exact F1. }
  destruct F2 as [Fr [Ft Fp]].
  unfold movePiece. rewrite !getPieceAt_cellAt. cbn [bind snd].
  set (o3 := mkBoardObject _ _).
  set (g4 := recordMove _ _ _ _).
  assert (B4 : boardArray (gameBoard g4)
               = playedBoard b fromRow fromCol toRow toCol enPassant).
  { unfold g4, o3. cbn. rewrite B2, B1. reflexivity. }
  assert (R4 : gameRights g4
               = capturedRookRights
                   (updateCastlingRights (gameRights g) fromRow fromCol x)
                   (cellAt b toRow toCol) toRow toCol).
  { unfold g4. cbn. rewrite Fr. reflexivity. }
  assert (P4 : gameEnPassant g4 = updateEnPassantSquare fromRow toRow toCol x)
    by reflexivity.
  assert (T4 : currentTurn g4 = currentTurn g) by (unfold g4; cbn; exact Ft).
  assert (Q4 : promotionPending g4 = promotionPending g) by (unfold g4; cbn; exact Fp).
  clearbody g4. clear o3 g2 B2 Fr Ft Fp g1 B1 F1.
  destruct (isPromotionMove b fromRow toRow x).
  - destruct (updateUI_returns (awaitPromotion g4 (mkPending toRow toCol x)))
      as [g5 U]; [cbn; rewrite P4; exact V|].
    rewrite U. cbn [bind].
    rewrite (render_unselected g5)
      by (rewrite (updateUI_selection _ _ U); reflexivity).
    apply updateUI_position in U. destruct U as [U Up].
    unfold position in U. cbn in U. cbn in Up.
    exists g5. split; [reflexivity|].
    injection U as U1 U2 U3 U4.
    rewrite U1, U2, U3, U4, Up. auto.
  - destruct (updateUI_returns (switchTurn g4)) as [g5 U]; [cbn; rewrite P4; exact V|].
    rewrite U. cbn [bind].
    rewrite (render_unselected g5)
      by (rewrite (updateUI_selection _ _ U); reflexivity).
    cbn [bind].
    apply updateUI_position in U. destruct U as [U Up].
    unfold position in U. cbn in U. cbn in Up.
    exists (scheduleReply g5). split; [reflexivity|].
    destruct (scheduleReply_position g5) as [S Sp].
    unfold position in S. injection S as S1 S2 S3 S4.
    injection U as U1 U2 U3 U4.
    rewrite S1, S2, S3, S4, Sp, U1, U2, U3, U4, Up, T4, Q4. auto.
Qed.

Lemma cellAt_copyBoard b r k : cellAt (copyBoard b) r k = cellAt b r k.
Proof. reflexivity. Qed.

(** Reads of boards built by writes: every test on coordinates is decided,
    then the two sides are compared. *)
Ltac same_cell :=
  rewrite ?cellAt_setPieceAt, ?cellAt_setCell, ?cellAt_copyBoard;
  repeat match goal with
    | |- context [Z.eqb ?a ?b] =>
        destruct (Z.eqb_spec a b);
        try lia; subst;
        rewrite ?andb_true_r, ?andb_false_r, ?andb_true_l, ?andb_false_l
    | H : isValidCoord ?a ?b = _ |- context [isValidCoord ?a ?b] =>
        rewrite H;
        rewrite ?andb_true_r, ?andb_false_r, ?andb_true_l, ?andb_false_l
    end;
  try reflexivity; try congruence; try lia.

Lemma plain_move_boards b fromRow fromCol toRow toCol x r k :
  isValidCoord fromRow fromCol = true -> isValidCoord toRow toCol = true ->
  cellAt (setPieceAt (setPieceAt b toRow toCol x) fromRow fromCol None) r k
  = cellAt (setCell (setCell (copyBoard b) toRow toCol x) fromRow fromCol None) r k.
Proof. intros F T. same_cell. Qed.

Lemma en_passant_boards b row col toRow toCol r k :
  isValidCoord row col = true -> isValidCoord toRow toCol = true ->
  toRow <> row -> toCol <> col ->
  cellAt (setPieceAt
            (setPieceAt (setPieceAt b row toCol None) toRow toCol
               (cellAt (setPieceAt b row toCol None) row col))
            row col None) r k
  = cellAt (setCell (setCell (setCell (copyBoard b) toRow toCol (cellAt b row col))
                       row col None) row toCol None) r k.
Proof.
  intros F T R C.
  assert (V : isValidCoord row toCol = true).
  { apply isValidCoord_spec in F, T. apply isValidCoord_spec. lia. }
  same_cell.
Qed.

Lemma castle_boards b c row toCol ep r k :
  cellAt b row 4 = Some (mkPiece King c) ->
  (c = White /\ row = 7) \/ (c = Black /\ row = 0) ->
  toCol = 6 \/ toCol = 2 ->
  cellAt (playedBoard b row 4 row toCol false) r k
  = cellAt (movedBoard b row 4 row toCol ep) r k.
Proof.
  intros K [[-> ->]|[-> ->]] [-> | ->];
    unfold playedBoard, movedBoard, relocateRook, isCastlingMove;
    rewrite K; cbn -[cellAt setPieceAt setCell copyBoard];
    same_cell; cbn -[cellAt]; congruence.
Qed.

Lemma enPassantCandidates_col b row col c ep s :
  In s (enPassantCandidates b row col c ep) -> Z.abs (snd s - col) = 1.
Proof.
  unfold enPassantCandidates, getEnPassantMoves.
  destruct ep as [ep|]; [|intros []].
  destruct (readCell b row col) as [x|]; cbn [bind]; [|intros []].
  destruct (negb (isType Pawn x)); [intros []|].
  destruct (fst ep =? _); [|intros []].
  destruct (Z.eqb_spec (Z.abs (snd ep - col)) 1) as [E|E]; [|intros []].
  intros [<-|[]]. exact E.
Qed.

Lemma isCastlingMove_not_king fromRow fromCol toRow toCol x :
  isType King x = false -> isCastlingMove fromRow fromCol toRow toCol x = false.
Proof. unfold isCastlingMove. intros ->. reflexivity. Qed.

Lemma relocateRook_not_king tb x fromRow fromCol toCol :
  isType King x = false -> relocateRook tb x fromRow fromCol toCol = tb.
Proof. unfold relocateRook. intros ->. reflexivity. Qed.

Lemma relocateRook_step tb x fromRow fromCol toCol :
  Z.abs (toCol - fromCol) <= 1 -> relocateRook tb x fromRow fromCol toCol = tb.
Proof.
  intros H. unfold relocateRook. destruct (isType King x); [|reflexivity].
  destruct (isWhite _ && (fromRow =? 7) && (fromCol =? 4)) eqn:W.
  - apply andb_true_iff in W. destruct W as [_ W]. apply Z.eqb_eq in W. subst.
    destruct (Z.eqb_spec toCol 6); [lia|]. destruct (Z.eqb_spec toCol 2); [lia|].
    reflexivity.
  - destruct (negb _ && (fromRow =? 0) && (fromCol =? 4)) eqn:B; [|reflexivity].
    apply andb_true_iff in B. destruct B as [_ B]. apply Z.eqb_eq in B. subst.
    destruct (Z.eqb_spec toCol 6); [lia|]. destruct (Z.eqb_spec toCol 2); [lia|].
    reflexivity.
Qed.

Lemma relocateRook_off_home tb x fromRow fromCol toCol :
  fromCol <> 4 -> relocateRook tb x fromRow fromCol toCol = tb.
Proof.
  intros H. unfold relocateRook. destruct (isType King x); [|reflexivity].
  replace (fromCol =? 4) with false by (symmetry; apply Z.eqb_neq; exact H).
  rewrite !andb_false_r. reflexivity.
Qed.

Lemma isEnPassantTarget_true ep toRow toCol :
  isEnPassantTarget ep toRow toCol = true <-> ep = Some (toRow, toCol).
Proof.
  unfold isEnPassantTarget. destruct ep as [[r k]|]; cbn [fst snd].
  - rewrite andb_true_iff, !Z.eqb_eq. split.
    + intros [-> ->]. reflexivity.
    + intros E. injection E as -> ->. auto.
  - split; discriminate.
Qed.

(** On a candidate move from a consistent position the writes of
    [makeMove] and the simulation build the same board. *)
Lemma played_is_moved b c p row col rights ep d r k :
  isValidCoord row col = true -> cellAt b row col = Some p -> side p = c ->
  In d (candidateMoves b row col rights ep c p) ->
  enPassantConsistent b c ep ->
  cellAt (playedBoard b row col (fst d) (snd d)
            (isType Pawn (Some p) && isEnPassantTarget ep (fst d) (snd d)
             && isValidCoord (fst d) (snd d)
             && negb (occupied (cellAt b (fst d) (snd d))))) r k
  = cellAt (movedBoard b row col (fst d) (snd d) ep) r k.
Proof.
  intros F X S Hd I.
  assert (Hep : validTarget ep = true).
  { destruct ep as [e|]; [|reflexivity]. apply I. }
  pose proof (candidateMoves_valid b row col rights ep c p Hep d Hd) as T.
  unfold validSquare in T.
  destruct d as [toRow toCol]. cbn [fst snd] in *.
  unfold candidateMoves in Hd.
  destruct p as [t s]. cbn [kind side] in *. subst s.
  destruct t.
  - (* pawn *)
    cbn [isType kind ptype_eqb andb].
    unfold playedBoard, movedBoard. rewrite X.
    rewrite (isCastlingMove_not_king _ _ _ _ (Some (mkPiece Pawn c)) eq_refl).
    rewrite (relocateRook_not_king _ (Some (mkPiece Pawn c)) _ _ _ eq_refl).
    cbn [isType kind ptype_eqb andb]. rewrite T. cbn [andb].
    destruct (isEnPassantTarget ep toRow toCol) eqn:Tg; cbn [andb].
    + apply isEnPassantTarget_true in Tg. subst ep.
      destruct I as [_ [Ie Ip]]. cbn [fst snd] in Ie, Ip.
      rewrite Ie. cbn [occupied negb].
      assert (G : toRow = row + pawnDirection c /\ Z.abs (toCol - col) = 1).
      { apply in_app_or in Hd. destruct Hd as [Hd|Hd].
        - exfalso. unfold movesOfPiece in Hd. cbn [kind side] in Hd.
          apply getPawnMoves_squares in Hd.
          destruct Hd as [[E _]|[[E [_ [_ [E' _]]]]|[_ [_ [_ [t [E N]]]]]]].
          + apply pair_equal_spec in E. destruct E as [-> ->].
            replace (row + pawnDirection c - pawnDirection c) with row in Ip by lia.
            rewrite X in Ip. injection Ip as Ip.
            exact (opponentOf_neq c Ip).
          + apply pair_equal_spec in E. destruct E as [-> ->].
            unfold emptyAt in E'. cbn [fst snd] in E'.
            replace (row + 2 * pawnDirection c - pawnDirection c)
              with (row + pawnDirection c) in Ip by lia.
            congruence.
          + cbn [fst snd] in E. congruence.
        - split.
          + apply enPassantCandidates_row in Hd. exact Hd.
          + apply enPassantCandidates_col in Hd. exact Hd. }
      destruct G as [G1 G2].
      rewrite <- X.
      apply en_passant_boards; try assumption.
      * unfold pawnDirection in G1. destruct (color_eqb c White); lia.
      * lia.
    + rewrite ?X. apply plain_move_boards; assumption.
  - (* knight *)
    unfold playedBoard, movedBoard. rewrite X. cbn [isType kind ptype_eqb andb].
    rewrite (isCastlingMove_not_king _ _ _ _ (Some (mkPiece Knight c)) eq_refl).
    rewrite (relocateRook_not_king _ (Some (mkPiece Knight c)) _ _ _ eq_refl).
    rewrite ?X. apply plain_move_boards; assumption.
  - (* bishop *)
    unfold playedBoard, movedBoard. rewrite X. cbn [isType kind ptype_eqb andb].
    rewrite (isCastlingMove_not_king _ _ _ _ (Some (mkPiece Bishop c)) eq_refl).
    rewrite (relocateRook_not_king _ (Some (mkPiece Bishop c)) _ _ _ eq_refl).
    rewrite ?X. apply plain_move_boards; assumption.
  - (* rook *)
    unfold playedBoard, movedBoard. rewrite X. cbn [isType kind ptype_eqb andb].
    rewrite (isCastlingMove_not_king _ _ _ _ (Some (mkPiece Rook c)) eq_refl).
    rewrite (relocateRook_not_king _ (Some (mkPiece Rook c)) _ _ _ eq_refl).
    rewrite ?X. apply plain_move_boards; assumption.
  - (* queen *)
    unfold playedBoard, movedBoard. rewrite X. cbn [isType kind ptype_eqb andb].
    rewrite (isCastlingMove_not_king _ _ _ _ (Some (mkPiece Queen c)) eq_refl).
    rewrite (relocateRook_not_king _ (Some (mkPiece Queen c)) _ _ _ eq_refl).
    rewrite ?X. apply plain_move_boards; assumption.
  - (* king *)
    cbn [isType kind ptype_eqb andb].
    apply in_app_or in Hd. destruct Hd as [Hd|Hd].
    + unfold movesOfPiece in Hd. cbn [kind side] in Hd.
      apply getKingMoves_squares in Hd. cbn [fst snd] in Hd.
      destruct Hd as [_ [_ [Kr [Kc Kn]]]].
      unfold playedBoard, movedBoard. rewrite X. cbn [isType kind ptype_eqb andb].
      rewrite relocateRook_step by exact Kc.
      replace (isCastlingMove row col toRow toCol (Some (mkPiece King c))) with false.
      * rewrite ?X. apply plain_move_boards; assumption.
      * unfold isCastlingMove. cbn [isType kind ptype_eqb negb].
        destruct (row =? toRow); cbn [negb]; [|reflexivity].
        symmetry. apply Z.eqb_neq. lia.
    + destruct (Z.eq_dec col 4) as [->|N4].
      * apply In_getCastlingMoves in Hd.
        destruct Hd as [[-> [-> [[E _]|[E _]]]]|[-> [-> [[E _]|[E _]]]]];
          apply pair_equal_spec in E; destruct E as [-> ->];
          apply (castle_boards b _ _ _ ep r k X); auto.
      * unfold playedBoard, movedBoard. rewrite X. cbn [isType kind ptype_eqb andb].
        rewrite relocateRook_off_home by exact N4.
        replace (isCastlingMove row col toRow toCol (Some (mkPiece King c))) with false.
        -- rewrite ?X. apply plain_move_boards; assumption.
        -- unfold isCastlingMove. cbn [isType kind ptype_eqb negb].
           destruct (row =? toRow); cbn [negb]; [|reflexivity].
           symmetry. apply Z.eqb_neq.
           apply isValidCoord_spec in F.
           apply In_getCastlingMoves in Hd.
           destruct Hd as [[-> [-> [[E _]|[E [_ [Rk _]]]]]]
                          |[-> [-> [[E _]|[E [_ [Rk _]]]]]]];
             apply pair_equal_spec in E; destruct E as [-> ->];
             try lia;
             (destruct (Z.eq_dec col 0) as [->|N0]; [|lia]);
             rewrite X in Rk; discriminate Rk.
Qed.

Lemma getPiecesOfColor_same b b' c :
  sameCells b b' -> getPiecesOfColor b c = getPiecesOfColor b' c.
Proof.
  intros H. unfold getPiecesOfColor. apply flat_map_ext. intros s. rewrite H.
  reflexivity.
Qed.

Lemma findKing_same b b' c : sameCells b b' -> findKing b c = findKing b' c.
Proof.
  intros H. unfold findKing. induction allSquares as [|s l IH]; [reflexivity|].
  cbn [find]. rewrite H, IH. reflexivity.
Qed.

Lemma rawRay_same b b' row col dr dc n :
  sameCells b b' ->
  forall dist, rawRay b row col dr dc dist n = rawRay b' row col dr dc dist n.
Proof.
  intros H. induction n as [|n IH]; intros dist; cbn [rawRay]; [reflexivity|].
  cbv zeta. rewrite H, IH. reflexivity.
Qed.

Lemma rawMoves_same b b' row col t c :
  sameCells b b' -> rawMoves b row col t c = rawMoves b' row col t c.
Proof.
  intros H. unfold rawMoves. destruct t as [[]|]; cbv beta iota.
  - unfold rawPawn. cbv zeta. rewrite !H. apply (f_equal (app _)).
    apply flat_map_ext. intros d. rewrite H. reflexivity.
  - reflexivity.
  - apply flat_map_ext. intros d. apply rawRay_same. exact H.
  - apply flat_map_ext. intros d. apply rawRay_same. exact H.
  - apply flat_map_ext. intros d. apply rawRay_same. exact H.
  - reflexivity.
  - reflexivity.
Qed.

Lemma isSquareAttacked_same b b' row col c :
  sameCells b b' -> isSquareAttacked b row col c = isSquareAttacked b' row col c.
Proof.
  intros H. rewrite !isSquareAttacked_returns.
  rewrite (getPiecesOfColor_same b b' _ H). apply (f_equal Ret).
  apply existsb_agree. intros p _. rewrite H.
  rewrite (rawMoves_same b b' _ _ _ _ H). reflexivity.
Qed.

Lemma isInCheck_same b b' c : sameCells b b' -> isInCheck b c = isInCheck b' c.
Proof.
  intros H. unfold isInCheck. rewrite (findKing_same b b' c H).
  destruct (findKing b' c); [|reflexivity]. apply isSquareAttacked_same. exact H.
Qed.

Lemma updateEnPassantSquare_simulated fromRow toRow toCol x :
  updateEnPassantSquare fromRow toRow toCol x
  = if isType Pawn x && (Z.abs (toRow - fromRow) =? 2)
    then Some ((fromRow + toRow) / 2, toCol) else None.
Proof.
  unfold updateEnPassantSquare. destruct (isType Pawn x); cbn [negb andb]; [|reflexivity].
  destruct (Z.abs (toRow - fromRow) =? 2); reflexivity.
Qed.

(** What [simulateMove] returns between two board rows. *)
Lemma simulateMove_position b fromRow fromCol toRow toCol rights ep :
  onBoard fromRow = true -> onBoard toRow = true ->
  simulateMove b (mkMove (fromRow, fromCol) (toRow, toCol)) rights ep
  = Ret (mkSimulated (movedBoard b fromRow fromCol toRow toCol ep)
           (capturedRookRights
              (updateCastlingRights rights fromRow fromCol (cellAt b fromRow fromCol))
              (cellAt b toRow toCol) toRow toCol)
           (updateEnPassantSquare fromRow toRow toCol (cellAt b fromRow fromCol))).
Proof.
  intros F T. unfold simulateMove. cbn [moveFrom moveTo fst snd].
  rewrite (simulatedBoard_onBoard b _ _ _ _ ep F T). cbn [bind fst snd].
  rewrite (readCell_onBoard b _ _ T). cbn [bind].
  rewrite updateEnPassantSquare_simulated. reflexivity.
Qed.

Lemma makeMove_simulated g fromRow fromCol toRow toCol legal :
  getLegalMoves (boardArray (gameBoard g)) fromRow fromCol (gameRights g)
    (gameEnPassant g) (currentTurn g) = Ret legal ->
  In (toRow, toCol) legal ->
  enPassantConsistent (boardArray (gameBoard g)) (currentTurn g) (gameEnPassant g) ->
  exists g' s,
    makeMove g fromRow fromCol toRow toCol = Ret g'
    /\ simulateMove (boardArray (gameBoard g)) (mkMove (fromRow, fromCol) (toRow, toCol))
         (gameRights g) (gameEnPassant g) = Ret s
    /\ (forall r k, cellAt (boardArray (gameBoard g')) r k = cellAt (newBoard s) r k)
    /\ gameRights g' = newCastling s
    /\ gameEnPassant g' = newEnPassant s
    /\ isInCheck (boardArray (gameBoard g')) (currentTurn g) = Ret false.
Proof.
  set (b := boardArray (gameBoard g)). set (c := currentTurn g).
  intros L Hd I.
  destruct (getLegalMoves_nonempty b _ _ _ _ c legal _ L Hd) as [p Hp].
  pose proof (proj1 (In_getPiecesOfColor b c _) Hp) as [F [X S]].
  cbn [prow pcol pc] in F, X, S.
  assert (Fr : onBoard fromRow = true).
  { rewrite isValidCoord_onBoard in F. apply andb_true_iff in F. apply F. }
  pose proof L as L'.
  rewrite (getLegalMoves_filter b _ _ _ _ c p Fr X S) in L'.
  destruct (filterE_In _ _ _ _ L' Hd) as [Cand _].
  assert (Hep : validTarget (gameEnPassant g) = true).
  { destruct (gameEnPassant g) as [e|]; [|reflexivity]. apply I. }
  pose proof (candidateMoves_valid b _ _ _ _ c p Hep _ Cand) as T.
  unfold validSquare in T. cbn [fst snd] in T.
  assert (Tr : onBoard toRow = true).
  { rewrite isValidCoord_onBoard in T. apply andb_true_iff in T. apply T. }
  destruct (getLegalMoves_safe b _ _ _ _ c legal _ L Hd) as [x [tb [k [Sim [K A]]]]].
  cbn [fst snd] in Sim.
  rewrite (simulatedBoard_onBoard b _ _ _ _ _ Fr Tr) in Sim.
  apply Ret_inj in Sim. apply pair_equal_spec in Sim. destruct Sim as [_ <-].
  destruct (getLegalMoves_simulable b c _ _ (mkPlaced p fromRow fromCol) legal _ Hp L Hd)
    as [s [Hs Vs]].
  cbn [prow pcol] in Hs.
  pose proof Hs as Hs'.
  rewrite (simulateMove_position b _ _ _ _ _ _ Fr Tr) in Hs'.
  apply Ret_inj in Hs'. subst s. cbn [newEnPassant newBoard newCastling] in *.
  destruct (makeMove_position g fromRow fromCol toRow toCol Tr Vs)
    as [g' [M [B [R [E _]]]]].
  fold b in B, R, E.
  assert (Same : sameCells (boardArray (gameBoard g'))
                   (movedBoard b fromRow fromCol toRow toCol (gameEnPassant g))).
  { intros r q. rewrite B, X.
    apply (played_is_moved b c p fromRow fromCol (gameRights g) (gameEnPassant g)
             (toRow, toCol) r q F X S Cand I). }
  exists g'. eexists. split; [exact M|]. split; [exact Hs|].
  cbn [newEnPassant newBoard newCastling].
  split; [exact Same|]. split; [exact R|]. split; [exact E|].
  rewrite (isInCheck_same _ _ c Same). unfold isInCheck. rewrite K. exact A.
Qed.

(** X23.  [makeMove] on a destination that [getLegalMoves] returned for the
    side to move, in a position whose en-passant target is consistent:
    it returns; the board it leaves has the same cells as the board of
    [simulateMove] for that move; the castling rights and the en-passant
    target it stores are those of [simulateMove]; and on the new board
    [isInCheck] is false for the side that moved. *)
Theorem makeMove_plays_the_simulated_move g fromRow fromCol toRow toCol legal :
  getLegalMoves (boardArray (gameBoard g)) fromRow fromCol (gameRights g)
    (gameEnPassant g) (currentTurn g) = Ret legal ->
  In (toRow, toCol) legal ->
  enPassantConsistent (boardArray (gameBoard g)) (currentTurn g) (gameEnPassant g) ->
  exists g' s,
    makeMove g fromRow fromCol toRow toCol = Ret g'
    /\ simulateMove (boardArray (gameBoard g)) (mkMove (fromRow, fromCol) (toRow, toCol))
         (gameRights g) (gameEnPassant g) = Ret s
    /\ (forall r k, cellAt (boardArray (gameBoard g')) r k = cellAt (newBoard s) r k)
    /\ gameRights g' = newCastling s
    /\ gameEnPassant g' = newEnPassant s
    /\ isInCheck (boardArray (gameBoard g')) (currentTurn g) = Ret false.
Proof. apply makeMove_simulated. Qed.

Lemma makeMove_plays_the_simulated_move_witness :
  exists g' s,
    makeMove gameAfterE4 4 3 5 4 = Ret g'
    /\ simulateMove afterE4 (mkMove (4, 3) (5, 4)) allRights (Some (5, 4)) = Ret s
    /\ (forall r k, cellAt (boardArray (gameBoard g')) r k = cellAt (newBoard s) r k)
    /\ gameRights g' = newCastling s
    /\ gameEnPassant g' = newEnPassant s
    /\ isInCheck (boardArray (gameBoard g')) Black = Ret false.
Proof.
  apply (makeMove_plays_the_simulated_move gameAfterE4 4 3 5 4 [(5, 3); (5, 4)]).
  - vm_compute. reflexivity.
  - right. left. reflexivity.
  - repeat split.
Defined.

(** X24.  [tryMove] from an empty square, or with a move [isMoveLegal]
    refuses, returns the game unchanged but for the selection, which is
    dropped. *)
Theorem tryMove_rejects_illegal_moves g fromRow fromCol toRow toCol :
  cellAt (boardArray (gameBoard g)) fromRow fromCol = None
  \/ isMoveLegal (boardArray (gameBoard g)) fromRow fromCol toRow toCol
       (currentTurn g) (gameRights g) (gameEnPassant g) = Ret false ->
  tryMove g fromRow fromCol toRow toCol = Ret (deselect g).
Proof.
  intros H. unfold tryMove, boardGet. rewrite getPieceAt_cellAt. cbn [bind].
  destruct (cellAt (boardArray (gameBoard g)) fromRow fromCol) as [p|] eqn:X;
    cbn [occupied negb].
  - destruct H as [H|H]; [discriminate|]. rewrite H. cbn [bind negb].
    apply render_unselected. reflexivity.
  - apply render_unselected. reflexivity.
Qed.

Lemma tryMove_rejects_illegal_moves_witness :
  tryMove (newGame Easy) 6 4 3 4 = Ret (deselect (newGame Easy)).
Proof.
  apply (tryMove_rejects_illegal_moves (newGame Easy) 6 4 3 4).
  right. vm_compute. reflexivity.
Defined.

(** X25.  [makeMove] keeps the en-passant target consistent: after a
    legal move from a position with a consistent target, the target stored
    is none, or an empty board square right behind which the pawn just
    pushed stands, as the next side to move requires.  The turn has passed
    to the other colour, unless a promotion is pending and the target is
    none. *)
Theorem makeMove_keeps_the_target_consistent g fromRow fromCol toRow toCol legal :
  getLegalMoves (boardArray (gameBoard g)) fromRow fromCol (gameRights g)
    (gameEnPassant g) (currentTurn g) = Ret legal ->
  In (toRow, toCol) legal ->
  enPassantConsistent (boardArray (gameBoard g)) (currentTurn g) (gameEnPassant g) ->
  exists g',
    makeMove g fromRow fromCol toRow toCol = Ret g'
    /\ enPassantConsistent (boardArray (gameBoard g')) (opponentOf (currentTurn g))
         (gameEnPassant g')
    /\ (promotionPending g' = promotionPending g
        /\ currentTurn g' = opponentOf (currentTurn g)
        \/ gameEnPassant g' = None /\ currentTurn g' = currentTurn g).
Proof.
  set (b := boardArray (gameBoard g)). set (c := currentTurn g).
  intros L Hd I.
  destruct (getLegalMoves_nonempty b _ _ _ _ c legal _ L Hd) as [p Hp].
  pose proof (proj1 (In_getPiecesOfColor b c _) Hp) as [F [X S]].
  cbn [prow pcol pc] in F, X, S.
  assert (Fr : onBoard fromRow = true).
  { rewrite isValidCoord_onBoard in F. apply andb_true_iff in F. apply F. }
  pose proof L as L'.
  rewrite (getLegalMoves_filter b _ _ _ _ c p Fr X S) in L'.
  destruct (filterE_In _ _ _ _ L' Hd) as [Cand _].
  assert (Hep : validTarget (gameEnPassant g) = true).
  { destruct (gameEnPassant g) as [e|]; [|reflexivity]. apply I. }
  pose proof (candidateMoves_valid b _ _ _ _ c p Hep _ Cand) as T.
  unfold validSquare in T. cbn [fst snd] in T.
  assert (Tr : onBoard toRow = true).
  { rewrite isValidCoord_onBoard in T. apply andb_true_iff in T. apply T. }
  destruct (getLegalMoves_simulable b c _ _ (mkPlaced p fromRow fromCol) legal _ Hp L Hd)
    as [s [Hs Vs]].
  cbn [prow pcol] in Hs.
  rewrite (simulateMove_position b _ _ _ _ _ _ Fr Tr) in Hs.
  apply Ret_inj in Hs. subst s. cbn [newEnPassant] in Vs.
  destruct (makeMove_position g fromRow fromCol toRow toCol Tr Vs)
    as [g' [M [B [_ [E [Tn Pp]]]]]].
  fold b in B, E, Tn, Pp. fold c in Tn.
  assert (Same : forall r q,
             cellAt (boardArray (gameBoard g')) r q
             = cellAt (movedBoard b fromRow fromCol toRow toCol (gameEnPassant g)) r q).
  { intros r q. rewrite B, X.
    apply (played_is_moved b c p fromRow fromCol (gameRights g) (gameEnPassant g)
             (toRow, toCol) r q F X S Cand I). }
  exists g'. split; [exact M|].
  rewrite X in E, Tn, Pp.
  destruct (updateEnPassantSquare fromRow toRow toCol (Some p)) as [e|] eqn:U.
  - (* a double push *)
    unfold updateEnPassantSquare in U.
    destruct (isType Pawn (Some p)) eqn:Pw; cbn [negb] in U; [|discriminate].
    destruct (Z.eqb_spec (Z.abs (toRow - fromRow)) 2) as [D|D]; cbn [negb] in U;
      [|discriminate].
    injection U as <-.
    assert (Kp : p = mkPiece Pawn c).
    { destruct p as [t a]. cbn in Pw, S. apply ptype_eqb_eq in Pw. congruence. }
    subst p.
    assert (G : toRow = fromRow + 2 * pawnDirection c /\ toCol = fromCol
                /\ cellAt b (fromRow + pawnDirection c) fromCol = None
                /\ isValidCoord (fromRow + pawnDirection c) fromCol = true).
    { unfold candidateMoves in Cand. cbn [kind] in Cand.
      apply in_app_or in Cand. destruct Cand as [Cand|Cand].
      - unfold movesOfPiece in Cand. cbn [kind side] in Cand.
        apply getPawnMoves_squares in Cand.
        assert (Dc : pawnDirection c = 1 \/ pawnDirection c = -1)
          by (unfold pawnDirection; destruct (color_eqb c White); auto).
        destruct Cand as [[Q _]|[[Q [_ [V [Em _]]]]|[Q _]]].
        + apply pair_equal_spec in Q. lia.
        + apply pair_equal_spec in Q. destruct Q as [-> ->].
          unfold emptyAt in Em. cbn [fst snd] in Em. auto.
        + cbn [fst snd] in Q. lia.
      - apply enPassantCandidates_row in Cand. cbn [fst] in Cand.
        destruct (color_eqb c White); lia. }
    destruct G as [-> [-> [Em V]]].
    assert (Dc : pawnDirection c = 1 \/ pawnDirection c = -1)
      by (unfold pawnDirection; destruct (color_eqb c White); auto).
    assert (Mid : (fromRow + (fromRow + 2 * pawnDirection c)) / 2
                  = fromRow + pawnDirection c).
    { replace (fromRow + (fromRow + 2 * pawnDirection c))
        with ((fromRow + pawnDirection c) * 2) by lia.
      apply Z.div_mul. lia. }
    split.
    + rewrite E. unfold enPassantConsistent. cbn [fst snd]. rewrite Mid.
      split; [exact V|].
      replace (pawnDirection (opponentOf c)) with (- pawnDirection c)
        by (destruct c; reflexivity).
      rewrite !Same. unfold movedBoard. rewrite X.
      rewrite (relocateRook_not_king _ (Some (mkPiece Pawn c)) _ _ _ eq_refl).
      replace (opponentOf (opponentOf c)) with c by (destruct c; reflexivity).
      replace (fromRow + pawnDirection c - - pawnDirection c)
        with (fromRow + 2 * pawnDirection c) by lia.
      assert (V2 : isValidCoord (fromRow + 2 * pawnDirection c) fromCol = true)
        by exact T.
      destruct (isType Pawn (Some (mkPiece Pawn c))
                && isEnPassantTarget (gameEnPassant g)
                     (fromRow + 2 * pawnDirection c) fromCol);
        split; same_cell.
    + left. unfold isPromotionMove in Tn, Pp. cbn [isType kind ptype_eqb negb] in Tn, Pp.
      assert (St : fromRow = pawnStartRow c).
      { unfold candidateMoves in Cand. cbn [kind] in Cand.
        apply in_app_or in Cand. destruct Cand as [Cand|Cand].
        - unfold movesOfPiece in Cand. cbn [kind side] in Cand.
          apply getPawnMoves_squares in Cand.
          destruct Cand as [[Q _]|[[_ [Q _]]|[Q _]]].
          + apply pair_equal_spec in Q. lia.
          + exact Q.
          + cbn [fst snd] in Q. lia.
        - apply enPassantCandidates_row in Cand. cbn [fst] in Cand.
          destruct (color_eqb c White); lia. }
      assert (NoPromotion :
                isWhite (getPieceColor (Some (mkPiece Pawn c)))
                && (fromRow + 2 * pawnDirection c =? 0)
                || negb (isWhite (getPieceColor (Some (mkPiece Pawn c))))
                   && (fromRow + 2 * pawnDirection c =? 7) = false).
      { subst fromRow. destruct c; reflexivity. }
      rewrite NoPromotion in Tn, Pp. auto.
  - split; [rewrite E; exact Logic.I|].
    destruct (isPromotionMove b fromRow toRow (Some p)); auto.
Qed.

Lemma makeMove_keeps_the_target_consistent_witness :
  exists g',
    makeMove (newGame Easy) 6 4 4 4 = Ret g'
    /\ enPassantConsistent (boardArray (gameBoard g')) Black (gameEnPassant g')
    /\ (promotionPending g' = None /\ currentTurn g' = Black
        \/ gameEnPassant g' = None /\ currentTurn g' = White).
Proof.
  apply (makeMove_keeps_the_target_consistent (newGame Easy) 6 4 4 4 [(5, 4); (4, 4)]).
  - vm_compute. reflexivity.
  - right. left. reflexivity.
  - exact I.
Defined.

Section Reply_properties.

Variable evaluateBoard : board -> color -> num.

(** X26.  The reply of the computer: with black to move and a consistent
    en-passant target [makeAIMove] returns; it ends the game when black has
    no legal move; and when the random index is within the list of legal
    moves it plays one of them, leaving the board, the rights and the target
    of [simulateMove] for that move, black out of check and [aiThinking]
    false. *)
Theorem makeAIMove_plays_a_legal_move index g :
  currentTurn g = Black ->
  enPassantConsistent (boardArray (gameBoard g)) Black (gameEnPassant g) ->
  exists moves g',
    getAllLegalMoves (boardArray (gameBoard g)) Black (gameRights g) (gameEnPassant g)
    = Ret moves
    /\ makeAIMove evaluateBoard index g = Ret g'
    /\ (moves = [] -> g' = endGame g GameEnded)
    /\ ((index < length moves)%nat ->
        exists m s,
          In m moves
          /\ simulateMove (boardArray (gameBoard g)) m (gameRights g) (gameEnPassant g)
             = Ret s
          /\ (forall r k, cellAt (boardArray (gameBoard g')) r k = cellAt (newBoard s) r k)
          /\ gameRights g' = newCastling s
          /\ gameEnPassant g' = newEnPassant s
          /\ isInCheck (boardArray (gameBoard g')) Black = Ret false
          /\ aiThinking g' = false).
Proof.
  set (b := boardArray (gameBoard g)).
  intros Turn I.
  assert (Hep : validTarget (gameEnPassant g) = true).
  { destruct (gameEnPassant g) as [e|]; [|reflexivity]. apply I. }
  destruct (findBestMove_result evaluateBoard (aiDifficulty g) index b Black
              (gameRights g) (gameEnPassant g) Hep)
    as [moves [r [Hg [Hr [Hl [Hn Hs]]]]]].
  exists moves. unfold makeAIMove. fold b. rewrite Hr. cbn [bind].
  destruct r as [m|].
  - destruct (Hl m eq_refl) as [Hm _].
    pose proof Hg as Hg'. unfold getAllLegalMoves in Hg'.
    apply (In_collectMoves b Black _ _ _ moves Hg') in Hm.
    destruct Hm as [p [legal [_ [L [Fm Tm]]]]].
    rewrite Fm. cbn [fst snd].
    destruct (moveTo m) as [toRow toCol] eqn:Em. cbn [fst snd].
    rewrite <- Turn in L, I.
    destruct (makeMove_simulated g (prow p) (pcol p) toRow toCol legal L Tm I)
      as [g' [s [M [S [B [R [E C]]]]]]].
    rewrite M. cbn [bind]. exists (stopThinking g'). split; [exact Hg|].
    split; [reflexivity|]. split.
    + intros ->. discriminate (Hn eq_refl).
    + intros _. exists m, s. rewrite Turn in C.
      split; [apply (Hl m eq_refl)|].
      split; [destruct m as [f t]; cbn in Fm, Em; subst f t; exact S|].
      cbn [stopThinking gameBoard gameRights gameEnPassant aiThinking]. auto.
  - exists (endGame g GameEnded). split; [exact Hg|]. split; [reflexivity|].
    split; [reflexivity|]. intros Lt. exfalso.
    apply (Hs Lt). reflexivity.
Qed.

End Reply_properties.

Lemma makeAIMove_plays_a_legal_move_witness :
  exists moves g',
    getAllLegalMoves afterE4 Black allRights (Some (5, 4)) = Ret moves
    /\ makeAIMove materialBalance 0 gameAfterE4 = Ret g'
    /\ (moves = [] -> g' = endGame gameAfterE4 GameEnded)
    /\ ((0 < length moves)%nat ->
        exists m s,
          In m moves
          /\ simulateMove afterE4 m allRights (Some (5, 4)) = Ret s
          /\ (forall r k, cellAt (boardArray (gameBoard g')) r k = cellAt (newBoard s) r k)
          /\ gameRights g' = newCastling s
          /\ gameEnPassant g' = newEnPassant s
          /\ isInCheck (boardArray (gameBoard g')) Black = Ret false
          /\ aiThinking g' = false).
Proof.
  apply (makeAIMove_plays_a_legal_move materialBalance 0 gameAfterE4).
  - reflexivity.
  - repeat split.
Defined.

Lemma render_Ret g g' : render g = Ret g' -> g' = g.
Proof.
  unfold render. intros H.
  apply bind_Ret_inv in H. destruct H as [l [_ H]].
  apply bind_Ret_inv in H. destruct H as [v [_ H]].
  apply Ret_inj in H. auto.
Qed.

(** X27.  [handleSquareClick] leaves the board, the turn, the castling
    rights and the en-passant target as they are, unless the game is going
    on with white to move, no reply and no promotion pending, a square is
    selected and [isMoveLegal] accepts the move from it to the clicked
    square; then the result is that of [makeMove] for this move. *)
Theorem handleSquareClick_only_plays_legal_moves g row col g' :
  handleSquareClick g row col = Ret g' ->
  position g' = position g
  \/ exists s,
       selectedSquare g = Some s
       /\ currentTurn g = White /\ gameOver g = false /\ aiThinking g = false
       /\ promotionPending g = None
       /\ isMoveLegal (boardArray (gameBoard g)) (fst s) (snd s) row col White
            (gameRights g) (gameEnPassant g) = Ret true
       /\ makeMove g (fst s) (snd s) row col = Ret g'.
Proof.
  unfold handleSquareClick, boardGet. intros H.
  destruct (gameOver g) eqn:Over; cbn [orb] in H;
    [apply Ret_inj in H; subst g'; left; reflexivity|].
  destruct (aiThinking g) eqn:Thinking; cbn [orb] in H;
    [apply Ret_inj in H; subst g'; left; reflexivity|].
  destruct (promotionPending g) as [pending|] eqn:Pending; cbn [occupiedPending] in H;
    [apply Ret_inj in H; subst g'; left; reflexivity|].
  destruct (currentTurn g) eqn:Turn; cbn [color_eqb] in H;
    [|apply Ret_inj in H; subst g'; left; reflexivity].
  rewrite getPieceAt_cellAt in H. cbn [bind] in H.
  destruct (friendly _ White).
  - apply render_Ret in H. subst g'. left. unfold position. cbn. rewrite Turn.
    reflexivity.
  - destruct (selectedSquare g) as [s|] eqn:Sel.
    + unfold tryMove, boardGet in H. rewrite getPieceAt_cellAt in H. cbn [bind] in H.
      destruct (negb (occupied _)).
      * apply render_Ret in H. subst g'. left. unfold position. cbn. rewrite Turn.
        reflexivity.
      * apply bind_Ret_inv in H. destruct H as [legal [L H]].
        destruct legal; cbn [negb] in H.
        -- right. exists s. rewrite Turn in L. auto 10.
        -- apply render_Ret in H. subst g'. left. unfold position. cbn. rewrite Turn.
           reflexivity.
    + apply render_Ret in H. subst g'. left. reflexivity.
Qed.

Lemma handleSquareClick_only_plays_legal_moves_witness :
  position (select (newGame Easy) (6, 4)) = position (newGame Easy)
  \/ exists s,
       selectedSquare (newGame Easy) = Some s
       /\ currentTurn (newGame Easy) = White /\ gameOver (newGame Easy) = false
       /\ aiThinking (newGame Easy) = false
       /\ promotionPending (newGame Easy) = None
       /\ isMoveLegal (boardArray (gameBoard (newGame Easy))) (fst s) (snd s) 6 4 White
            (gameRights (newGame Easy)) (gameEnPassant (newGame Easy)) = Ret true
       /\ makeMove (newGame Easy) (fst s) (snd s) 6 4 = Ret (select (newGame Easy) (6, 4)).
Proof.
  apply (handleSquareClick_only_plays_legal_moves (newGame Easy) 6 4
           (select (newGame Easy) (6, 4))).
  vm_compute. reflexivity.
Defined.
